(** * Quote list: synchronisation with the server and conflict handling

    A shallow embedding of the sync engine of the Dynamic Quote Generator
    (the revision "with Server Sync & Conflict Handling"): the JavaScript
    globals [quotes] and [pendingConflicts], the simulated server, the two
    server helpers [fetchServerQuotes] and [postQuoteToServer], the pass
    [syncWithServer], the handlers of the conflict panel, the JSON import
    and export, the loading from [localStorage], the form that adds a
    quote, the category list and the choice of the quote shown.  The
    building of the page (the DOM, the timers and the wiring of the events)
    is left out.

    Conventions of the embedding.
    - A quote is the object [{ id, text, category, lastModified (ISO),
      pendingSync }] of the source.  [id] is the string [String(q.id)];
      [lastModified] is the instant its ISO string denotes, in
      milliseconds, so that [new Date(x.lastModified).getTime()] is the
      field itself; [pendingSync] is a boolean.
    - A record sent by the server may lack [lastModified]; the source then
      reads the clock ([|| nowISO()], [: Date.now()]).
    - A JavaScript [Map] is an association list with unique keys kept in
      insertion order.
    - Everything outside the page (the wall clock, [Math.random], the HTTP
      server, faults of the simulated server) is an oracle of [Env]; the
      page reads it through counters kept in [World].  [World] also logs
      the HTTP requests the page issues.
    - The objects of the array [merged] are referred to by their position
      in it, so that a write to [lq.pendingSync] is a write to [merged]. *)

From Stdlib Require Import String List ZArith Bool Arith Lia.
From Stdlib Require Import Ascii.
Import ListNotations.

Local Open Scope string_scope.
Local Open Scope list_scope.

Set Implicit Arguments.

(** ** Data *)

Record Quote : Type := mkQuote {
  id : string;
  text : string;
  category : string;
  lastModified : Z;
  pendingSync : bool
}.

(** A record as the server lists it: [{ id, text, category, lastModified }]. *)
Record ServerQuote : Type := mkServerQuote {
  sid : string;
  stext : string;
  scategory : string;
  slastModified : option Z
}.

(** The server side of a conflict entry: the server's record with [id]
    and [lastModified] filled in. *)
Record ServerCopy : Type := mkServerCopy {
  rid : string;
  rtext : string;
  rcategory : string;
  rlastModified : Z
}.

(** An entry of [pendingConflicts]: [{ id, local, server }]. *)
Record Conflict : Type := mkConflict {
  cid : string;
  clocal : Quote;
  cserver : ServerCopy
}.

Definition SERVER_WINS_BY_DEFAULT : bool := true.

Definition setPendingSync (b : bool) (q : Quote) : Quote :=
  mkQuote (id q) (text q) (category q) (lastModified q) b.

Definition setLastModified (t : Z) (q : Quote) : Quote :=
  mkQuote (id q) (text q) (category q) t (pendingSync q).

(** ** JavaScript [Map] *)

Module JsMap.
Section Ordered.
Variable V : Type.

Definition t : Type := list (string * V).

Fixpoint get (m : t) (k : string) : option V :=
  match m with
  | [] => None
  | (k', v) :: m' => if String.eqb k' k then Some v else get m' k
  end.

Definition has (m : t) (k : string) : bool :=
  match get m k with Some _ => true | None => false end.

(** [m.set(k, v)]: a known key keeps its place, a new one goes last. *)
Fixpoint set (m : t) (k : string) (v : V) : t :=
  match m with
  | [] => [(k, v)]
  | (k', v') :: m' =>
      if String.eqb k' k then (k', v) :: m' else (k', v') :: set m' k v
  end.

(** [new Map(entries)]. *)
Definition ofEntries (es : list (string * V)) : t :=
  fold_left (fun m e => set m (fst e) (snd e)) es [].

Definition keys (m : t) : list string := map fst m.
Definition values (m : t) : list V := map snd m.
End Ordered.
End JsMap.

(** ** The world outside the page and the state of the page *)

(** An item of the list the HTTP server answers with; a field is [None]
    when it is missing or falsy, and holds its [String(...)] otherwise. *)
Record Post : Type := mkPost {
  pid : option string;
  ptitle : option string;
  pbody : option string;
  puserId : option string
}.

Inductive Request : Type :=
| GET
| POST (q : Quote).

Record Env : Type := mkEnv {
  clock : nat -> Z;                     (* n-th reading of the wall clock *)
  token : nat -> string;                (* what uid() returns at that reading *)
  httpGet : nat -> option (list Post);  (* answer to request n, a GET *)
  httpPost : nat -> bool;               (* whether request n, a POST, succeeds *)
  simFault : nat -> bool                (* the simulated server throws after request n *)
}.

Inductive Notice : Type :=
| ConflictsDetected (n : nat)   (* "n conflict(s) detected. Server changes applied. ..." *)
| NewQuotesSynced (n : nat)     (* "n new quote(s) synced from server." *)
| SyncFailed                    (* "Sync attempt failed (network error). Will retry." *)
| ServerAcceptedAll             (* "Server changes accepted for all conflicts." *)
| LocalPushedAll                (* "Local changes pushed to server for all conflicts." *)
| ServerAcceptedOne             (* "Server change accepted for one conflict." *)
| LocalPushedOne                (* "Local change pushed to server for one conflict." *)
| LocalPushFailed.              (* "Failed to push local change to server." *)

Inductive Display : Type :=
| QuoteView                     (* whatever filterQuotes renders *)
| ImportSucceeded (n : nat)     (* "Successfully imported n quotes!" *)
| ImportInvalidFormat           (* "Invalid JSON format. Expected an array of quotes." *)
| ImportReadError.              (* "Error reading JSON file." *)

Record World : Type := mkWorld {
  quotes : list Quote;                 (* let quotes *)
  pendingConflicts : list Conflict;    (* let pendingConflicts *)
  store : list ServerQuote;            (* simulatedServer.store *)
  saved : list Quote;                  (* localStorage "quotes" *)
  notices : list (Notice * bool);      (* calls of notifyUser, oldest first *)
  display : Display;                   (* quoteDisplay.innerHTML *)
  requests : list Request;             (* HTTP requests issued, oldest first *)
  ticks : nat                          (* clock readings taken so far *)
}.

Definition withQuotes (qs : list Quote) (w : World) : World :=
  mkWorld qs (pendingConflicts w) (store w) (saved w) (notices w) (display w)
          (requests w) (ticks w).

Definition withPendingConflicts (cs : list Conflict) (w : World) : World :=
  mkWorld (quotes w) cs (store w) (saved w) (notices w) (display w)
          (requests w) (ticks w).

Definition withStore (s : list ServerQuote) (w : World) : World :=
  mkWorld (quotes w) (pendingConflicts w) s (saved w) (notices w) (display w)
          (requests w) (ticks w).

Definition withDisplay (d : Display) (w : World) : World :=
  mkWorld (quotes w) (pendingConflicts w) (store w) (saved w) (notices w) d
          (requests w) (ticks w).

Definition withTicks (n : nat) (w : World) : World :=
  mkWorld (quotes w) (pendingConflicts w) (store w) (saved w) (notices w)
          (display w) (requests w) n.

Definition issue (r : Request) (w : World) : World :=
  mkWorld (quotes w) (pendingConflicts w) (store w) (saved w) (notices w)
          (display w) (requests w ++ [r]) (ticks w).

Definition saveQuotesToLocalStorage (w : World) : World :=
  mkWorld (quotes w) (pendingConflicts w) (store w) (quotes w) (notices w)
          (display w) (requests w) (ticks w).

Definition notifyUser (message : Notice) (showResolveButton : bool)
    (w : World) : World :=
  mkWorld (quotes w) (pendingConflicts w) (store w) (saved w)
          (notices w ++ [(message, showResolveButton)]) (display w)
          (requests w) (ticks w).

(** [populateCategories(); filterQuotes(currentCategory)]: the page shows a
    quote of the current category (or the empty notice); what it shows is
    not modelled. *)
Definition refreshView (w : World) : World := withDisplay QuoteView w.

(** The outcome of awaiting a promise. *)
Inductive Outcome (A : Type) : Type :=
| Resolved (a : A)
| Rejected.
Arguments Rejected {A}.

(** ** Simulated server *)

Definition toServerQuote (q : Quote) : ServerQuote :=
  mkServerQuote (id q) (text q) (category q) (Some (lastModified q)).

(** [simulatedServer.initFromLocal(localQuotes)] *)
Definition initFromLocal (localQuotes : list Quote) (w : World) : World :=
  match store w with
  | [] => withStore (map toServerQuote localQuotes) w
  | _ :: _ => w
  end.

(** The update of [store] by [simulatedServer.postQuote(q)]:
    [findIndex(s => s.id === q.id)], then overwrite or push. *)
Fixpoint storePost (st : list ServerQuote) (q : Quote) : list ServerQuote :=
  match st with
  | [] => [toServerQuote q]
  | s :: st' =>
      if String.eqb (sid s) (id q) then toServerQuote q :: st'
      else s :: storePost st' q
  end.

(** ** Server interaction helpers *)

(** [uid()] reads the clock and the random source once. *)
Definition uid (env : Env) (n : nat) : string * nat := (token env n, S n).

(** [nowISO()] *)
Definition nowISO (env : Env) (n : nat) : Z * nat := (clock env n, S n).

(** [data.map(item => ({ id: item.id ? String(item.id) : uid(), ... }))] in
    [fetchServerQuotes], with the clock readings it takes. *)
Fixpoint mapPosts (env : Env) (data : list Post) (n : nat)
  : list ServerQuote * nat :=
  match data with
  | [] => ([], n)
  | item :: rest =>
      let (i, n1) :=
        match pid item with Some s => (s, n) | None => uid env n end in
      let txt :=
        match pbody item with
        | Some b => b
        | None => match ptitle item with Some t => t | None => "Untitled" end
        end in
      let cat :=
        match puserId item with
        | Some u => String.append "User-" u
        | None => "Import"
        end in
      let (lm, n2) := nowISO env n1 in
      let (rest', n3) := mapPosts env rest n2 in
      (mkServerQuote i txt cat (Some lm) :: rest', n3)
  end.

(** [fetchServerQuotes()]: the HTTP server first; when that fails in any
    way ([httpGet] is [None]), the simulated server, seeded from [quotes]
    if it is empty.  The promise rejects only when the simulated server
    throws. *)
Definition fetchServerQuotes (env : Env) (w : World)
  : Outcome (list ServerQuote) * World :=
  let n := List.length (requests w) in
  let w1 := issue GET w in
  match httpGet env n with
  | Some data =>
      let (mapped, n') := mapPosts env data (ticks w1) in
      (Resolved mapped, withTicks n' w1)
  | None =>
      let w2 := initFromLocal (quotes w1) w1 in
      if simFault env n then (Rejected, w2) else (Resolved (store w2), w2)
  end.

(** [postQuoteToServer(quote)]: [true] is [{ ok: true, ... }]. *)
Definition postQuoteToServer (env : Env) (quote : Quote) (w : World)
  : bool * World :=
  let n := List.length (requests w) in
  let w1 := issue (POST quote) w in
  if httpPost env n then (true, w1)
  else if simFault env n then (false, w1)
  else (true, withStore (storePost (store w1) quote) w1).

(** ** Sync and conflict logic *)

(** What the first loop of [syncWithServer] works on. *)
Record Merge : Type := mkMerge {
  localMap : JsMap.t Quote;
  newLocal : list Quote;
  conflicts : list Conflict;
  read : nat                       (* clock readings taken so far *)
}.

(** [x || nowISO()] and [x ? new Date(x).getTime() : Date.now()] *)
Definition orNow (env : Env) (x : option Z) (n : nat) : Z * nat :=
  match x with
  | Some t => (t, n)
  | None => nowISO env n
  end.

(** [localLM !== serverLM && localItem.text !== serverItem.text] *)
Definition diverge (localLM serverLM : Z) (localItem : Quote)
    (serverItem : ServerQuote) : bool :=
  negb (localLM =? serverLM)%Z
  && negb (String.eqb (text localItem) (stext serverItem)).

(** The body of [for (const [sid, serverItem] of serverMap)]. *)
Definition mergeStep (env : Env) (m : Merge) (e : string * ServerQuote)
  : Merge :=
  let (sid_, serverItem) := e in
  match JsMap.get (localMap m) sid_ with
  | None =>
      let (lm, n1) := orNow env (slastModified serverItem) (read m) in
      mkMerge (localMap m)
              (newLocal m ++
                 [mkQuote (sid serverItem) (stext serverItem)
                          (scategory serverItem) lm false])
              (conflicts m) n1
  | Some localItem =>
      let localLM := lastModified localItem in
      let (serverLM, n1) := orNow env (slastModified serverItem) (read m) in
      if diverge localLM serverLM localItem serverItem then
        let (lmC, n2) := orNow env (slastModified serverItem) n1 in
        let conflicts' :=
          conflicts m ++
            [mkConflict sid_ localItem
               (mkServerCopy sid_ (stext serverItem) (scategory serverItem)
                             lmC)] in
        if SERVER_WINS_BY_DEFAULT then
          let (lmS, n3) := orNow env (slastModified serverItem) n2 in
          mkMerge (JsMap.set (localMap m) sid_
                     (mkQuote sid_ (stext serverItem) (scategory serverItem)
                              lmS false))
                  (newLocal m) conflicts' n3
        else mkMerge (localMap m) (newLocal m) conflicts' n2
      else mkMerge (localMap m) (newLocal m) (conflicts m) n1
  end.

Definition mergeLoop (env : Env) (serverMap : JsMap.t ServerQuote)
    (m : Merge) : Merge :=
  fold_left (mergeStep env) serverMap m.

(** [for (const item of newLocal) localMap.set(String(item.id), item)] *)
Definition addServerOnly (items : list Quote) (lm : JsMap.t Quote)
  : JsMap.t Quote :=
  fold_left (fun acc item => JsMap.set acc (id item) item) items lm.

(** [xs.filter(p)], as the positions of the objects it keeps. *)
Definition positions (A : Type) (p : A -> bool) (xs : list A) : list nat :=
  filter (fun i => match nth_error xs i with Some x => p x | None => false end)
         (seq 0 (length xs)).

(** [xs[i] = x] for an [i] within the array. *)
Fixpoint assign (A : Type) (xs : list A) (i : nat) (x : A) : list A :=
  match xs, i with
  | [], _ => []
  | _ :: xs', O => x :: xs'
  | y :: xs', S i' => y :: assign xs' i' x
  end.

(** [l.pendingSync === true || !serverMap.has(String(l.id))] *)
Definition toPost (serverMap : JsMap.t ServerQuote) (l : Quote) : bool :=
  pendingSync l || negb (JsMap.has serverMap (id l)).

(** [!existsOnServer && l.pendingSync !== false], the filter of the unused
    [localOnly]. *)
Definition isLocalOnly (serverMap : JsMap.t ServerQuote) (l : Quote) : bool :=
  negb (JsMap.has serverMap (id l)) && negb (negb (pendingSync l)).

(** [for (const lq of pendingToPost) { ... }], over the positions in
    [merged] of the objects of [pendingToPost]. *)
Fixpoint pushLoop (env : Env) (pendingToPost : list nat)
    (merged : list Quote) (w : World) : list Quote * World :=
  match pendingToPost with
  | [] => (merged, w)
  | i :: rest =>
      match nth_error merged i with
      | None => pushLoop env rest merged w
      | Some lq =>
          let (ok, w1) := postQuoteToServer env lq w in
          let lq' := setPendingSync (if ok then false else true) lq in
          pushLoop env rest (assign merged i lq') w1
      end
  end.

(** [new Map(quotes.map(q => [String(q.id), q]))] *)
Definition localMapOf (qs : list Quote) : JsMap.t Quote :=
  JsMap.ofEntries (map (fun q => (id q, q)) qs).

(** [new Map(serverQuotes.map(s => [String(s.id), s]))] *)
Definition serverMapOf (serverQuotes : list ServerQuote)
  : JsMap.t ServerQuote :=
  JsMap.ofEntries (map (fun s => (sid s, s)) serverQuotes).

(** The first loop of a pass, from the two maps. *)
Definition mergePhase (env : Env) (serverQuotes : list ServerQuote)
    (w : World) : Merge :=
  mergeLoop env (serverMapOf serverQuotes)
            (mkMerge (localMapOf (quotes w)) [] [] (ticks w)).

(** [Array.from(localMap.values())] once the server-only items are in. *)
Definition mergedOf (m : Merge) : list Quote :=
  JsMap.values (addServerOnly (newLocal m) (localMap m)).

(** The body of the [try] of [syncWithServer] once the fetch has resolved. *)
Definition syncBody (env : Env) (serverQuotes : list ServerQuote)
    (w : World) : World :=
  let serverMap := serverMapOf serverQuotes in
  let m := mergePhase env serverQuotes w in
  let merged := mergedOf m in
  let pendingToPost := positions (toPost serverMap) merged in
  let (merged', w1) := pushLoop env pendingToPost merged (withTicks (read m) w) in
  let w2 := saveQuotesToLocalStorage (withQuotes merged' w1) in
  let w3 :=
    match conflicts m with
    | _ :: _ =>
        notifyUser (ConflictsDetected (List.length (conflicts m))) true
                   (withPendingConflicts (conflicts m) w2)
    | [] =>
        match newLocal m with
        | _ :: _ => notifyUser (NewQuotesSynced (List.length (newLocal m))) false w2
        | [] => w2
        end
    end in
  refreshView w3.

(** [syncWithServer()] *)
Definition syncWithServer (env : Env) (w : World) : World :=
  match fetchServerQuotes env w with
  | (Resolved serverQuotes, w1) => syncBody env serverQuotes w1
  | (Rejected, w1) => notifyUser SyncFailed false w1
  end.

(** ** Conflict panel: manual resolution *)

(** [quotes.find(p)] and [quotes.findIndex(p)]: the first object that
    satisfies [p], with its position. *)
Fixpoint findFrom (A : Type) (p : A -> bool) (xs : list A) (i : nat)
  : option (nat * A) :=
  match xs with
  | [] => None
  | x :: xs' => if p x then Some (i, x) else findFrom p xs' (S i)
  end.

Definition find (A : Type) (p : A -> bool) (xs : list A) : option (nat * A) :=
  findFrom p xs 0.

(** [pendingConflicts.filter(pc => pc.id !== conf.id)] *)
Definition dropConflict (conf : Conflict) (cs : list Conflict)
  : list Conflict :=
  filter (fun pc => negb (String.eqb (cid pc) (cid conf))) cs.

(** [keepServerBtn.onclick] of the block of [conf]. *)
Definition keepServer (conf : Conflict) (w : World) : World :=
  let w1 :=
    match find (fun q => String.eqb (id q) (cid conf)) (quotes w) with
    | Some (idx, q) =>
        let q' := mkQuote (id q) (rtext (cserver conf))
                          (rcategory (cserver conf))
                          (rlastModified (cserver conf)) false in
        saveQuotesToLocalStorage (withQuotes (assign (quotes w) idx q') w)
    | None => w
    end in
  let w2 := withPendingConflicts (dropConflict conf (pendingConflicts w1)) w1 in
  notifyUser ServerAcceptedOne false w2.

(** [keepLocalBtn.onclick] of the block of [conf]. *)
Definition keepLocal (env : Env) (conf : Conflict) (w : World) : World :=
  match find (fun q => String.eqb (id q) (cid conf)) (quotes w) with
  | Some (idx, localQ) =>
      let (now, n1) := nowISO env (ticks w) in
      let localQ1 := setLastModified now localQ in
      let w1 := withTicks n1 (withQuotes (assign (quotes w) idx localQ1) w) in
      let (ok, w2) := postQuoteToServer env localQ1 w1 in
      if ok then
        let w3 :=
          saveQuotesToLocalStorage
            (withQuotes (assign (quotes w2) idx (setPendingSync false localQ1))
                        w2) in
        notifyUser LocalPushedOne false
          (withPendingConflicts (dropConflict conf (pendingConflicts w3)) w3)
      else notifyUser LocalPushFailed false w2
  | None => w
  end.

(** [resolveAllServerBtn.onclick] *)
Definition resolveAllServer (w : World) : World :=
  notifyUser ServerAcceptedAll false (withPendingConflicts [] w).

(** The loop of [resolveAllLocalBtn.onclick]. *)
Fixpoint pushAllLocal (env : Env) (cs : list Conflict) (w : World) : World :=
  match cs with
  | [] => w
  | c :: rest =>
      match find (fun q => String.eqb (id q) (cid c)) (quotes w) with
      | Some (idx, localQ) =>
          let (now, n1) := nowISO env (ticks w) in
          let localQ1 := setLastModified now localQ in
          let w1 :=
            withTicks n1 (withQuotes (assign (quotes w) idx localQ1) w) in
          pushAllLocal env rest (snd (postQuoteToServer env localQ1 w1))
      | None => pushAllLocal env rest w
      end
  end.

(** [resolveAllLocalBtn.onclick] *)
Definition resolveAllLocal (env : Env) (w : World) : World :=
  let w1 := pushAllLocal env (pendingConflicts w) w in
  notifyUser LocalPushedAll false
    (saveQuotesToLocalStorage (withPendingConflicts [] w1)).

(** ** JSON import *)

#[warnings="-register-all"]
Inductive Json : Type :=
| JNull
| JBool (b : bool)
| JNumber (n : Z)
| JString (s : string)
| JArray (items : list Json)
| JObject (members : list (string * Json)).

(** An element of an imported array, as the normalisation reads it: a
    field is [None] when it is missing or falsy. *)
Record ImportItem : Type := mkImportItem {
  iid : option string;
  itext : option string;
  icategory : option string;
  ilastModified : option Z
}.

(** What [JSON.parse(event.target.result)] returns: an array of quote
    objects ([None] is a [null] element) or one of the other JSON values. *)
Inductive Parsed : Type :=
| QuoteArray (items : list (option ImportItem))
| VNull
| VBool (b : bool)
| VNumber (n : Z)
| VString (s : string)
| VObject (members : list (string * Json)).

(** [Array.isArray(importedQuotes)] *)
Definition isArray (v : Parsed) : bool :=
  match v with QuoteArray _ => true | _ => false end.

(** [importedQuotes.map(q => ({ id: q.id || uid(), ... }))], with the
    clock readings taken; the list is [None] when reading a field of [null]
    throws, and the readings taken for the elements before it are counted
    all the same. *)
Fixpoint normalize (env : Env) (items : list (option ImportItem)) (n : nat)
  : option (list Quote) * nat :=
  match items with
  | [] => (Some [], n)
  | None :: _ => (None, n)
  | Some q :: rest =>
      let (i, n1) :=
        match iid q with Some s => (s, n) | None => uid env n end in
      let txt := match itext q with Some s => s | None => "" end in
      let cat :=
        match icategory q with Some s => s | None => "Uncategorized" end in
      let (lm, n2) := orNow env (ilastModified q) n1 in
      match normalize env rest n2 with
      | (Some rest', n3) => (Some (mkQuote i txt cat lm false :: rest'), n3)
      | (None, n3) => (None, n3)
      end
  end.

(** [reader.onload] of the import control of [createJSONControls];
    [result] is [None] when [JSON.parse] throws. *)
Definition importOnLoad (env : Env) (result : option Parsed) (w : World)
  : World :=
  match result with
  | None => withDisplay ImportReadError w
  | Some (QuoteArray items) =>          (* Array.isArray(importedQuotes) *)
      match normalize env items (ticks w) with
      | (Some normalized, n) =>
          withDisplay (ImportSucceeded (List.length normalized))
            (saveQuotesToLocalStorage
               (withQuotes normalized (withTicks n w)))
      | (None, n) => withDisplay ImportReadError (withTicks n w)
      end
  | Some _ => withDisplay ImportInvalidFormat w
  end.

(** ** Sample pages and environments *)

(** A page that holds [qs] and nothing else. *)
Definition page (qs : list Quote) : World :=
  mkWorld qs [] [] [] [] QuoteView [] 0.

(** The HTTP server answers every GET with [data] and accepts every POST;
    the clock shows [t] at every reading. *)
Definition online (data : list Post) (t : Z) : Env :=
  mkEnv (fun _ => t) (fun _ => "k0") (fun _ => Some data) (fun _ => true)
        (fun _ => false).

(** No HTTP request succeeds; the simulated server throws at the requests
    [faults] says. *)
Definition offline (faults : nat -> bool) : Env :=
  mkEnv (fun n => 1000 + Z.of_nat n)%Z (fun _ => "k0") (fun _ => None)
        (fun _ => false) faults.

(** A pending local quote, and answers of the HTTP server that list its id
    with another text ([postB]) and with the same text ([postA]). *)
Definition quoteA : Quote := mkQuote "1" "A" "M" 100 true.
Definition postA : Post := mkPost (Some "1") None (Some "A") (Some "7").
Definition postB : Post := mkPost (Some "1") None (Some "B") (Some "7").
Definition post2 : Post := mkPost (Some "2") (Some "T") None None.

Definition serverA : ServerQuote := mkServerQuote "1" "A" "User-7" (Some 200%Z).
Definition serverB : ServerQuote := mkServerQuote "1" "B" "User-7" (Some 200%Z).
Definition server2 : ServerQuote := mkServerQuote "2" "T" "Import" (Some 200%Z).

(** The conflict a pass records between [quoteA] and [serverB]. *)
Definition conflictAB : Conflict :=
  mkConflict "1" quoteA (mkServerCopy "1" "B" "User-7" 200%Z).

(** Two pending quotes the server has never seen. *)
Definition draft1 : Quote := mkQuote "d1" "first" "M" 10 true.
Definition draft2 : Quote := mkQuote "d2" "second" "M" 20 true.

(** Nothing reaches the HTTP server but request 2, a POST; the simulated
    server throws at request 1. *)
Definition flaky : Env :=
  mkEnv (fun n => 1000 + Z.of_nat n)%Z (fun _ => "k0") (fun _ => None)
        (fun n => Nat.eqb n 2) (fun n => Nat.eqb n 1).

(** A pending local quote whose id the HTTP server comes to list with
    another text: the first GET and every POST fail, the simulated server
    throws at request 1, and request 2, the second GET, is answered. *)
Definition mine : Quote := mkQuote "1" "mine" "M" 100 true.
Definition theirs : Post := mkPost (Some "1") None (Some "theirs") None.
Definition recovering : Env :=
  mkEnv (fun n => 1000 + Z.of_nat n)%Z (fun _ => "k0")
        (fun n => if Nat.eqb n 2 then Some [theirs] else None)
        (fun _ => false) (fun n => Nat.eqb n 1).

(** ** Notions used to state the properties *)

(** Every value of a map built from [quotes] sits under its own id. *)
Definition keyed (m : JsMap.t Quote) : Prop :=
  Forall (fun e => id (snd e) = fst e) m.

Definition skeyed (m : JsMap.t ServerQuote) : Prop :=
  Forall (fun e => sid (snd e) = fst e) m.

(** What [postQuoteToServer] answers when its request is request [n]. *)
Definition postOk (env : Env) (n : nat) : bool :=
  httpPost env n || negb (simFault env n).

(** A quote without its [pendingSync] flag. *)
Definition core (q : Quote) : string * string * string * Z :=
  (id q, text q, category q, lastModified q).

(** The objects found at the given positions of an array. *)
Definition objectsAt (A : Type) (xs : list A) (ps : list nat) : list A :=
  flat_map (fun i => match nth_error xs i with Some x => [x] | None => [] end)
           ps.

(** The server's list holds nothing that diverges from the local record
    [l]: no record under its id, or one with the same text or the same
    time. *)
Definition undisputed (env : Env) (serverQuotes : list ServerQuote)
    (l : Quote) : Prop :=
  forall s, JsMap.get (serverMapOf serverQuotes) (id l) = Some s ->
  forall n,
    diverge (lastModified l) (fst (orNow env (slastModified s) n)) l s = false.

(** ** The rest of the page: display helpers *)

(** The replacement of one character by [escapeHtml]. *)
Definition escapeChar (c : ascii) : string :=
  if Ascii.eqb c "&" then "&amp;"
  else if Ascii.eqb c "<" then "&lt;"
  else if Ascii.eqb c ">" then "&gt;"
  else if Ascii.eqb c "034" then "&quot;"
  else if Ascii.eqb c "'" then "&#39;"
  else String c EmptyString.

(** [escapeHtml(s)]: every ampersand, angle bracket, double quote (the
    character 034) and apostrophe of [String(s)] is replaced by its
    entity. *)
Fixpoint escapeHtml (s : string) : string :=
  match s with
  | EmptyString => EmptyString
  | String c s' => String.append (escapeChar c) (escapeHtml s')
  end.

(** [[...new Set(xs)]]: the values of [xs] without repetition, each at the
    place of its first occurrence. *)
Definition newSet (xs : list string) : list string :=
  fold_left (fun seen x => if existsb (String.eqb x) seen then seen
                           else seen ++ [x]) xs [].

(** [getUniqueCategories()] *)
Definition getUniqueCategories (qs : list Quote) : list string :=
  newSet (map category qs).

(** The options [populateCategories] puts in the dropdown. *)
Definition categoryOptions (qs : list Quote) : list string :=
  "All" :: getUniqueCategories qs.

(** What [filterQuotes] leaves on the page. *)
Inductive Shown : Type :=
| NoQuotesFound (category : string)   (* "No quotes found for category: ..." *)
| ShownQuote (q : Quote).             (* the quote and its category *)

(** [filterQuotes(category)] on the list [qs]; an absent category is the
    empty string.  [draw n] is the value [Math.floor(Math.random() * n)]
    takes.  The result is what is shown and, when a quote is shown, the
    quote written to [sessionStorage] as [lastQuote]; [None] is the
    [TypeError] of reading [text] of [undefined]. *)
Definition filterQuotes (draw : nat -> nat) (qs : list Quote)
    (category_ : string) : option (Shown * option Quote) :=
  let filteredQuotes :=
    if String.eqb category_ "All" || String.eqb category_ "" then qs
    else filter (fun q => String.eqb (category q) category_) qs in
  match filteredQuotes with
  | [] => Some (NoQuotesFound category_, None)
  | _ :: _ =>
      match nth_error filteredQuotes (draw (List.length filteredQuotes)) with
      | Some randomQuote => Some (ShownQuote randomQuote, Some randomQuote)
      | None => None
      end
  end.

(** Whether [filterQuotes] takes the quote [q] for the category [c]. *)
Definition selects (c : string) (q : Quote) : bool :=
  String.eqb c "All" || String.eqb c "" || String.eqb (category q) c.

(** The characters [escapeHtml] replaces. *)
Definition isMarkup (c : ascii) : bool :=
  Ascii.eqb c "&" || Ascii.eqb c "<" || Ascii.eqb c ">" || Ascii.eqb c "034"
  || Ascii.eqb c "'".

(** ** The rest of the page: export, storage and the form *)

(** How [x || d] reads a string: the empty string is falsy. *)
Definition truthy (s : string) : option string :=
  if String.eqb s "" then None else Some s.

(** What the import reads in an object that the export wrote.  The export
    writes [JSON.stringify(quotes, null, 2)]; [lastModified] is an ISO
    string, which is never falsy. *)
Definition exported (q : Quote) : ImportItem :=
  mkImportItem (truthy (id q)) (truthy (text q)) (truthy (category q))
               (Some (lastModified q)).

(** What [JSON.parse] gives on the file written by the export button for
    the list [qs]. *)
Definition exportQuotes (qs : list Quote) : Parsed :=
  QuoteArray (map (fun q => Some (exported q)) qs).

(** An element of the array kept in [localStorage], as
    [loadQuotesFromLocalStorage] reads it: a field is [None] when it is
    missing or falsy, [kpendingSync] is [false] when it is. *)
Record StoredItem : Type := mkStoredItem {
  kid : option string;
  ktext : option string;
  kcategory : option string;
  klastModified : option Z;
  kpendingSync : bool
}.

(** What [localStorage.getItem("quotes")] holds. *)
Inductive Stored : Type :=
| NothingStored       (* null, or the empty string *)
| Unreadable          (* JSON.parse throws, or gives a value without map *)
| StoredArray (items : list (option StoredItem)).
                      (* an array; [None] is a [null] element *)

(** What [loadQuotesFromLocalStorage] finds after
    [saveQuotesToLocalStorage] wrote the list [qs]. *)
Definition storedOf (qs : list Quote) : Stored :=
  StoredArray
    (map (fun q => Some (mkStoredItem (truthy (id q)) (truthy (text q))
                           (truthy (category q)) (Some (lastModified q))
                           (pendingSync q))) qs).

(** [quotes.map(q => ({ id: q.id || uid(), ... }))] in
    [loadQuotesFromLocalStorage], with the clock readings taken; the list
    is [None] when reading a field of [null] throws. *)
Fixpoint restore (env : Env) (items : list (option StoredItem)) (n : nat)
  : option (list Quote) * nat :=
  match items with
  | [] => (Some [], n)
  | None :: _ => (None, n)
  | Some q :: rest =>
      let (i, n1) :=
        match kid q with Some s => (s, n) | None => uid env n end in
      let txt := match ktext q with Some s => s | None => "" end in
      let cat :=
        match kcategory q with Some s => s | None => "Uncategorized" end in
      let (lm, n2) := orNow env (klastModified q) n1 in
      match restore env rest n2 with
      | (Some rest', n3) =>
          (Some (mkQuote i txt cat lm (kpendingSync q) :: rest'), n3)
      | (None, n3) => (None, n3)
      end
  end.

(** The three quotes a page without stored quotes starts with. *)
Definition defaultQuotes (env : Env) (n : nat) : list Quote * nat :=
  let (i1, n1) := uid env n in
  let (t1, n2) := nowISO env n1 in
  let (i2, n3) := uid env n2 in
  let (t2, n4) := nowISO env n3 in
  let (i3, n5) := uid env n4 in
  let (t3, n6) := nowISO env n5 in
  ([mkQuote i1
      "The best way to get started is to quit talking and begin doing."
      "Motivation" t1 false;
    mkQuote i2 "In the middle of every difficulty lies opportunity."
      "Inspiration" t2 false;
    mkQuote i3 "Strive not to be a success, but rather to be of value."
      "Wisdom" t3 false], n6).

(** [loadQuotesFromLocalStorage()], given what the storage holds. *)
Definition loadQuotesFromLocalStorage (env : Env) (stored : Stored)
    (w : World) : World :=
  let fallback n :=
    let (qs, n') := defaultQuotes env n in
    saveQuotesToLocalStorage (withQuotes qs (withTicks n' w)) in
  match stored with
  | StoredArray items =>
      match restore env items (ticks w) with
      | (Some qs, n) => withQuotes qs (withTicks n w)
      | (None, n) => fallback n
      end
  | _ => fallback (ticks w)
  end.

(** How the submit handler of [createAddQuoteForm] ends.  Its two
    notifications and the message it shows have no constructor in [Notice]
    and [Display]: the outcome stands for them, and the fields [notices]
    and [display] are left as they are. *)
Inductive AddOutcome : Type :=
| NotAdded          (* a field was empty *)
| AddedSynced       (* "New quote synced to server." *)
| AddedLocalOnly.   (* "New quote saved locally but failed to sync." *)

(** The submit handler of [createAddQuoteForm]; [text_] and [category_]
    are the trimmed values of the two fields. *)
Definition addQuote (env : Env) (text_ category_ : string) (w : World)
  : World * AddOutcome :=
  if negb (String.eqb text_ "") && negb (String.eqb category_ "") then
    let (i, n1) := uid env (ticks w) in
    let (now, n2) := nowISO env n1 in
    let newQ := mkQuote i text_ category_ now true in
    let w1 :=
      saveQuotesToLocalStorage
        (withQuotes (quotes w ++ [newQ]) (withTicks n2 w)) in
    let (ok, w2) := postQuoteToServer env newQ w1 in
    if ok then
      (saveQuotesToLocalStorage
         (withQuotes (assign (quotes w2) (List.length (quotes w))
                             (setPendingSync false newQ)) w2),
       AddedSynced)
    else (w2, AddedLocalOnly)
  else (w, NotAdded).

(** The quote the import makes of an element of the array. *)
Definition normalizedFrom (item : option ImportItem) (q : Quote) : Prop :=
  match item with
  | None => False
  | Some it =>
      (forall s, iid it = Some s -> id q = s)
      /\ text q = match itext it with Some s => s | None => "" end
      /\ category q
         = match icategory it with Some s => s | None => "Uncategorized" end
      /\ (forall t, ilastModified it = Some t -> lastModified q = t)
      /\ pendingSync q = false
  end.

(** The clock readings the import takes on an array: one for each missing
    [id] and one for each missing [lastModified], up to the first [null]
    element. *)
Fixpoint readingsFor (items : list (option ImportItem)) : nat :=
  match items with
  | [] => 0
  | None :: _ => 0
  | Some it :: rest =>
      (match iid it with Some _ => 0 | None => 1 end)
      + (match ilastModified it with Some _ => 0 | None => 1 end)
      + readingsFor rest
  end.

(** The page never reaches the HTTP server, and the simulated server
    never throws. *)
Definition simulatedOnly (env : Env) : Prop :=
  forall n, httpGet env n = None /\ httpPost env n = false
            /\ simFault env n = false.

(** A quote that is not pending, and an element of an imported array that
    gives its id another text and a later time. *)
Definition settled : Quote := mkQuote "1" "A" "M" 100 false.
Definition edited : ImportItem :=
  mkImportItem (Some "1") (Some "edited") (Some "M") (Some 300%Z).

(** A draw that always takes the last quote, and the world outside when
    no HTTP request succeeds and the simulated server never throws. *)
Definition lastOne (n : nat) : nat := n - 1.
Definition unreachable : Env := offline (fun _ => false).

(** * Properties *)

Unset Implicit Arguments.

(** ** Facts about [JsMap] *)

Section JsMapFacts.
Variable V : Type.
Implicit Types (m : JsMap.t V) (k : string) (v : V).

Lemma get_set_same m k v : JsMap.get (JsMap.set m k v) k = Some v.
Proof.
  induction m as [|[k' v'] m IH]; simpl.
  - now rewrite String.eqb_refl.
  - destruct (String.eqb k' k) eqn:E; simpl; rewrite E; auto.
Qed.

Lemma get_set_other m k k' v :
  k <> k' -> JsMap.get (JsMap.set m k v) k' = JsMap.get m k'.
Proof.
  intros Hne. induction m as [|[k0 v0] m IH]; simpl.
  - destruct (String.eqb_spec k k'); congruence.
  - destruct (String.eqb_spec k0 k) as [->|Hk]; simpl.
    + destruct (String.eqb_spec k k'); congruence.
    + now rewrite IH.
Qed.

Lemma get_none_keys m k : JsMap.get m k = None <-> ~ In k (JsMap.keys m).
Proof.
  induction m as [|[k' v'] m IH]; simpl.
  - tauto.
  - destruct (String.eqb_spec k' k) as [->|Hk].
    + split; [discriminate | tauto].
    + rewrite IH. tauto.
Qed.

Lemma get_some_in m k v : JsMap.get m k = Some v -> In (k, v) m.
Proof.
  induction m as [|[k' v'] m IH]; simpl; [discriminate|].
  destruct (String.eqb_spec k' k) as [->|Hk].
  - intros [= ->]. now left.
  - auto.
Qed.

Lemma in_get_nodup m k v :
  NoDup (JsMap.keys m) -> In (k, v) m -> JsMap.get m k = Some v.
Proof.
  induction m as [|[k' v'] m IH]; simpl; [tauto|].
  intros Hnd [[= -> ->]|Hin].
  - now rewrite String.eqb_refl.
  - inversion Hnd as [|? ? Hk' Hnd']; subst.
    destruct (String.eqb_spec k' k) as [->|Hk].
    + exfalso. apply Hk'. change k with (fst (k, v)). now apply in_map.
    + auto.
Qed.

Lemma has_true_keys m k : JsMap.has m k = true <-> In k (JsMap.keys m).
Proof.
  unfold JsMap.has. pose proof (get_none_keys m k) as H.
  destruct (JsMap.get m k).
  - split; [intros _|reflexivity].
    destruct (in_dec string_dec k (JsMap.keys m)) as [Hin|Hn]; auto.
    apply H in Hn. discriminate.
  - split; [discriminate|]. intros Hin. now apply H in Hin.
Qed.

(** A write to a known key leaves the keys alone ... *)
Lemma keys_set_known m k v :
  In k (JsMap.keys m) -> JsMap.keys (JsMap.set m k v) = JsMap.keys m.
Proof.
  induction m as [|[k' v'] m IH]; simpl; [tauto|].
  destruct (String.eqb_spec k' k) as [->|Hk]; simpl; [reflexivity|].
  intros [?|Hin]; [congruence|]. now rewrite IH.
Qed.

(** ... and a write to a new one appends the entry. *)
Lemma set_new m k v :
  ~ In k (JsMap.keys m) -> JsMap.set m k v = m ++ [(k, v)].
Proof.
  induction m as [|[k' v'] m IH]; simpl; [reflexivity|].
  intros Hn. destruct (String.eqb_spec k' k) as [->|Hk]; [tauto|].
  rewrite IH; tauto.
Qed.

Lemma keys_set_incl m k v k' :
  In k' (JsMap.keys (JsMap.set m k v)) <-> In k' (JsMap.keys m) \/ k' = k.
Proof.
  destruct (in_dec string_dec k (JsMap.keys m)) as [Hin|Hn].
  - rewrite keys_set_known by assumption. split; [tauto|].
    intros [?| ->]; assumption.
  - rewrite set_new by assumption. unfold JsMap.keys.
    rewrite map_app, in_app_iff. simpl. intuition congruence.
Qed.

Lemma nodup_keys_set m k v :
  NoDup (JsMap.keys m) -> NoDup (JsMap.keys (JsMap.set m k v)).
Proof.
  intros Hnd. destruct (in_dec string_dec k (JsMap.keys m)) as [Hin|Hn].
  - now rewrite keys_set_known.
  - rewrite set_new by assumption. unfold JsMap.keys in *.
    rewrite map_app. simpl. apply NoDup_app; auto.
    + repeat constructor. simpl. tauto.
    + intros x Hx [<-|[]]. tauto.
Qed.

Lemma in_set m k v e :
  In e (JsMap.set m k v) -> e = (k, v) \/ In e m.
Proof.
  induction m as [|[k' v'] m IH]; simpl.
  - intros [<-|[]]. now left.
  - destruct (String.eqb_spec k' k) as [->|Hk]; simpl.
    + intros [<-|Hin]; auto.
    + intros [<-|Hin]; auto. apply IH in Hin. tauto.
Qed.

Lemma ofEntries_fold (es : list (string * V)) m :
  NoDup (JsMap.keys m) ->
  NoDup (JsMap.keys (fold_left (fun a e => JsMap.set a (fst e) (snd e)) es m)).
Proof.
  revert m. induction es as [|e es IH]; simpl; intros m Hm; auto.
  apply IH. now apply nodup_keys_set.
Qed.

Lemma nodup_keys_ofEntries (es : list (string * V)) :
  NoDup (JsMap.keys (JsMap.ofEntries es)).
Proof. apply ofEntries_fold. constructor. Qed.

Lemma in_ofEntries_fold (es : list (string * V)) m e :
  In e (fold_left (fun a e => JsMap.set a (fst e) (snd e)) es m) ->
  In e es \/ In e m.
Proof.
  revert m. induction es as [|[k v] es IH]; simpl; intros m Hin; auto.
  apply IH in Hin. destruct Hin as [Hin|Hin]; auto.
  apply in_set in Hin. simpl in Hin. destruct Hin as [->|Hin]; auto.
Qed.

Lemma in_ofEntries (es : list (string * V)) e :
  In e (JsMap.ofEntries es) -> In e es.
Proof.
  intros Hin. apply in_ofEntries_fold in Hin. destruct Hin as [?|[]]; auto.
Qed.

Lemma keys_ofEntries_fold (es : list (string * V)) m k :
  In k (JsMap.keys (fold_left (fun a e => JsMap.set a (fst e) (snd e)) es m))
  <-> In k (map fst es) \/ In k (JsMap.keys m).
Proof.
  revert m. induction es as [|[k' v'] es IH]; simpl; intros m.
  - tauto.
  - rewrite IH, keys_set_incl. simpl. intuition congruence.
Qed.

Lemma keys_ofEntries (es : list (string * V)) k :
  In k (JsMap.keys (JsMap.ofEntries es)) <-> In k (map fst es).
Proof.
  unfold JsMap.ofEntries. rewrite keys_ofEntries_fold. simpl. tauto.
Qed.

(** Entries with distinct keys make the map they list. *)
Lemma ofEntries_fold_nodup (es : list (string * V)) m :
  NoDup (JsMap.keys m ++ map fst es) ->
  fold_left (fun a e => JsMap.set a (fst e) (snd e)) es m = m ++ es.
Proof.
  revert m. induction es as [|[k v] es IH]; simpl; intros m Hnd.
  - now rewrite app_nil_r.
  - rewrite set_new.
    + rewrite IH.
      * now rewrite <- app_assoc.
      * unfold JsMap.keys in *. rewrite map_app. simpl.
        now rewrite <- app_assoc.
    + apply NoDup_remove_2 in Hnd. intros Hin. apply Hnd.
      apply in_or_app. now left.
Qed.

Lemma ofEntries_nodup (es : list (string * V)) :
  NoDup (map fst es) -> JsMap.ofEntries es = es.
Proof.
  intros Hnd. unfold JsMap.ofEntries.
  now rewrite ofEntries_fold_nodup.
Qed.

End JsMapFacts.

(** ** The merge loop *)

Lemma get_some_key (V : Type) (m : JsMap.t V) k v :
  JsMap.get m k = Some v -> In k (JsMap.keys m).
Proof.
  intros H. destruct (in_dec string_dec k (JsMap.keys m)) as [|Hn]; auto.
  apply get_none_keys in Hn. congruence.
Qed.

Lemma keyed_set m k v : keyed m -> id v = k -> keyed (JsMap.set m k v).
Proof.
  unfold keyed. rewrite !Forall_forall. intros Hm Hv e Hin.
  apply in_set in Hin. destruct Hin as [->|Hin]; auto.
Qed.

Lemma keyed_localMapOf qs : keyed (localMapOf qs).
Proof.
  unfold keyed, localMapOf. rewrite Forall_forall. intros e Hin.
  apply in_ofEntries in Hin. apply in_map_iff in Hin.
  destruct Hin as [q [<- _]]. reflexivity.
Qed.

Lemma skeyed_serverMapOf sq : skeyed (serverMapOf sq).
Proof.
  unfold skeyed, serverMapOf. rewrite Forall_forall. intros e Hin.
  apply in_ofEntries in Hin. apply in_map_iff in Hin.
  destruct Hin as [q [<- _]]. reflexivity.
Qed.

Lemma nodup_localMapOf qs : NoDup (JsMap.keys (localMapOf qs)).
Proof. apply nodup_keys_ofEntries. Qed.

Lemma nodup_serverMapOf sq : NoDup (JsMap.keys (serverMapOf sq)).
Proof. apply nodup_keys_ofEntries. Qed.

(** A list of quotes without a repeated id is its own map. *)
Lemma localMapOf_nodup qs :
  NoDup (map id qs) -> localMapOf qs = map (fun q => (id q, q)) qs.
Proof.
  intros Hnd. unfold localMapOf. apply ofEntries_nodup.
  now rewrite map_map.
Qed.

Section MergeLoop.
Variable env : Env.

Ltac step_cases m e :=
  unfold mergeStep; destruct e as [k0 s0];
  destruct (JsMap.get (localMap m) k0) as [l0|] eqn:Hget;
  [ destruct (orNow env (slastModified s0) (read m)) as [lm1 n1] eqn:Hn1;
    destruct (diverge (lastModified l0) lm1 l0 s0) eqn:Hdiv;
    [ destruct (orNow env (slastModified s0) n1) as [lm2 n2] eqn:Hn2;
      unfold SERVER_WINS_BY_DEFAULT;
      destruct (orNow env (slastModified s0) n2) as [lm3 n3] eqn:Hn3
    | ]
  | destruct (orNow env (slastModified s0) (read m)) as [lm1 n1] eqn:Hn1 ];
  simpl.

Lemma mergeStep_keys m e :
  JsMap.keys (localMap (mergeStep env m e)) = JsMap.keys (localMap m).
Proof.
  step_cases m e; auto.
  apply keys_set_known. eapply get_some_key; eauto.
Qed.

Lemma mergeLoop_keys es m :
  JsMap.keys (localMap (fold_left (mergeStep env) es m))
  = JsMap.keys (localMap m).
Proof.
  revert m. induction es as [|e es IH]; simpl; intros m; auto.
  now rewrite IH, mergeStep_keys.
Qed.

Lemma mergeStep_keyed m e :
  keyed (localMap m) -> keyed (localMap (mergeStep env m e)).
Proof.
  intros Hk. step_cases m e; auto. now apply keyed_set.
Qed.

Lemma mergeLoop_keyed es m :
  keyed (localMap m) -> keyed (localMap (fold_left (mergeStep env) es m)).
Proof.
  revert m. induction es as [|e es IH]; simpl; intros m Hk; auto.
  apply IH. now apply mergeStep_keyed.
Qed.

Lemma mergeStep_get_other m e k :
  fst e <> k ->
  JsMap.get (localMap (mergeStep env m e)) k = JsMap.get (localMap m) k.
Proof.
  intros Hne. step_cases m e; auto. simpl in Hne.
  now apply get_set_other.
Qed.

Lemma mergeLoop_get_other es m k :
  ~ In k (map fst es) ->
  JsMap.get (localMap (fold_left (mergeStep env) es m)) k
  = JsMap.get (localMap m) k.
Proof.
  revert m. induction es as [|e es IH]; simpl; intros m Hn; auto.
  rewrite IH by tauto. apply mergeStep_get_other. intros <-. tauto.
Qed.

(** The loop only appends to [conflicts], and an entry it appends is named
    after the server entry that caused it. *)
Lemma mergeStep_conflicts m e :
  exists tl, conflicts (mergeStep env m e) = conflicts m ++ tl
             /\ Forall (fun c => cid c = fst e) tl.
Proof.
  step_cases m e.
  - eexists. split; [reflexivity|]. repeat constructor.
  - exists []. now rewrite app_nil_r.
  - exists []. now rewrite app_nil_r.
Qed.

Lemma mergeLoop_conflicts es m :
  exists tl, conflicts (fold_left (mergeStep env) es m) = conflicts m ++ tl
             /\ Forall (fun c => In (cid c) (map fst es)) tl.
Proof.
  revert m. induction es as [|e es IH]; simpl; intros m.
  - exists []. now rewrite app_nil_r.
  - destruct (IH (mergeStep env m e)) as [tl2 [E2 F2]].
    destruct (mergeStep_conflicts m e) as [tl1 [E1 F1]].
    exists (tl1 ++ tl2). split.
    + now rewrite E2, E1, app_assoc.
    + apply Forall_app. split.
      * eapply Forall_impl; [|exact F1]. simpl. intros c ->. now left.
      * eapply Forall_impl; [|exact F2]. simpl. tauto.
Qed.

(** The same for [newLocal]: an item it appends copies a server entry whose
    key the local map does not know, and is not pending. *)
Lemma mergeStep_newLocal m e :
  exists tl, newLocal (mergeStep env m e) = newLocal m ++ tl
    /\ Forall (fun q => id q = sid (snd e)
                        /\ JsMap.get (localMap m) (fst e) = None
                        /\ pendingSync q = false) tl
    /\ List.length tl
       = if JsMap.has (localMap m) (fst e) then 0 else 1.
Proof.
  unfold JsMap.has. step_cases m e; rewrite Hget.
  - exists []. rewrite app_nil_r. repeat split; constructor.
  - exists []. rewrite app_nil_r. repeat split; constructor.
  - eexists. split; [reflexivity|]. split; [|reflexivity].
    repeat constructor.
Qed.

Lemma mergeLoop_newLocal es m :
  skeyed es ->
  exists tl, newLocal (fold_left (mergeStep env) es m) = newLocal m ++ tl
    /\ Forall (fun q => In (id q) (map fst es)
                        /\ ~ In (id q) (JsMap.keys (localMap m))
                        /\ pendingSync q = false) tl
    /\ List.length tl
       = List.length
           (filter (fun e => negb (JsMap.has (localMap m) (fst e))) es).
Proof.
  revert m. induction es as [|e es IH]; simpl; intros m Hs.
  - exists []. rewrite app_nil_r. repeat split; constructor.
  - inversion Hs as [|? ? He Hs']; subst.
    destruct (IH (mergeStep env m e) Hs') as [tl2 [E2 [F2 L2]]].
    destruct (mergeStep_newLocal m e) as [tl1 [E1 [F1 L1]]].
    exists (tl1 ++ tl2). split; [|split].
    + now rewrite E2, E1, app_assoc.
    + apply Forall_app. split.
      * eapply Forall_impl; [|exact F1]. simpl.
        intros q [Hq [Hg Hp]]. rewrite Hq, He. split; [now left|].
        split; auto. now apply get_none_keys.
      * eapply Forall_impl; [|exact F2]. simpl.
        intros q [Hq [Hg Hp]]. rewrite mergeStep_keys in Hg. tauto.
    + rewrite length_app, L1, L2.
      assert (Hhas : forall k, JsMap.has (localMap (mergeStep env m e)) k
                               = JsMap.has (localMap m) k).
      { intros k.
        destruct (JsMap.has (localMap m) k) eqn:H1.
        - apply has_true_keys. rewrite mergeStep_keys.
          now apply has_true_keys.
        - destruct (JsMap.has (localMap (mergeStep env m e)) k) eqn:H2; auto.
          apply has_true_keys in H2. rewrite mergeStep_keys in H2.
          apply has_true_keys in H2. congruence. }
      rewrite (filter_ext _ _ (fun a => f_equal negb (Hhas (fst a)))).
      destruct (JsMap.has (localMap m) (fst e)); reflexivity.
Qed.

End MergeLoop.

Section MergeEntries.
Variable env : Env.

Lemma split_entry (V : Type) (es : list (string * V)) k v :
  NoDup (map fst es) -> In (k, v) es ->
  exists es1 es2, es = es1 ++ (k, v) :: es2
                  /\ ~ In k (map fst es1) /\ ~ In k (map fst es2).
Proof.
  intros Hnd Hin. apply in_split in Hin. destruct Hin as [es1 [es2 ->]].
  exists es1, es2. split; [reflexivity|].
  rewrite map_app in Hnd. simpl in Hnd. apply NoDup_remove_2 in Hnd.
  rewrite in_app_iff in Hnd. tauto.
Qed.

Lemma mergeStep_absent m k s :
  JsMap.get (localMap m) k = None ->
  mergeStep env m (k, s)
  = mkMerge (localMap m)
      (newLocal m ++
         [mkQuote (sid s) (stext s) (scategory s)
                  (fst (orNow env (slastModified s) (read m))) false])
      (conflicts m) (snd (orNow env (slastModified s) (read m))).
Proof.
  intros Hget. unfold mergeStep. rewrite Hget.
  now destruct (orNow env (slastModified s) (read m)).
Qed.

Lemma mergeStep_conflict m k s l t :
  JsMap.get (localMap m) k = Some l -> slastModified s = Some t ->
  diverge (lastModified l) t l s = true ->
  mergeStep env m (k, s)
  = mkMerge (JsMap.set (localMap m) k
               (mkQuote k (stext s) (scategory s) t false))
            (newLocal m)
            (conflicts m ++
               [mkConflict k l (mkServerCopy k (stext s) (scategory s) t)])
            (read m).
Proof.
  intros Hget Ht Hdiv. unfold mergeStep. rewrite Hget, Ht. simpl.
  now rewrite Hdiv.
Qed.

Lemma mergeStep_kept m k s l :
  JsMap.get (localMap m) k = Some l ->
  (forall n, diverge (lastModified l)
               (fst (orNow env (slastModified s) n)) l s = false) ->
  mergeStep env m (k, s)
  = mkMerge (localMap m) (newLocal m) (conflicts m)
            (snd (orNow env (slastModified s) (read m))).
Proof.
  intros Hget Hdiv. unfold mergeStep. rewrite Hget.
  specialize (Hdiv (read m)).
  destruct (orNow env (slastModified s) (read m)). simpl in *.
  now rewrite Hdiv.
Qed.

(** A server entry unknown to the local map ends up in [newLocal]. *)
Lemma mergeLoop_absent es m k s :
  NoDup (map fst es) -> skeyed es -> In (k, s) es ->
  JsMap.get (localMap m) k = None ->
  exists lm,
    In (mkQuote k (stext s) (scategory s) lm false)
       (newLocal (fold_left (mergeStep env) es m))
    /\ forall t, slastModified s = Some t -> lm = t.
Proof.
  intros Hnd Hs Hin Hget.
  assert (Hk : sid s = k).
  { unfold skeyed in Hs. rewrite Forall_forall in Hs. exact (Hs _ Hin). }
  destruct (split_entry _ es k s Hnd Hin) as [es1 [es2 [-> [H1 H2]]]].
  rewrite fold_left_app. cbn [fold_left].
  set (m1 := fold_left (mergeStep env) es1 m).
  assert (Hget1 : JsMap.get (localMap m1) k = None).
  { unfold m1. now rewrite mergeLoop_get_other. }
  rewrite (mergeStep_absent m1 k s Hget1).
  apply Forall_app in Hs. destruct Hs as [_ Hs].
  inversion Hs as [|? ? _ Hs2]; subst.
  match goal with |- context [fold_left _ es2 ?m2] =>
    destruct (mergeLoop_newLocal env es2 m2 Hs2) as [tl [E _]] end.
  exists (fst (orNow env (slastModified s) (read m1))). split.
  - rewrite E. simpl. rewrite !in_app_iff. left. right. now left.
  - intros t Ht. now rewrite Ht.
Qed.

(** A server entry that diverges from the local record is recorded as a
    conflict and replaces the record. *)
Lemma mergeLoop_conflict es m k s l t :
  NoDup (map fst es) -> In (k, s) es ->
  JsMap.get (localMap m) k = Some l -> slastModified s = Some t ->
  diverge (lastModified l) t l s = true ->
  let m' := fold_left (mergeStep env) es m in
  In (mkConflict k l (mkServerCopy k (stext s) (scategory s) t))
     (conflicts m')
  /\ JsMap.get (localMap m') k
     = Some (mkQuote k (stext s) (scategory s) t false).
Proof.
  intros Hnd Hin Hget Ht Hdiv.
  destruct (split_entry _ es k s Hnd Hin) as [es1 [es2 [-> [H1 H2]]]].
  cbn zeta. rewrite fold_left_app. cbn [fold_left].
  set (m1 := fold_left (mergeStep env) es1 m).
  assert (Hget1 : JsMap.get (localMap m1) k = Some l).
  { unfold m1. now rewrite mergeLoop_get_other. }
  rewrite (mergeStep_conflict m1 k s l t Hget1 Ht Hdiv).
  match goal with |- context [fold_left _ es2 ?m2] =>
    destruct (mergeLoop_conflicts env es2 m2) as [tl [E _]];
    rewrite E, (mergeLoop_get_other env es2 m2 k H2) end.
  simpl. split.
  - rewrite !in_app_iff. left. right. now left.
  - apply get_set_same.
Qed.

(** A server entry that does not diverge leaves the record alone and
    records nothing under its id. *)
Lemma mergeLoop_kept es m k s l :
  NoDup (map fst es) -> In (k, s) es ->
  JsMap.get (localMap m) k = Some l ->
  (forall n, diverge (lastModified l)
               (fst (orNow env (slastModified s) n)) l s = false) ->
  let m' := fold_left (mergeStep env) es m in
  JsMap.get (localMap m') k = Some l
  /\ forall c, In c (conflicts m') -> cid c = k -> In c (conflicts m).
Proof.
  intros Hnd Hin Hget Hdiv.
  destruct (split_entry _ es k s Hnd Hin) as [es1 [es2 [-> [H1 H2]]]].
  cbn zeta. rewrite fold_left_app. cbn [fold_left].
  set (m1 := fold_left (mergeStep env) es1 m).
  assert (Hget1 : JsMap.get (localMap m1) k = Some l).
  { unfold m1. now rewrite mergeLoop_get_other. }
  rewrite (mergeStep_kept m1 k s l Hget1 Hdiv).
  match goal with |- context [fold_left _ es2 ?m2] =>
    destruct (mergeLoop_conflicts env es2 m2) as [tl2 [E2 F2]];
    rewrite E2, (mergeLoop_get_other env es2 m2 k H2) end.
  simpl. split; [exact Hget1|].
  destruct (mergeLoop_conflicts env es1 m) as [tl1 [E1 F1]].
  fold m1 in E1. rewrite E1. intros c Hc Hk.
  rewrite Forall_forall in F1, F2.
  rewrite !in_app_iff in Hc. destruct Hc as [[Hc|Hc]|Hc]; auto.
  - apply F1 in Hc. congruence.
  - apply F2 in Hc. congruence.
Qed.

(** A key the server does not list is not touched at all. *)
Lemma mergeLoop_unlisted es m k :
  ~ In k (map fst es) ->
  let m' := fold_left (mergeStep env) es m in
  JsMap.get (localMap m') k = JsMap.get (localMap m) k
  /\ forall c, In c (conflicts m') -> cid c = k -> In c (conflicts m).
Proof.
  intros Hn. simpl. split; [now apply mergeLoop_get_other|].
  destruct (mergeLoop_conflicts env es m) as [tl [E F]]. rewrite E.
  rewrite Forall_forall in F. intros c Hc Hk.
  rewrite in_app_iff in Hc. destruct Hc as [Hc|Hc]; auto.
  apply F in Hc. congruence.
Qed.

(** The ids added to [newLocal] are pairwise different. *)
Lemma mergeLoop_newLocal_nodup es m :
  NoDup (map fst es) -> skeyed es ->
  NoDup (map id (newLocal m)) ->
  (forall q, In q (newLocal m) -> ~ In (id q) (map fst es)) ->
  NoDup (map id (newLocal (fold_left (mergeStep env) es m))).
Proof.
  revert m. induction es as [|e es IH]; simpl; intros m Hnd Hs Hm Hfresh; auto.
  inversion Hnd as [|? ? He Hnd']; subst.
  inversion Hs as [|? ? Hk Hs']; subst.
  destruct (mergeStep_newLocal env m e) as [tl [E [F L]]].
  rewrite Forall_forall in F.
  apply IH; auto; rewrite E.
  - rewrite map_app. apply NoDup_app; auto.
    + destruct tl as [|q [|q' tl]].
      * constructor.
      * simpl. constructor; [simpl; tauto | constructor].
      * exfalso. simpl in L.
        destruct (JsMap.has (localMap m) (fst e)); discriminate.
    + intros x Hx Hx'. apply in_map_iff in Hx. destruct Hx as [q1 [<- Hq1]].
      apply in_map_iff in Hx'. destruct Hx' as [q2 [E2 Hq2]].
      apply (Hfresh _ Hq1). left. apply F in Hq2. destruct Hq2 as [Hid _].
      congruence.
  - intros q Hq. rewrite in_app_iff in Hq. destruct Hq as [Hq|Hq].
    + specialize (Hfresh _ Hq). tauto.
    + apply F in Hq. destruct Hq as [Hid _]. now rewrite Hid, Hk.
Qed.

End MergeEntries.

(** ** What the first loop makes of each id *)

Section PerId.
Variables (env : Env) (serverQuotes : list ServerQuote) (w : World).

Let m := mergePhase env serverQuotes w.

Lemma mergePhase_absent i s :
  JsMap.get (serverMapOf serverQuotes) i = Some s ->
  JsMap.get (localMapOf (quotes w)) i = None ->
  exists lm,
    In (mkQuote i (stext s) (scategory s) lm false) (newLocal m)
    /\ forall t, slastModified s = Some t -> lm = t.
Proof.
  intros Hs Hl. unfold m, mergePhase, mergeLoop.
  apply mergeLoop_absent; auto.
  - apply nodup_serverMapOf.
  - apply skeyed_serverMapOf.
  - now apply get_some_in.
Qed.

Lemma mergePhase_conflict i l s t :
  JsMap.get (localMapOf (quotes w)) i = Some l ->
  JsMap.get (serverMapOf serverQuotes) i = Some s ->
  slastModified s = Some t ->
  diverge (lastModified l) t l s = true ->
  In (mkConflict i l (mkServerCopy i (stext s) (scategory s) t))
     (conflicts m)
  /\ JsMap.get (localMap m) i
     = Some (mkQuote i (stext s) (scategory s) t false).
Proof.
  intros Hl Hs Ht Hdiv. unfold m, mergePhase, mergeLoop.
  apply mergeLoop_conflict; auto.
  - apply nodup_serverMapOf.
  - now apply get_some_in.
Qed.

Lemma mergePhase_kept i l :
  JsMap.get (localMapOf (quotes w)) i = Some l ->
  id l = i -> undisputed env serverQuotes l ->
  JsMap.get (localMap m) i = Some l
  /\ forall c, In c (conflicts m) -> cid c <> i.
Proof.
  intros Hl Hid Hu. unfold m, mergePhase, mergeLoop.
  destruct (JsMap.get (serverMapOf serverQuotes) i) as [s|] eqn:Hs.
  - assert (Hd : forall n, diverge (lastModified l)
                             (fst (orNow env (slastModified s) n)) l s
                           = false).
    { intros n. apply Hu. rewrite Hid. exact Hs. }
    destruct (mergeLoop_kept env (serverMapOf serverQuotes)
                (mkMerge (localMapOf (quotes w)) [] [] (ticks w)) i s l
                (nodup_serverMapOf _) (get_some_in _ _ _ _ Hs) Hl Hd)
      as [Hg Hc].
    split; [exact Hg|]. intros c Hin Hk. exact (Hc c Hin Hk).
  - assert (Hn : ~ In i (map fst (serverMapOf serverQuotes))).
    { now apply get_none_keys. }
    destruct (mergeLoop_unlisted env (serverMapOf serverQuotes)
                (mkMerge (localMapOf (quotes w)) [] [] (ticks w)) i Hn)
      as [Hg Hc].
    split; [now rewrite Hg|]. intros c Hin Hk. exact (Hc c Hin Hk).
Qed.

End PerId.

(** ** The merged array *)

Lemma keyed_ids lm : keyed lm -> map id (JsMap.values lm) = JsMap.keys lm.
Proof.
  unfold keyed, JsMap.values, JsMap.keys. induction 1 as [|e lm He _ IH].
  - reflexivity.
  - simpl. now rewrite He, IH.
Qed.

Lemma addServerOnly_fold items lm :
  addServerOnly items lm
  = fold_left (fun a e => JsMap.set a (fst e) (snd e))
              (map (fun q => (id q, q)) items) lm.
Proof.
  unfold addServerOnly. revert lm.
  induction items as [|q items IH]; simpl; intros lm; auto.
Qed.

Lemma nodup_map_inj (A B : Type) (f : A -> B) (xs : list A) x y :
  NoDup (map f xs) -> In x xs -> In y xs -> f x = f y -> x = y.
Proof.
  induction xs as [|a xs IH]; simpl; [tauto|].
  intros Hnd Hx Hy E. inversion Hnd as [|? ? Ha Hnd']; subst.
  destruct Hx as [->|Hx], Hy as [->|Hy]; auto.
  - exfalso. apply Ha. rewrite E. now apply in_map.
  - exfalso. apply Ha. rewrite <- E. now apply in_map.
Qed.

Section Merged.
Variables (env : Env) (serverQuotes : list ServerQuote) (w : World).

Let m := mergePhase env serverQuotes w.

Lemma mergePhase_keys :
  JsMap.keys (localMap m) = JsMap.keys (localMapOf (quotes w)).
Proof. unfold m, mergePhase, mergeLoop. now rewrite mergeLoop_keys. Qed.

Lemma mergePhase_keyed : keyed (localMap m).
Proof.
  unfold m, mergePhase, mergeLoop. apply mergeLoop_keyed. simpl.
  apply keyed_localMapOf.
Qed.

Lemma mergePhase_newLocal :
  Forall (fun q => In (id q) (JsMap.keys (serverMapOf serverQuotes))
                   /\ ~ In (id q) (JsMap.keys (localMap m))
                   /\ pendingSync q = false) (newLocal m)
  /\ List.length (newLocal m)
     = List.length
         (filter (fun e => negb (JsMap.has (localMapOf (quotes w)) (fst e)))
                 (serverMapOf serverQuotes)).
Proof.
  destruct (mergeLoop_newLocal env (serverMapOf serverQuotes)
              (mkMerge (localMapOf (quotes w)) [] [] (ticks w))
              (skeyed_serverMapOf serverQuotes)) as [tl [E [F L]]].
  simpl in E, F, L. fold (mergeLoop env (serverMapOf serverQuotes)) in E.
  change (newLocal m = tl) in E. rewrite E. split; [|exact L].
  eapply Forall_impl; [|exact F]. simpl. intros q [H1 [H2 H3]].
  rewrite mergePhase_keys. auto.
Qed.

Lemma mergePhase_newLocal_nodup : NoDup (map id (newLocal m)).
Proof.
  unfold m, mergePhase, mergeLoop. apply mergeLoop_newLocal_nodup; simpl.
  - apply nodup_serverMapOf.
  - apply skeyed_serverMapOf.
  - constructor.
  - tauto.
Qed.

(** The merged array lists the local map first, in its order, and then the
    server-only items. *)
Lemma merged_shape : mergedOf m = JsMap.values (localMap m) ++ newLocal m.
Proof.
  unfold mergedOf. rewrite addServerOnly_fold, ofEntries_fold_nodup.
  - unfold JsMap.values. rewrite map_app, map_map. simpl.
    now rewrite map_id.
  - rewrite map_map. simpl. apply NoDup_app.
    + rewrite mergePhase_keys. apply nodup_localMapOf.
    + apply mergePhase_newLocal_nodup.
    + intros k Hk Hk'. apply in_map_iff in Hk'. destruct Hk' as [q [<- Hq]].
      destruct mergePhase_newLocal as [F _]. rewrite Forall_forall in F.
      apply F in Hq. tauto.
Qed.

Lemma merged_ids :
  map id (mergedOf m) = JsMap.keys (localMap m) ++ map id (newLocal m).
Proof.
  rewrite merged_shape, map_app, keyed_ids; auto. apply mergePhase_keyed.
Qed.

Lemma merged_nodup : NoDup (map id (mergedOf m)).
Proof.
  rewrite merged_ids. apply NoDup_app.
  - rewrite mergePhase_keys. apply nodup_localMapOf.
  - apply mergePhase_newLocal_nodup.
  - intros k Hk Hk'. apply in_map_iff in Hk'. destruct Hk' as [q [<- Hq]].
    destruct mergePhase_newLocal as [F _]. rewrite Forall_forall in F.
    apply F in Hq. tauto.
Qed.

Lemma merged_of_map k q :
  JsMap.get (localMap m) k = Some q -> In q (mergedOf m) /\ id q = k.
Proof.
  intros Hget. apply get_some_in in Hget. split.
  - rewrite merged_shape. apply in_or_app. left.
    unfold JsMap.values. change q with (snd (k, q)). now apply in_map.
  - pose proof mergePhase_keyed as Hk. unfold keyed in Hk.
    rewrite Forall_forall in Hk. exact (Hk _ Hget).
Qed.

Lemma merged_of_newLocal q : In q (newLocal m) -> In q (mergedOf m).
Proof. intros H. rewrite merged_shape. apply in_or_app. now right. Qed.

End Merged.

(** ** Arrays and positions *)

Section Arrays.
Variable A : Type.
Implicit Types (xs : list A) (x : A) (i j : nat).

Lemma length_assign xs j x : List.length (assign xs j x) = List.length xs.
Proof.
  revert j. induction xs as [|y xs IH]; intros [|j]; simpl; auto.
Qed.

Lemma nth_error_assign_other xs i j x :
  i <> j -> nth_error (assign xs j x) i = nth_error xs i.
Proof.
  revert i j. induction xs as [|y xs IH]; intros [|i] [|j] Hne; simpl; auto.
  congruence.
Qed.

Lemma nth_error_assign_same xs j x :
  j < List.length xs -> nth_error (assign xs j x) j = Some x.
Proof.
  revert j. induction xs as [|y xs IH]; intros [|j]; simpl; intros H;
    try lia; auto.
  apply IH. lia.
Qed.

Lemma map_assign_same (B : Type) (f : A -> B) xs j x y :
  nth_error xs j = Some y -> f x = f y -> map f (assign xs j x) = map f xs.
Proof.
  revert j. induction xs as [|z xs IH]; intros [|j]; simpl; try discriminate.
  - intros [= ->] ->. reflexivity.
  - intros Hy Hf. now rewrite (IH j).
Qed.

Lemma in_positions p xs i :
  In i (positions p xs) <-> exists x, nth_error xs i = Some x /\ p x = true.
Proof.
  unfold positions. rewrite filter_In, in_seq. split.
  - intros [_ H]. destruct (nth_error xs i) as [x|]; [|discriminate].
    now exists x.
  - intros [x [Hx Hp]]. rewrite Hx. split; auto.
    assert (i < List.length xs) by (apply nth_error_Some; congruence). lia.
Qed.

Lemma nodup_positions p xs : NoDup (positions p xs).
Proof. unfold positions. apply NoDup_filter, seq_NoDup. Qed.

Lemma positions_cons p x xs :
  positions p (x :: xs)
  = (if p x then [0] else []) ++ map S (positions p xs).
Proof.
  unfold positions. simpl List.length. cbn [seq filter nth_error].
  rewrite <- seq_shift.
  assert (E : forall l,
             filter (fun i => match nth_error (x :: xs) i with
                              | Some y => p y
                              | None => false
                              end) (map S l)
             = map S (filter (fun i => match nth_error xs i with
                                       | Some y => p y
                                       | None => false
                                       end) l)).
  { induction l as [|a l IH]; simpl; auto.
    destruct (nth_error xs a) as [y|]; auto.
    destruct (p y); simpl; now rewrite IH. }
  rewrite E. now destruct (p x).
Qed.

Lemma objectsAt_shift x xs ps :
  objectsAt (x :: xs) (map S ps) = objectsAt xs ps.
Proof.
  unfold objectsAt. induction ps as [|a ps IH]; simpl; auto.
  now rewrite IH.
Qed.

(** The objects at the positions kept by a filter are what it returns. *)
Lemma objectsAt_positions p xs : objectsAt xs (positions p xs) = filter p xs.
Proof.
  induction xs as [|x xs IH]; [reflexivity|].
  rewrite positions_cons. unfold objectsAt. rewrite flat_map_app.
  fold (objectsAt (x :: xs) (map S (positions p xs))).
  rewrite objectsAt_shift, IH. simpl. now destruct (p x).
Qed.

Lemma objectsAt_assign xs j x ps :
  ~ In j ps -> objectsAt (assign xs j x) ps = objectsAt xs ps.
Proof.
  unfold objectsAt. induction ps as [|a ps IH]; simpl; intros Hn; auto.
  rewrite nth_error_assign_other by tauto. now rewrite IH by tauto.
Qed.

End Arrays.

(** ** Posting *)

Section Push.
Variable env : Env.

Lemma post_answer q w :
  fst (postQuoteToServer env q w) = postOk env (List.length (requests w)).
Proof.
  unfold postQuoteToServer, postOk.
  destruct (httpPost env (List.length (requests w))); simpl; auto.
  now destruct (simFault env (List.length (requests w))).
Qed.

Lemma post_requests q w :
  requests (snd (postQuoteToServer env q w)) = requests w ++ [POST q].
Proof.
  unfold postQuoteToServer.
  destruct (httpPost env (List.length (requests w))); simpl; auto.
  now destruct (simFault env (List.length (requests w))).
Qed.

(** A post touches nothing of the page but the simulated server. *)
Lemma post_page q w :
  let w' := snd (postQuoteToServer env q w) in
  quotes w' = quotes w /\ pendingConflicts w' = pendingConflicts w
  /\ saved w' = saved w /\ notices w' = notices w /\ ticks w' = ticks w
  /\ display w' = display w.
Proof.
  unfold postQuoteToServer.
  destruct (httpPost env (List.length (requests w)));
    [|destruct (simFault env (List.length (requests w)))];
    simpl; repeat split; reflexivity.
Qed.

Lemma pushLoop_length targets merged w :
  List.length (fst (pushLoop env targets merged w)) = List.length merged.
Proof.
  revert merged w. induction targets as [|j rest IH]; simpl; intros; auto.
  destruct (nth_error merged j) as [lq|]; auto.
  destruct (postQuoteToServer env lq w) as [ok w1].
  now rewrite IH, length_assign.
Qed.

Lemma pushLoop_other targets merged w i :
  ~ In i targets ->
  nth_error (fst (pushLoop env targets merged w)) i = nth_error merged i.
Proof.
  revert merged w. induction targets as [|j rest IH]; simpl; intros merged w Hn;
    auto.
  destruct (nth_error merged j) as [lq|]; [|apply IH; tauto].
  destruct (postQuoteToServer env lq w) as [ok w1].
  rewrite IH by tauto. apply nth_error_assign_other. intros ->. tauto.
Qed.

(** The posts change nothing of a quote but its flag. *)
Lemma pushLoop_core targets merged w :
  map core (fst (pushLoop env targets merged w)) = map core merged.
Proof.
  revert merged w. induction targets as [|j rest IH]; simpl; intros; auto.
  destruct (nth_error merged j) as [lq|] eqn:Hj; auto.
  destruct (postQuoteToServer env lq w) as [ok w1].
  rewrite IH. eapply map_assign_same; eauto.
Qed.

Lemma pushLoop_page targets merged w :
  let w' := snd (pushLoop env targets merged w) in
  quotes w' = quotes w /\ pendingConflicts w' = pendingConflicts w
  /\ saved w' = saved w /\ notices w' = notices w /\ ticks w' = ticks w
  /\ display w' = display w.
Proof.
  revert merged w. induction targets as [|j rest IH]; simpl; intros merged w.
  - repeat split; reflexivity.
  - destruct (nth_error merged j) as [lq|]; [|apply IH].
    pose proof (post_page lq w) as Hp.
    destruct (postQuoteToServer env lq w) as [ok w1]. simpl in Hp.
    specialize (IH (assign merged j
                      (setPendingSync (if ok then false else true) lq)) w1).
    simpl in IH. intuition congruence.
Qed.

(** Every object of [pendingToPost] is posted, in order, whatever the
    answers to the earlier posts. *)
Lemma pushLoop_requests targets merged w :
  NoDup targets ->
  requests (snd (pushLoop env targets merged w))
  = requests w ++ map POST (objectsAt merged targets).
Proof.
  revert merged w.
  induction targets as [|j rest IH]; simpl; intros merged w Hnd.
  - now rewrite app_nil_r.
  - inversion Hnd as [|? ? Hj Hnd']; subst.
    unfold objectsAt. simpl. fold (objectsAt merged rest).
    destruct (nth_error merged j) as [lq|]; [|now apply IH].
    pose proof (post_requests lq w) as Hr.
    destruct (postQuoteToServer env lq w) as [ok w1]. simpl in Hr.
    rewrite IH by assumption. rewrite objectsAt_assign by assumption.
    rewrite Hr. simpl. now rewrite <- app_assoc.
Qed.

(** The [k]-th object of [pendingToPost] ends with the flag its own post
    decides: cleared on success, set on failure. *)
Lemma pushLoop_at targets merged w k i q :
  NoDup targets -> (forall j, In j targets -> j < List.length merged) ->
  nth_error targets k = Some i -> nth_error merged i = Some q ->
  nth_error (fst (pushLoop env targets merged w)) i
  = Some (setPendingSync
            (negb (postOk env (List.length (requests w) + k))) q).
Proof.
  revert merged w k.
  induction targets as [|j rest IH]; intros merged w k Hnd Hrange Hk Hq.
  - destruct k; discriminate.
  - inversion Hnd as [|? ? Hj Hnd']; subst. simpl.
    assert (Hjr : j < List.length merged) by (apply Hrange; now left).
    destruct (nth_error merged j) as [lq|] eqn:Hlq;
      [|apply nth_error_None in Hlq; lia].
    pose proof (post_answer lq w) as Ha.
    pose proof (post_requests lq w) as Hr.
    destruct (postQuoteToServer env lq w) as [ok w1]. simpl in Ha, Hr.
    destruct k as [|k]; simpl in Hk.
    + injection Hk as ->. rewrite pushLoop_other by assumption.
      rewrite nth_error_assign_same by assumption.
      rewrite Nat.add_0_r, <- Ha. replace q with lq by congruence.
      now destruct ok.
    + assert (Hne : i <> j).
      { intros ->. apply Hj. eapply nth_error_In; eauto. }
      rewrite (IH _ w1 k); auto.
      * rewrite Hr, length_app. simpl.
        now replace (List.length (requests w) + 1 + k)
          with (List.length (requests w) + S k) by lia.
      * intros j' Hj'. rewrite length_assign. apply Hrange. now right.
      * now rewrite nth_error_assign_other.
Qed.

End Push.

(** ** One pass *)

Section Pass.
Variable env : Env.

(** The fetch reads the page and writes only to the simulated server, the
    clock count and the request log. *)
Lemma fetch_page w :
  let w1 := snd (fetchServerQuotes env w) in
  quotes w1 = quotes w /\ pendingConflicts w1 = pendingConflicts w
  /\ saved w1 = saved w /\ notices w1 = notices w
  /\ display w1 = display w /\ requests w1 = requests w ++ [GET].
Proof.
  unfold fetchServerQuotes.
  destruct (httpGet env (List.length (requests w))) as [data|].
  - destruct (mapPosts env data (ticks (issue GET w))) as [mapped n'].
    simpl. repeat split; reflexivity.
  - unfold initFromLocal. simpl.
    destruct (store w); destruct (simFault env (List.length (requests w)));
      simpl; repeat split; reflexivity.
Qed.

Variable serverQuotes : list ServerQuote.
Variable w : World.

Let serverMap := serverMapOf serverQuotes.
Let m := mergePhase env serverQuotes w.
Let merged := mergedOf m.
Let pendingToPost := positions (toPost serverMap) merged.

Lemma syncBody_quotes :
  quotes (syncBody env serverQuotes w)
  = fst (pushLoop env pendingToPost merged (withTicks (read m) w)).
Proof.
  unfold syncBody. fold serverMap m merged pendingToPost.
  destruct (pushLoop env pendingToPost merged (withTicks (read m) w))
    as [merged' w1].
  destruct (conflicts m); [destruct (newLocal m)|]; reflexivity.
Qed.

Lemma syncBody_saved :
  saved (syncBody env serverQuotes w) = quotes (syncBody env serverQuotes w).
Proof.
  unfold syncBody. fold serverMap m merged pendingToPost.
  destruct (pushLoop env pendingToPost merged (withTicks (read m) w))
    as [merged' w1].
  destruct (conflicts m); [destruct (newLocal m)|]; reflexivity.
Qed.

(** The registry is replaced when the pass found a conflict, and only
    then. *)
Lemma syncBody_pendingConflicts :
  pendingConflicts (syncBody env serverQuotes w)
  = match conflicts m with
    | [] => pendingConflicts w
    | _ :: _ => conflicts m
    end.
Proof.
  unfold syncBody. fold serverMap m merged pendingToPost.
  pose proof (pushLoop_page env pendingToPost merged (withTicks (read m) w))
    as Hp.
  destruct (pushLoop env pendingToPost merged (withTicks (read m) w))
    as [merged' w1].
  simpl in Hp. destruct Hp as [_ [Hp _]].
  destruct (conflicts m); [destruct (newLocal m)|]; simpl; auto.
Qed.

Lemma syncBody_requests :
  requests (syncBody env serverQuotes w)
  = requests w ++ map POST (filter (toPost serverMap) merged).
Proof.
  unfold syncBody. fold serverMap m merged pendingToPost.
  pose proof (pushLoop_requests env pendingToPost merged
                (withTicks (read m) w) (nodup_positions _ _ _)) as Hr.
  unfold pendingToPost in Hr at 2. rewrite objectsAt_positions in Hr.
  destruct (pushLoop env pendingToPost merged (withTicks (read m) w))
    as [merged' w1].
  simpl in Hr.
  destruct (conflicts m); [destruct (newLocal m)|]; simpl; auto.
Qed.

Lemma syncBody_notices :
  notices (syncBody env serverQuotes w)
  = notices w ++
    match conflicts m, newLocal m with
    | _ :: _, _ => [(ConflictsDetected (List.length (conflicts m)), true)]
    | [], _ :: _ => [(NewQuotesSynced (List.length (newLocal m)), false)]
    | [], [] => []
    end.
Proof.
  unfold syncBody. fold serverMap m merged pendingToPost.
  pose proof (pushLoop_page env pendingToPost merged (withTicks (read m) w))
    as Hp.
  destruct (pushLoop env pendingToPost merged (withTicks (read m) w))
    as [merged' w1].
  simpl in Hp. destruct Hp as [_ [_ [_ [Hp _]]]].
  destruct (conflicts m); [destruct (newLocal m)|]; simpl;
    rewrite ?app_nil_r; congruence.
Qed.

(** The posts keep every quote in its place and change at most its flag. *)
Lemma syncBody_core :
  map core (quotes (syncBody env serverQuotes w)) = map core merged.
Proof. rewrite syncBody_quotes. apply pushLoop_core. Qed.

Lemma syncBody_ids :
  map id (quotes (syncBody env serverQuotes w)) = map id merged.
Proof.
  assert (E : forall qs, map id qs
                         = map (fun c => fst (fst (fst c))) (map core qs)).
  { intros qs. rewrite map_map. reflexivity. }
  now rewrite E, syncBody_core, <- E.
Qed.

(** A quote that is not to be posted is stored as it is. *)
Lemma syncBody_unposted q :
  In q merged -> toPost serverMap q = false ->
  In q (quotes (syncBody env serverQuotes w)).
Proof.
  intros Hin Hp. apply In_nth_error in Hin. destruct Hin as [p Hq].
  rewrite syncBody_quotes. apply nth_error_In with (n := p).
  rewrite pushLoop_other; auto.
  unfold pendingToPost. rewrite in_positions. intros [x [Hx Hpx]].
  congruence.
Qed.

(** Whatever is stored was in the merged array, up to its flag. *)
Lemma syncBody_stored q :
  In q merged ->
  exists q', In q' (quotes (syncBody env serverQuotes w))
             /\ core q' = core q.
Proof.
  intros Hin. apply In_nth_error in Hin. destruct Hin as [p Hq].
  pose proof syncBody_core as Hc.
  apply (f_equal (fun l => nth_error l p)) in Hc.
  rewrite !nth_error_map, Hq in Hc. simpl in Hc.
  destruct (nth_error (quotes (syncBody env serverQuotes w)) p) as [q'|] eqn:E;
    [|discriminate].
  simpl in Hc. exists q'. split; [eapply nth_error_In; eauto | congruence].
Qed.

Lemma syncBody_nodup : NoDup (map id (quotes (syncBody env serverQuotes w))).
Proof. rewrite syncBody_ids. apply merged_nodup. Qed.

End Pass.

Lemma core_eq q q' : core q' = core q -> q' = setPendingSync (pendingSync q') q.
Proof.
  destruct q, q'. unfold core, setPendingSync. simpl. congruence.
Qed.

Lemma diverge_core env l l' s n :
  core l' = core l ->
  diverge (lastModified l') (fst (orNow env (slastModified s) n)) l' s
  = diverge (lastModified l) (fst (orNow env (slastModified s) n)) l s.
Proof.
  destruct l, l'. unfold core, diverge. simpl. congruence.
Qed.

Lemma setPendingSync_same q : setPendingSync (pendingSync q) q = q.
Proof. now destruct q. Qed.

Lemma localMapOf_get_id qs i l :
  JsMap.get (localMapOf qs) i = Some l -> id l = i.
Proof.
  intros Hg. apply get_some_in in Hg.
  pose proof (keyed_localMapOf qs) as Hk. unfold keyed in Hk.
  rewrite Forall_forall in Hk. exact (Hk _ Hg).
Qed.

(** In a list without a repeated id every quote is the one its id finds. *)
Lemma localMapOf_get_in qs q :
  NoDup (map id qs) -> In q qs -> JsMap.get (localMapOf qs) (id q) = Some q.
Proof.
  intros Hnd Hin. rewrite localMapOf_nodup by assumption.
  apply in_get_nodup.
  - unfold JsMap.keys. now rewrite map_map.
  - apply in_map_iff. now exists q.
Qed.

Lemma objectsAt_nth (A : Type) (xs : list A) ps k x :
  (forall j, In j ps -> j < List.length xs) ->
  nth_error (objectsAt xs ps) k = Some x ->
  exists i, nth_error ps k = Some i /\ nth_error xs i = Some x.
Proof.
  unfold objectsAt. revert k.
  induction ps as [|j ps IH]; simpl; intros k Hr Hk.
  - destruct k; discriminate.
  - assert (Hj : j < List.length xs) by (apply Hr; now left).
    destruct (nth_error xs j) as [y|] eqn:Ey;
      [|apply nth_error_None in Ey; lia].
    destruct k as [|k]; simpl in *.
    + injection Hk as <-. now exists j.
    + apply IH; auto.
Qed.

Lemma nth_error_after (A : Type) (xs ys : list A) k :
  nth_error (xs ++ ys) (List.length xs + k) = nth_error ys k.
Proof. rewrite nth_error_app2 by lia. f_equal. lia. Qed.

Section Posted.
Variables (env : Env) (serverQuotes : list ServerQuote) (w : World).

Let serverMap := serverMapOf serverQuotes.
Let merged := mergedOf (mergePhase env serverQuotes w).

(** The [k]-th quote that is to be posted is stored with the flag its
    post decides. *)
Lemma syncBody_posted_nth k q :
  nth_error (filter (toPost serverMap) merged) k = Some q ->
  In (setPendingSync (negb (postOk env (List.length (requests w) + k))) q)
     (quotes (syncBody env serverQuotes w)).
Proof.
  intros Hk. rewrite <- objectsAt_positions in Hk.
  assert (Hr : forall j, In j (positions (toPost serverMap) merged) ->
                         j < List.length merged).
  { intros j Hj. apply in_positions in Hj. destruct Hj as [x [Hx _]].
    apply nth_error_Some. congruence. }
  destruct (objectsAt_nth _ _ _ _ _ Hr Hk) as [i [Hi Hq]].
  rewrite syncBody_quotes. apply nth_error_In with (n := i).
  fold serverMap merged.
  rewrite (pushLoop_at env _ merged _ k i q); auto.
  apply nodup_positions.
Qed.

(** Its post is the [k]-th request the pass makes after the fetch. *)
Lemma syncBody_request_nth k q :
  nth_error (filter (toPost serverMap) merged) k = Some q ->
  nth_error (requests (syncBody env serverQuotes w))
            (List.length (requests w) + k)
  = Some (POST q).
Proof.
  intros Hk. rewrite syncBody_requests, nth_error_after, nth_error_map.
  fold serverMap merged. now rewrite Hk.
Qed.

(** Nothing else is stored under its id. *)
Lemma syncBody_posted_only k q q' :
  nth_error (filter (toPost serverMap) merged) k = Some q ->
  In q' (quotes (syncBody env serverQuotes w)) -> id q' = id q ->
  q' = setPendingSync (negb (postOk env (List.length (requests w) + k))) q.
Proof.
  intros Hk Hin Hid.
  apply (nodup_map_inj _ _ id _ _ _ (syncBody_nodup env serverQuotes w));
    auto.
  now apply syncBody_posted_nth.
Qed.

(** The record that the first loop wrote over a conflict: it is stored as
    the server gave it, alone under its id, and it is not posted. *)
Lemma syncBody_conflict i l s t :
  JsMap.get (localMapOf (quotes w)) i = Some l ->
  JsMap.get serverMap i = Some s ->
  slastModified s = Some t -> lastModified l <> t -> text l <> stext s ->
  let q := mkQuote i (stext s) (scategory s) t false in
  In q (quotes (syncBody env serverQuotes w))
  /\ (forall q', In q' (quotes (syncBody env serverQuotes w)) ->
                 id q' = i -> q' = q)
  /\ (forall q', In q' (filter (toPost serverMap) merged) -> id q' <> i).
Proof.
  intros Hl Hs Ht Hlm Htx. cbn zeta.
  assert (Hdiv : diverge (lastModified l) t l s = true).
  { unfold diverge. apply andb_true_iff. split; apply negb_true_iff.
    - now apply Z.eqb_neq.
    - now apply String.eqb_neq. }
  destruct (mergePhase_conflict env serverQuotes w i l s t Hl Hs Ht Hdiv)
    as [_ Hg].
  destruct (merged_of_map env serverQuotes w i _ Hg) as [Hin _].
  assert (Hno : toPost serverMap (mkQuote i (stext s) (scategory s) t false)
                = false).
  { unfold toPost. simpl. apply negb_false_iff. unfold JsMap.has.
    now rewrite Hs. }
  assert (Hstored : In (mkQuote i (stext s) (scategory s) t false)
                       (quotes (syncBody env serverQuotes w))).
  { now apply syncBody_unposted. }
  split; [exact Hstored|]. split.
  - intros q' Hq' Hid.
    apply (nodup_map_inj _ _ id _ q' _ (syncBody_nodup env serverQuotes w));
      auto.
  - intros q' Hq' Hid. apply filter_In in Hq'. destruct Hq' as [Hm Hp].
    assert (E : q' = mkQuote i (stext s) (scategory s) t false).
    { apply (nodup_map_inj _ _ id _ q' _ (merged_nodup env serverQuotes w));
        auto. }
    rewrite E in Hp. congruence.
Qed.

Lemma syncBody_posted q :
  In q merged -> toPost serverMap q = true ->
  In (POST q) (requests (syncBody env serverQuotes w))
  /\ exists k,
       In (setPendingSync
             (negb (postOk env (List.length (requests w) + k))) q)
          (quotes (syncBody env serverQuotes w)).
Proof.
  intros Hin Hp.
  assert (Hf : In q (filter (toPost serverMap) merged)).
  { apply filter_In. now split. }
  split.
  - rewrite syncBody_requests. apply in_or_app. right.
    now apply in_map.
  - apply In_nth_error in Hf. destruct Hf as [k Hk]. exists k.
    now apply syncBody_posted_nth.
Qed.

End Posted.

(** A loop over server entries none of which diverges from the record the
    local map holds under its key changes nothing but the clock count. *)
Lemma mergeLoop_quiet env es m :
  (forall k s, In (k, s) es ->
     exists l, JsMap.get (localMap m) k = Some l
               /\ forall n, diverge (lastModified l)
                              (fst (orNow env (slastModified s) n)) l s
                            = false) ->
  let m' := fold_left (mergeStep env) es m in
  localMap m' = localMap m /\ newLocal m' = newLocal m
  /\ conflicts m' = conflicts m.
Proof.
  revert m. induction es as [|[k s] es IH]; intros m H; cbn zeta.
  - auto.
  - cbn [fold_left].
    destruct (H k s (or_introl eq_refl)) as [l [Hg Hd]].
    rewrite (mergeStep_kept env m k s l Hg Hd).
    match goal with |- context [fold_left _ es ?m1] =>
      destruct (IH m1) as [E1 [E2 E3]] end.
    + simpl. intros k' s' Hin. apply H. now right.
    + rewrite E1, E2, E3. auto.
Qed.

(** ** The pass as a whole *)

Lemma sync_resolved env w serverQuotes w1 :
  fetchServerQuotes env w = (Resolved serverQuotes, w1) ->
  syncWithServer env w = syncBody env serverQuotes w1
  /\ quotes w1 = quotes w /\ pendingConflicts w1 = pendingConflicts w
  /\ requests w1 = requests w ++ [GET] /\ notices w1 = notices w.
Proof.
  intros Hf. pose proof (fetch_page env w) as Hp.
  unfold syncWithServer. rewrite Hf in *. simpl in Hp. tauto.
Qed.

(** When the promise of the fetch rejects, the pass announces it and
    does nothing else. *)
Lemma sync_rejected env w w1 :
  fetchServerQuotes env w = (Rejected, w1) ->
  let w' := syncWithServer env w in
  quotes w' = quotes w
  /\ pendingConflicts w' = pendingConflicts w
  /\ saved w' = saved w
  /\ notices w' = notices w ++ [(SyncFailed, false)]
  /\ requests w' = requests w ++ [GET].
Proof.
  intros Hf. pose proof (fetch_page env w) as Hp.
  unfold syncWithServer. rewrite Hf in *. simpl in *.
  destruct Hp as [-> [-> [-> [-> [_ ->]]]]]. repeat split; reflexivity.
Qed.

(** With the HTTP server out of reach the fetch still resolves, from the
    simulated server, unless that one throws too. *)
Lemma fetch_falls_back env w :
  httpGet env (List.length (requests w)) = None ->
  simFault env (List.length (requests w)) = false ->
  fst (fetchServerQuotes env w)
  = Resolved (store (initFromLocal (quotes w) (issue GET w))).
Proof.
  intros Hg Hs. unfold fetchServerQuotes. now rewrite Hg, Hs.
Qed.

(** The fetch rejects exactly when the HTTP request fails and the
    simulated server throws. *)
Lemma fetch_rejects_iff env w :
  fst (fetchServerQuotes env w) = Rejected
  <-> httpGet env (List.length (requests w)) = None
      /\ simFault env (List.length (requests w)) = true.
Proof.
  unfold fetchServerQuotes.
  destruct (httpGet env (List.length (requests w))) as [data|].
  - destruct (mapPosts env data (ticks (issue GET w))). simpl.
    split; [discriminate | intros [H _]; discriminate].
  - destruct (simFault env (List.length (requests w))); simpl.
    + tauto.
    + split; [discriminate | intros [_ H]; discriminate].
Qed.

Lemma mapPosts_times env data n :
  Forall (fun s => slastModified s <> None) (fst (mapPosts env data n)).
Proof.
  revert n. induction data as [|item rest IH]; intros n; simpl.
  - constructor.
  - destruct (match pid item with
              | Some s => (s, n)
              | None => uid env n
              end) as [i n1].
    specialize (IH (S n1)). simpl.
    destruct (mapPosts env rest (S n1)) as [rest' n3]. simpl in *.
    constructor; [discriminate | exact IH].
Qed.

(** Every list the fetch resolves with gives a time for each record, as
    long as the simulated server does. *)
Lemma fetch_lists_times env w serverQuotes w1 :
  Forall (fun s => slastModified s <> None) (store w) ->
  fetchServerQuotes env w = (Resolved serverQuotes, w1) ->
  Forall (fun s => slastModified s <> None) serverQuotes.
Proof.
  intros Hst. unfold fetchServerQuotes.
  destruct (httpGet env (List.length (requests w))) as [data|].
  - pose proof (mapPosts_times env data (ticks (issue GET w))) as Hm.
    destruct (mapPosts env data (ticks (issue GET w))) as [mapped n'].
    intros [= <- _]. exact Hm.
  - destruct (simFault env (List.length (requests w))); [discriminate|].
    intros [= <- _]. unfold initFromLocal. simpl.
    destruct (store w) as [|s0 st] eqn:E; simpl.
    + apply Forall_forall. intros s Hs. apply in_map_iff in Hs.
      destruct Hs as [q [<- _]]. discriminate.
    + now rewrite E.
Qed.

(** C4. The store a pass commits holds no two quotes with the same id,
    whatever the local and the server lists were. *)
Theorem committed_ids_unique env w serverQuotes w1 :
  fetchServerQuotes env w = (Resolved serverQuotes, w1) ->
  NoDup (map id (quotes (syncWithServer env w))).
Proof.
  intros Hf. destruct (sync_resolved env w serverQuotes w1 Hf) as [-> _].
  apply syncBody_nodup.
Qed.

(** C1. A quote known on both sides whose times differ and whose texts
    differ is recorded as a conflict, with both sides in full, and the pass
    ends with the server's text, category and time stored under that id,
    not pending. *)
Theorem conflict_recorded_server_wins env w serverQuotes w1 i l s t :
  fetchServerQuotes env w = (Resolved serverQuotes, w1) ->
  JsMap.get (localMapOf (quotes w)) i = Some l ->
  JsMap.get (serverMapOf serverQuotes) i = Some s ->
  slastModified s = Some t -> lastModified l <> t -> text l <> stext s ->
  let w' := syncWithServer env w in
  let q := mkQuote i (stext s) (scategory s) t false in
  In (mkConflict i l (mkServerCopy i (stext s) (scategory s) t))
     (pendingConflicts w')
  /\ In q (quotes w')
  /\ forall q', In q' (quotes w') -> id q' = i -> q' = q.
Proof.
  intros Hf Hl Hs Ht Hlm Htx.
  destruct (sync_resolved env w serverQuotes w1 Hf) as [-> [Hq _]].
  rewrite <- Hq in Hl. cbn zeta.
  assert (Hdiv : diverge (lastModified l) t l s = true).
  { unfold diverge. apply andb_true_iff. split; apply negb_true_iff.
    - now apply Z.eqb_neq.
    - now apply String.eqb_neq. }
  destruct (mergePhase_conflict env serverQuotes w1 i l s t Hl Hs Ht Hdiv)
    as [Hc Hg].
  destruct (merged_of_map env serverQuotes w1 i _ Hg) as [Hin _].
  assert (Hstored : In (mkQuote i (stext s) (scategory s) t false)
                       (quotes (syncBody env serverQuotes w1))).
  { apply syncBody_unposted; auto. unfold toPost. simpl.
    apply negb_false_iff. unfold JsMap.has. now rewrite Hs. }
  split; [|split; auto].
  - rewrite syncBody_pendingConflicts. revert Hc.
    destruct (conflicts (mergePhase env serverQuotes w1)); [simpl; tauto|auto].
  - intros q' Hq' Hid.
    apply (nodup_map_inj _ _ id _ q' _ (syncBody_nodup env serverQuotes w1));
      auto.
Qed.

(** C7, as the code has it.  A server record whose id the local list
    does not know is stored by the pass with the server's text, category
    and time, not pending.  The pass announces how many such records there
    were only when it found no conflict; when it found one it announces the
    number of conflicts, and the number of additions appears nowhere. *)
Theorem server_only_added env w serverQuotes w1 i s :
  fetchServerQuotes env w = (Resolved serverQuotes, w1) ->
  JsMap.get (serverMapOf serverQuotes) i = Some s ->
  JsMap.get (localMapOf (quotes w)) i = None ->
  let w' := syncWithServer env w in
  let m := mergePhase env serverQuotes w1 in
  let added :=
    List.length
      (filter (fun e => negb (JsMap.has (localMapOf (quotes w)) (fst e)))
              (serverMapOf serverQuotes)) in
  (exists q, In q (quotes w')
             /\ (forall q', In q' (quotes w') -> id q' = i -> q' = q)
             /\ id q = i /\ text q = stext s /\ category q = scategory s
             /\ pendingSync q = false
             /\ forall t, slastModified s = Some t -> lastModified q = t)
  /\ List.length (newLocal m) = added
  /\ 0 < added
  /\ (conflicts m = [] ->
      notices w' = notices w ++ [(NewQuotesSynced added, false)])
  /\ (conflicts m <> [] ->
      notices w'
      = notices w ++ [(ConflictsDetected (List.length (conflicts m)), true)]).
Proof.
  intros Hf Hs Hl.
  destruct (sync_resolved env w serverQuotes w1 Hf) as [-> [Hq [_ [_ Hn]]]].
  rewrite <- Hq in *. cbn zeta.
  destruct (mergePhase_absent env serverQuotes w1 i s Hs Hl)
    as [lm [Hin Hlm]].
  destruct (mergePhase_newLocal env serverQuotes w1) as [_ Hlen].
  split; [|split; [|split; [|split]]].
  - exists (mkQuote i (stext s) (scategory s) lm false).
    assert (Hstored : In (mkQuote i (stext s) (scategory s) lm false)
                         (quotes (syncBody env serverQuotes w1))).
    { apply syncBody_unposted.
      - now apply merged_of_newLocal.
      - unfold toPost. simpl. apply negb_false_iff. unfold JsMap.has.
        now rewrite Hs. }
    split; [exact Hstored|]. split.
    + intros q' Hq' Hid.
      apply (nodup_map_inj _ _ id _ q' _ (syncBody_nodup env serverQuotes w1));
        auto.
    + simpl. repeat split; auto.
  - exact Hlen.
  - rewrite <- Hlen.
    destruct (newLocal (mergePhase env serverQuotes w1)); simpl in *;
      [tauto | lia].
  - intros Hc. rewrite syncBody_notices, Hc, Hn, <- Hlen. revert Hin.
    destruct (newLocal (mergePhase env serverQuotes w1)); [simpl; tauto|].
    reflexivity.
  - intros Hc. rewrite syncBody_notices, Hn.
    destruct (conflicts (mergePhase env serverQuotes w1)); [congruence|].
    reflexivity.
Qed.

(** C2, as the code has it.  A failure of the request to the HTTP
    server does not stop the pass: the fetch falls back to the simulated
    server, which it seeds from the local list when it is empty, and the
    pass merges and posts against that list, saves, and announces no
    failure.  The pass stops only when the simulated server throws too:
    then the failure is announced, no quote is posted, and the quotes,
    the saved copy and the registry of conflicts are what they were. *)
Theorem remote_fetch_failure env w :
  httpGet env (List.length (requests w)) = None ->
  let w' := syncWithServer env w in
  let w1 := initFromLocal (quotes w) (issue GET w) in
  store w1 = match store w with
             | [] => map toServerQuote (quotes w)
             | _ :: _ => store w
             end
  /\ (simFault env (List.length (requests w)) = false ->
      fetchServerQuotes env w = (Resolved (store w1), w1)
      /\ w' = syncBody env (store w1) w1
      /\ requests w'
         = requests w
           ++ GET :: map POST (filter (toPost (serverMapOf (store w1)))
                                 (mergedOf (mergePhase env (store w1) w1)))
      /\ saved w' = quotes w'
      /\ forall b, In (SyncFailed, b) (notices w') ->
                   In (SyncFailed, b) (notices w))
  /\ (simFault env (List.length (requests w)) = true ->
      fetchServerQuotes env w = (Rejected, w1)
      /\ quotes w' = quotes w
      /\ pendingConflicts w' = pendingConflicts w
      /\ saved w' = saved w
      /\ notices w' = notices w ++ [(SyncFailed, false)]
      /\ requests w' = requests w ++ [GET]).
Proof.
  intros Hg. cbn zeta. split; [|split].
  - unfold initFromLocal. simpl. destruct (store w) eqn:E; simpl; auto.
  - intros Hs.
    assert (Hf : fetchServerQuotes env w
                 = (Resolved (store (initFromLocal (quotes w) (issue GET w))),
                    initFromLocal (quotes w) (issue GET w))).
    { unfold fetchServerQuotes. now rewrite Hg, Hs. }
    destruct (sync_resolved env w _ _ Hf) as [E [_ [_ [Hr Hn]]]].
    split; [exact Hf|]. split; [exact E|]. rewrite E. split; [|split].
    + rewrite syncBody_requests, Hr, <- app_assoc. reflexivity.
    + apply syncBody_saved.
    + intros b. rewrite syncBody_notices, Hn, in_app_iff.
      intros [H|H]; [exact H|]. exfalso.
      destruct (conflicts _); [destruct (newLocal _)|]; simpl in H;
        intuition discriminate.
  - intros Hs.
    assert (Hf : fetchServerQuotes env w
                 = (Rejected, initFromLocal (quotes w) (issue GET w))).
    { unfold fetchServerQuotes. now rewrite Hg, Hs. }
    split; [exact Hf|]. exact (sync_rejected env w _ Hf).
Qed.

(** C9. An imported value that is not an array is refused with the
    invalid-format notice, and nothing of the page but that notice
    changes; the quotes and their saved copy stay as they were. *)
Theorem non_array_import_rejected env v w :
  isArray v = false ->
  let w' := importOnLoad env (Some v) w in
  display w' = ImportInvalidFormat
  /\ quotes w' = quotes w /\ saved w' = saved w
  /\ pendingConflicts w' = pendingConflicts w
  /\ w' = withDisplay ImportInvalidFormat w.
Proof.
  intros Hv. destruct v; try discriminate; simpl; repeat split; reflexivity.
Qed.

Lemma undisputed_same env serverQuotes l s :
  JsMap.get (serverMapOf serverQuotes) (id l) = Some s ->
  slastModified s = Some (lastModified l) \/ text l = stext s ->
  undisputed env serverQuotes l.
Proof.
  intros Hs Hsame s' Hs' n. rewrite Hs in Hs'. injection Hs' as <-.
  unfold diverge. destruct Hsame as [Ht|Hx].
  - rewrite Ht. simpl. now rewrite Z.eqb_refl.
  - rewrite Hx, String.eqb_refl. apply andb_false_r.
Qed.

Lemma undisputed_unlisted env serverQuotes l :
  JsMap.has (serverMapOf serverQuotes) (id l) = false ->
  undisputed env serverQuotes l.
Proof.
  unfold JsMap.has, undisputed. intros H s Hs. rewrite Hs in H. discriminate.
Qed.

(** C3, as the code has it.  A quote known on both sides whose times are
    equal or whose texts are equal causes no conflict entry, and the pass
    leaves its id, text, category and time alone.  When it is not pending
    it is stored as it was.  When it is pending the pass posts it, and what
    is stored under its id is the quote with the flag that the answer to
    that very request decides: cleared when [postQuoteToServer] reports ok
    (the HTTP server took it, or failed and the simulated server took it),
    set otherwise. *)
Theorem undisputed_record_kept env w serverQuotes w1 i l s :
  fetchServerQuotes env w = (Resolved serverQuotes, w1) ->
  JsMap.get (localMapOf (quotes w)) i = Some l ->
  JsMap.get (serverMapOf serverQuotes) i = Some s ->
  slastModified s = Some (lastModified l) \/ text l = stext s ->
  let w' := syncWithServer env w in
  (forall c, In c (conflicts (mergePhase env serverQuotes w1)) -> cid c <> i)
  /\ (forall c, In c (pendingConflicts w') -> cid c = i ->
                In c (pendingConflicts w))
  /\ (forall q', In q' (quotes w') -> id q' = i -> core q' = core l)
  /\ (pendingSync l = false ->
      In l (quotes w')
      /\ (forall q', In q' (quotes w') -> id q' = i -> q' = l)
      /\ forall q', In (POST q') (requests w') ->
                    In (POST q') (requests w) \/ id q' <> i)
  /\ (pendingSync l = true ->
      exists n,
        List.length (requests w) < n
        /\ nth_error (requests w') n = Some (POST l)
        /\ (forall w0, List.length (requests w0) = n ->
                       fst (postQuoteToServer env l w0) = postOk env n)
        /\ postOk env n = (httpPost env n || negb (simFault env n))
        /\ In (setPendingSync (negb (postOk env n)) l) (quotes w')
        /\ forall q', In q' (quotes w') -> id q' = i ->
                      q' = setPendingSync (negb (postOk env n)) l).
Proof.
  intros Hf Hl Hs Hsame.
  destruct (sync_resolved env w serverQuotes w1 Hf)
    as [-> [Hq [Hpc [Hr _]]]].
  rewrite <- Hq in Hl. cbn zeta.
  assert (Hid : id l = i) by (eapply localMapOf_get_id; eauto).
  assert (Hu : undisputed env serverQuotes l).
  { apply undisputed_same with s; auto. now rewrite Hid. }
  destruct (mergePhase_kept env serverQuotes w1 i l Hl Hid Hu) as [Hg Hc].
  destruct (merged_of_map env serverQuotes w1 i l Hg) as [Hin _].
  assert (Hpost : toPost (serverMapOf serverQuotes) l = pendingSync l).
  { unfold toPost, JsMap.has. rewrite Hid, Hs. apply orb_false_r. }
  split; [exact Hc|]. split; [|split; [|split]].
  - rewrite syncBody_pendingConflicts, Hpc. intros c Hin' Hk.
    destruct (conflicts (mergePhase env serverQuotes w1)) eqn:E; auto.
    exfalso. exact (Hc c Hin' Hk).
  - intros q' Hq' Hi.
    destruct (syncBody_stored env serverQuotes w1 l Hin) as [q2 [Hq2 Hc2]].
    assert (E : q' = q2).
    { apply (nodup_map_inj _ _ id _ q' q2
               (syncBody_nodup env serverQuotes w1)); auto.
      replace (id q2) with (id l); [congruence|].
      apply (f_equal (fun c => fst (fst (fst c)))) in Hc2. now simpl in Hc2. }
    now rewrite E.
  - intros Hp.
    assert (Hstored : In l (quotes (syncBody env serverQuotes w1))).
    { apply syncBody_unposted; auto. now rewrite Hpost. }
    split; [exact Hstored|]. split.
    + intros q' Hq' Hi.
      apply (nodup_map_inj _ _ id _ q' l
               (syncBody_nodup env serverQuotes w1)); auto. congruence.
    + intros q'. rewrite syncBody_requests, Hr, !in_app_iff.
      intros [[H|H]|H]; [now left | simpl in H; intuition discriminate |].
      right. apply in_map_iff in H. destruct H as [q2 [[= ->] H]].
      apply filter_In in H. destruct H as [Hm Hp'].
      intros Hi.
      assert (E : q' = l).
      { apply (nodup_map_inj _ _ id _ q' l
                 (merged_nodup env serverQuotes w1)); auto. congruence. }
      rewrite E in Hp'. congruence.
  - intros Hp. rewrite <- Hpost in Hp.
    assert (Hfil : In l (filter (toPost (serverMapOf serverQuotes))
                           (mergedOf (mergePhase env serverQuotes w1)))).
    { apply filter_In. now split. }
    apply In_nth_error in Hfil. destruct Hfil as [k Hk].
    exists (List.length (requests w1) + k).
    split; [rewrite Hr, length_app; simpl; lia|].
    split; [now apply syncBody_request_nth|].
    split; [intros w0 <-; apply post_answer|].
    split; [reflexivity|]. split.
    + now apply syncBody_posted_nth.
    + intros q' Hq' Hi. apply (syncBody_posted_only env serverQuotes w1 k);
        auto. congruence.
Qed.

(** C10, as the code has it.  The pass posts what the merged array holds
    that is pending or that the server does not list, and nothing else.  So
    a local quote that the server does not list is posted, and so is a
    pending local quote that the server lists already, as long as the
    server's record does not diverge from it.  A local quote that the
    server lists with another text and another time is not posted, pending
    or not: the first loop has put the server's record in its place, not
    pending. *)
Theorem pending_records_posted env w serverQuotes w1 :
  fetchServerQuotes env w = (Resolved serverQuotes, w1) ->
  let w' := syncWithServer env w in
  let serverMap := serverMapOf serverQuotes in
  let merged := mergedOf (mergePhase env serverQuotes w1) in
  requests w' = requests w ++ GET :: map POST (filter (toPost serverMap) merged)
  /\ (forall q, In q merged -> JsMap.has serverMap (id q) = false ->
                In (POST q) (requests w'))
  /\ (forall q, In q merged -> pendingSync q = true ->
                In (POST q) (requests w'))
  /\ (forall i l, JsMap.get (localMapOf (quotes w)) i = Some l ->
                  undisputed env serverQuotes l ->
                  JsMap.has serverMap i = false \/ pendingSync l = true ->
                  In (POST l) (requests w'))
  /\ (forall i l s t,
        JsMap.get (localMapOf (quotes w)) i = Some l ->
        JsMap.get serverMap i = Some s ->
        slastModified s = Some t -> lastModified l <> t ->
        text l <> stext s ->
        In (mkQuote i (stext s) (scategory s) t false) (quotes w')
        /\ forall q', In (POST q') (requests w') ->
                      In (POST q') (requests w) \/ id q' <> i).
Proof.
  intros Hf.
  destruct (sync_resolved env w serverQuotes w1 Hf) as [-> [Hq [_ [Hr _]]]].
  cbn zeta.
  assert (Hposted : forall q,
            In q (mergedOf (mergePhase env serverQuotes w1)) ->
            toPost (serverMapOf serverQuotes) q = true ->
            In (POST q) (requests (syncBody env serverQuotes w1))).
  { intros q Hin Hp.
    now destruct (syncBody_posted env serverQuotes w1 q Hin Hp). }
  split; [|split; [|split; [|split]]].
  - rewrite syncBody_requests, Hr, <- app_assoc. reflexivity.
  - intros q Hin Hh. apply Hposted; auto. unfold toPost. rewrite Hh.
    apply orb_true_r.
  - intros q Hin Hp. apply Hposted; auto. unfold toPost. now rewrite Hp.
  - intros i l Hl Hu Hcase. rewrite <- Hq in Hl.
    assert (Hid : id l = i) by (eapply localMapOf_get_id; eauto).
    destruct (mergePhase_kept env serverQuotes w1 i l Hl Hid Hu) as [Hg _].
    destruct (merged_of_map env serverQuotes w1 i l Hg) as [Hin _].
    apply Hposted; auto. unfold toPost. rewrite Hid.
    destruct Hcase as [->| ->]; auto using orb_true_r.
  - intros i l s t Hl Hs Ht Hlm Htx. rewrite <- Hq in Hl.
    destruct (syncBody_conflict env serverQuotes w1 i l s t Hl Hs Ht Hlm Htx)
      as [Hin [_ Hno]].
    split; [exact Hin|].
    intros q'. rewrite syncBody_requests, Hr, !in_app_iff.
    intros [[H|H]|H]; [now left | simpl in H; intuition discriminate |].
    right. apply in_map_iff in H. destruct H as [q2 [[= ->] H]].
    now apply Hno.
Qed.

(** C6, as the code has it.  Every quote selected for posting is posted,
    in order, whether or not an earlier post failed.  [postQuoteToServer]
    reports ok when the HTTP server took the quote, and also when the HTTP
    request failed and the simulated server took it; it reports a failure
    only when both failed.  The [k]-th quote selected is stored, alone
    under its id, not pending when the answer to its own request was ok and
    pending otherwise.
    What the next pass does with a quote that is pending after this one
    depends on its fetch.  When the fetch rejects, nothing is posted and
    the quotes stay as they are.  When it resolves with nothing that
    diverges from the quote, the quote is posted again and stays single
    under its id.  When it resolves with a record of that id that has
    another text and another time, the server's record is stored in its
    place, not pending, and no quote of that id is posted. *)
Theorem push_phase_flags env w serverQuotes w1 :
  fetchServerQuotes env w = (Resolved serverQuotes, w1) ->
  let w' := syncWithServer env w in
  let pendingToPost :=
    filter (toPost (serverMapOf serverQuotes))
           (mergedOf (mergePhase env serverQuotes w1)) in
  let first := S (List.length (requests w)) in
  requests w' = requests w ++ GET :: map POST pendingToPost
  /\ (forall lq w0,
        fst (postQuoteToServer env lq w0)
        = postOk env (List.length (requests w0))
        /\ postOk env (List.length (requests w0))
           = (httpPost env (List.length (requests w0))
              || negb (simFault env (List.length (requests w0)))))
  /\ (forall k lq, nth_error pendingToPost k = Some lq ->
        nth_error (requests w') (first + k) = Some (POST lq)
        /\ In (setPendingSync (negb (postOk env (first + k))) lq) (quotes w')
        /\ forall q', In q' (quotes w') -> id q' = id lq ->
                      q' = setPendingSync (negb (postOk env (first + k))) lq)
  /\ (forall q, In q (quotes w') -> pendingSync q = true ->
        let w'' := syncWithServer env w' in
        (forall w2, fetchServerQuotes env w' = (Rejected, w2) ->
           quotes w'' = quotes w' /\ requests w'' = requests w' ++ [GET])
        /\ (forall serverQuotes2 w2,
              fetchServerQuotes env w' = (Resolved serverQuotes2, w2) ->
              undisputed env serverQuotes2 q ->
              (exists rest, requests w'' = requests w' ++ GET :: rest
                            /\ In (POST q) rest)
              /\ (exists q', In q' (quotes w'') /\ core q' = core q)
              /\ NoDup (map id (quotes w'')))
        /\ (forall serverQuotes2 w2 s t,
              fetchServerQuotes env w' = (Resolved serverQuotes2, w2) ->
              JsMap.get (serverMapOf serverQuotes2) (id q) = Some s ->
              slastModified s = Some t -> lastModified q <> t ->
              text q <> stext s ->
              In (mkQuote (id q) (stext s) (scategory s) t false) (quotes w'')
              /\ (forall q', In q' (quotes w'') -> id q' = id q ->
                    q' = mkQuote (id q) (stext s) (scategory s) t false)
              /\ exists rest, requests w'' = requests w' ++ GET :: rest
                              /\ forall q', In (POST q') rest ->
                                            id q' <> id q)).
Proof.
  intros Hf.
  destruct (sync_resolved env w serverQuotes w1 Hf) as [E [Hq [_ [Hr _]]]].
  assert (Hnd : NoDup (map id (quotes (syncWithServer env w)))).
  { rewrite E. apply syncBody_nodup. }
  assert (Hfirst : forall k, S (List.length (requests w)) + k
                             = List.length (requests w1) + k).
  { intros k. rewrite Hr, length_app. simpl. lia. }
  cbn zeta. split; [|split; [|split]].
  - rewrite E, syncBody_requests, Hr, <- app_assoc. reflexivity.
  - intros lq w0. split; [apply post_answer | reflexivity].
  - intros k lq Hk. rewrite E, Hfirst. split; [|split].
    + now apply syncBody_request_nth.
    + now apply syncBody_posted_nth.
    + intros q' Hq' Hid. now apply (syncBody_posted_only env serverQuotes w1 k).
  - intros q Hin Hp.
    set (w' := syncWithServer env w) in *.
    split; [|split].
    + intros w2 Hf2. destruct (sync_rejected env w' w2 Hf2) as [H1 [_ [_ [_ H5]]]].
      split; assumption.
    + intros sq2 w2 Hf2 Hu.
      destruct (sync_resolved env w' sq2 w2 Hf2) as [E2 [Hq2 [_ [Hr2 _]]]].
      assert (Hg : JsMap.get (localMapOf (quotes w2)) (id q) = Some q).
      { rewrite Hq2. now apply localMapOf_get_in. }
      destruct (mergePhase_kept env sq2 w2 (id q) q Hg eq_refl Hu) as [Hg' _].
      destruct (merged_of_map env sq2 w2 (id q) q Hg') as [Hin' _].
      rewrite E2. split; [|split].
      * exists (map POST (filter (toPost (serverMapOf sq2))
                                 (mergedOf (mergePhase env sq2 w2)))).
        split.
        -- rewrite syncBody_requests, Hr2, <- app_assoc. reflexivity.
        -- apply in_map. apply filter_In. split; auto.
           unfold toPost. now rewrite Hp.
      * now apply syncBody_stored.
      * apply syncBody_nodup.
    + intros sq2 w2 s t Hf2 Hs Ht Hlm Htx.
      destruct (sync_resolved env w' sq2 w2 Hf2) as [E2 [Hq2 [_ [Hr2 _]]]].
      assert (Hg : JsMap.get (localMapOf (quotes w2)) (id q) = Some q).
      { rewrite Hq2. now apply localMapOf_get_in. }
      destruct (syncBody_conflict env sq2 w2 (id q) q s t Hg Hs Ht Hlm Htx)
        as [H1 [H2 H3]].
      rewrite E2. split; [exact H1|]. split; [exact H2|].
      exists (map POST (filter (toPost (serverMapOf sq2))
                               (mergedOf (mergePhase env sq2 w2)))).
      split.
      * rewrite syncBody_requests, Hr2, <- app_assoc. reflexivity.
      * intros q' Hq'. apply in_map_iff in Hq'.
        destruct Hq' as [q2 [[= ->] Hq']]. now apply H3.
Qed.

Lemma in_dropConflict conf cs c :
  In c (dropConflict conf cs) <-> In c cs /\ cid c <> cid conf.
Proof.
  unfold dropConflict. rewrite filter_In, negb_true_iff, String.eqb_neq.
  tauto.
Qed.

(** C8, as the code has it.  An entry leaves the registry when the user
    accepts the server's side of it, when the user keeps the local side and
    the post succeeds, when the user resolves all entries at once, or when
    a later pass finds a conflict of its own: that pass replaces the whole
    registry by what it found.  A pass that finds no conflict leaves the
    registry as it was. *)
Theorem registry_lifecycle env w serverQuotes w1 conf :
  fetchServerQuotes env w = (Resolved serverQuotes, w1) ->
  pendingConflicts (keepServer conf w)
  = dropConflict conf (pendingConflicts w)
  /\ pendingConflicts (keepLocal env conf w)
     = match find (fun q => String.eqb (id q) (cid conf)) (quotes w) with
       | Some _ =>
           if postOk env (List.length (requests w))
           then dropConflict conf (pendingConflicts w)
           else pendingConflicts w
       | None => pendingConflicts w
       end
  /\ (forall c, In c (dropConflict conf (pendingConflicts w)) ->
                cid c <> cid conf)
  /\ pendingConflicts (resolveAllServer w) = []
  /\ pendingConflicts (resolveAllLocal env w) = []
  /\ pendingConflicts (syncWithServer env w)
     = match conflicts (mergePhase env serverQuotes w1) with
       | [] => pendingConflicts w
       | _ :: _ => conflicts (mergePhase env serverQuotes w1)
       end.
Proof.
  intros Hf. split; [|split; [|split; [|split; [|split]]]].
  - unfold keepServer.
    destruct (find _ (quotes w)) as [[idx q]|]; reflexivity.
  - unfold keepLocal.
    destruct (find _ (quotes w)) as [[idx localQ]|]; [|reflexivity].
    simpl.
    match goal with |- context [postQuoteToServer env ?q ?w0] =>
      pose proof (post_answer env q w0) as Ha;
      pose proof (post_page env q w0) as Hp;
      destruct (postQuoteToServer env q w0) as [ok w2] end.
    simpl in Ha, Hp. destruct Hp as [_ [Hp _]]. rewrite <- Ha.
    destruct ok; simpl; now rewrite Hp.
  - intros c Hc. now apply in_dropConflict in Hc.
  - reflexivity.
  - reflexivity.
  - destruct (sync_resolved env w serverQuotes w1 Hf) as [-> [_ [Hpc _]]].
    now rewrite syncBody_pendingConflicts, Hpc.
Qed.

(** ** Two passes in a row *)

(** After a pass no record of the server's list diverges from what is
    stored under its id, when the server gives a time for each record. *)
Lemma settled_after_pass env serverQuotes w k s :
  Forall (fun s => slastModified s <> None) serverQuotes ->
  In (k, s) (serverMapOf serverQuotes) ->
  exists l,
    JsMap.get (localMapOf (quotes (syncBody env serverQuotes w))) k = Some l
    /\ forall n, diverge (lastModified l)
                   (fst (orNow env (slastModified s) n)) l s = false.
Proof.
  intros Hlm Hin.
  assert (Hs : JsMap.get (serverMapOf serverQuotes) k = Some s).
  { apply in_get_nodup; auto. apply nodup_serverMapOf. }
  assert (Ht : exists t, slastModified s = Some t).
  { unfold serverMapOf in Hin. apply in_ofEntries in Hin.
    apply in_map_iff in Hin. destruct Hin as [s' [[= _ ->] Hin]].
    rewrite Forall_forall in Hlm. specialize (Hlm _ Hin).
    destruct (slastModified s) as [t|]; [now exists t|congruence]. }
  destruct Ht as [t Ht].
  assert (Hfinish : forall q,
            In q (mergedOf (mergePhase env serverQuotes w)) -> id q = k ->
            (forall n, diverge (lastModified q)
                         (fst (orNow env (slastModified s) n)) q s = false) ->
            exists l,
              JsMap.get (localMapOf (quotes (syncBody env serverQuotes w))) k
              = Some l
              /\ forall n, diverge (lastModified l)
                             (fst (orNow env (slastModified s) n)) l s
                           = false).
  { intros q Hq Hid Hd.
    destruct (syncBody_stored env serverQuotes w q Hq) as [q' [Hq' Hc]].
    exists q'. split.
    - replace k with (id q').
      + apply localMapOf_get_in; auto. apply syncBody_nodup.
      + apply (f_equal (fun c => fst (fst (fst c)))) in Hc. simpl in Hc.
        congruence.
    - intros n. rewrite (diverge_core env q q' s n Hc). apply Hd. }
  assert (Htext : forall q n, text q = stext s ->
            diverge (lastModified q)
              (fst (orNow env (slastModified s) n)) q s = false).
  { intros q n Hx. unfold diverge. rewrite Hx, String.eqb_refl.
    apply andb_false_r. }
  destruct (JsMap.get (localMapOf (quotes w)) k) as [l|] eqn:Hl.
  - assert (Hid : id l = k) by (eapply localMapOf_get_id; eauto).
    destruct (diverge (lastModified l) t l s) eqn:Hdiv.
    + destruct (mergePhase_conflict env serverQuotes w k l s t Hl Hs Ht Hdiv)
        as [_ Hg].
      destruct (merged_of_map env serverQuotes w k _ Hg) as [Hq _].
      apply (Hfinish _ Hq); auto.
    + assert (Hu : undisputed env serverQuotes l).
      { intros s' Hs' n. rewrite Hid, Hs in Hs'. injection Hs' as <-.
        now rewrite Ht. }
      destruct (mergePhase_kept env serverQuotes w k l Hl Hid Hu) as [Hg _].
      destruct (merged_of_map env serverQuotes w k _ Hg) as [Hq _].
      apply (Hfinish _ Hq); auto.
      intros n. now rewrite Ht.
  - destruct (mergePhase_absent env serverQuotes w k s Hs Hl)
      as [lm [Hq _]].
    apply merged_of_newLocal in Hq. apply (Hfinish _ Hq); auto.
Qed.

(** A pass over a list the store has already settled with merges nothing:
    it finds no conflict, adds nothing, and its merged array is the list of
    quotes it started from. *)
Lemma settled_pass_quiet env serverQuotes w :
  NoDup (map id (quotes w)) ->
  (forall k s, In (k, s) (serverMapOf serverQuotes) ->
     exists l, JsMap.get (localMapOf (quotes w)) k = Some l
               /\ forall n, diverge (lastModified l)
                              (fst (orNow env (slastModified s) n)) l s
                            = false) ->
  let m := mergePhase env serverQuotes w in
  conflicts m = [] /\ newLocal m = [] /\ mergedOf m = quotes w.
Proof.
  intros Hnd Hsettled. cbn zeta.
  destruct (mergeLoop_quiet env (serverMapOf serverQuotes)
              (mkMerge (localMapOf (quotes w)) [] [] (ticks w)) Hsettled)
    as [E1 [E2 E3]].
  simpl in E1, E2, E3.
  change (localMap (mergePhase env serverQuotes w) = localMapOf (quotes w))
    in E1.
  change (newLocal (mergePhase env serverQuotes w) = []) in E2.
  change (conflicts (mergePhase env serverQuotes w) = []) in E3.
  split; [exact E3|]. split; [exact E2|].
  unfold mergedOf. rewrite E1, E2. simpl.
  rewrite localMapOf_nodup by assumption.
  unfold JsMap.values. rewrite map_map. simpl. apply map_id.
Qed.

(** C5. A second pass that gets the same list from the server as the
    pass before it, with no edit in between, finds no conflict, leaves the
    registry as it was, and leaves every stored quote with the id, text,
    category and time it had, in the same place. *)
Theorem second_pass_quiet env w serverQuotes wa wb :
  Forall (fun s => slastModified s <> None) serverQuotes ->
  fetchServerQuotes env w = (Resolved serverQuotes, wa) ->
  fetchServerQuotes env (syncWithServer env w)
  = (Resolved serverQuotes, wb) ->
  let w1 := syncWithServer env w in
  let w2 := syncWithServer env w1 in
  conflicts (mergePhase env serverQuotes wb) = []
  /\ pendingConflicts w2 = pendingConflicts w1
  /\ map core (quotes w2) = map core (quotes w1)
  /\ map lastModified (quotes w2) = map lastModified (quotes w1).
Proof.
  intros Hlm Hf1 Hf2. cbn zeta.
  destruct (sync_resolved env w serverQuotes wa Hf1) as [E1 _].
  destruct (sync_resolved env _ serverQuotes wb Hf2) as [E2 [Hq [Hpc _]]].
  rewrite E2. rewrite E1 in Hq, Hpc. rewrite E1.
  assert (Hnd : NoDup (map id (quotes wb))).
  { rewrite Hq. apply syncBody_nodup. }
  assert (Hsettled : forall k s, In (k, s) (serverMapOf serverQuotes) ->
     exists l, JsMap.get (localMapOf (quotes wb)) k = Some l
               /\ forall n, diverge (lastModified l)
                              (fst (orNow env (slastModified s) n)) l s
                            = false).
  { intros k s Hin. rewrite Hq. now apply settled_after_pass. }
  destruct (settled_pass_quiet env serverQuotes wb Hnd Hsettled)
    as [Hc [_ Hm]].
  assert (Hcore : map core (quotes (syncBody env serverQuotes wb))
                  = map core (quotes (syncBody env serverQuotes wa))).
  { now rewrite syncBody_core, Hm, Hq. }
  split; [exact Hc|]. split; [|split; [exact Hcore|]].
  - now rewrite syncBody_pendingConflicts, Hc, Hpc.
  - assert (E : forall qs, map lastModified qs = map snd (map core qs)).
    { intros qs. rewrite map_map. reflexivity. }
    now rewrite !E, Hcore.
Qed.

(** * The properties on sample pages *)

(** A conflict between [quoteA] and the server's "B": the entry is
    recorded and the server's record is stored. *)
Lemma conflict_recorded_sample :
  let w' := syncWithServer (online [postB] 200) (page [quoteA; draft1]) in
  In conflictAB (pendingConflicts w')
  /\ In (mkQuote "1" "B" "User-7" 200 false) (quotes w').
Proof.
  pose proof (conflict_recorded_server_wins
                (online [postB] 200) (page [quoteA; draft1]) [serverB]
                (snd (fetchServerQuotes (online [postB] 200)
                        (page [quoteA; draft1])))
                "1" quoteA serverB 200%Z) as H.
  cbn zeta in *. split; apply H; try reflexivity; discriminate.
Defined.

(** C2 as stated fails whenever the HTTP server is out of reach.  On a
    page with one pending quote the pass goes on against the simulated
    server: it posts the quote and clears its flag, and announces nothing.
    On a page whose quote was edited through an import after the simulated
    server had been seeded, the pass puts the older text back and records a
    conflict. *)
Lemma remote_fetch_failure_not_aborted :
  let env := unreachable in
  let w := page [draft1] in
  let w' := syncWithServer env w in
  let wb := importOnLoad env (Some (QuoteArray [Some edited]))
              (syncWithServer env (page [settled])) in
  let wc := syncWithServer env wb in
  httpGet env (List.length (requests w)) = None
  /\ requests w' = [GET; POST draft1]
  /\ quotes w' = [setPendingSync false draft1]
  /\ quotes w' <> quotes w
  /\ notices w' = []
  /\ httpGet env (List.length (requests wb)) = None
  /\ quotes wb = [mkQuote "1" "edited" "M" 300 false]
  /\ pendingConflicts wb = []
  /\ quotes wc = [settled]
  /\ pendingConflicts wc
     = [mkConflict "1" (mkQuote "1" "edited" "M" 300 false)
                   (mkServerCopy "1" "A" "M" 100)]
  /\ notices wc = [(ConflictsDetected 1, true)].
Proof. cbn zeta. repeat split; try reflexivity. discriminate. Qed.

(** With the HTTP server out of reach the pass runs against the
    simulated server; when that one throws too it leaves the page alone. *)
Lemma remote_fetch_failure_sample :
  (let w' := syncWithServer unreachable (page [draft1]) in
   requests w' = [GET; POST draft1] /\ saved w' = quotes w')
  /\ (let w := page [quoteA] in
      let w' := syncWithServer (offline (fun _ => true)) w in
      quotes w' = quotes w /\ notices w' = [(SyncFailed, false)]).
Proof.
  split.
  - destruct (remote_fetch_failure unreachable (page [draft1]) eq_refl)
      as [_ [H _]].
    destruct (H eq_refl) as [_ [_ [H3 [H4 _]]]]. cbn zeta.
    split; [exact H3 | exact H4].
  - destruct (remote_fetch_failure (offline (fun _ => true)) (page [quoteA])
                eq_refl) as [_ [_ H]].
    destruct (H eq_refl) as [_ [H1 [_ [_ [H2 _]]]]]. cbn zeta.
    split; [exact H1 | exact H2].
Defined.

(** C3 as stated fails on a pending quote: the server lists [quoteA] with
    the same text, no conflict arises, and yet the quote is not stored as it
    was, because the pass posts it and clears its flag. *)
Lemma pending_flag_cleared_by_post :
  let env := online [postA] 200 in
  let w := page [quoteA] in
  fst (fetchServerQuotes env w) = Resolved [serverA]
  /\ JsMap.get (localMapOf (quotes w)) "1" = Some quoteA
  /\ JsMap.get (serverMapOf [serverA]) "1" = Some serverA
  /\ text quoteA = stext serverA
  /\ pendingConflicts (syncWithServer env w) = []
  /\ quotes (syncWithServer env w) = [setPendingSync false quoteA]
  /\ ~ In quoteA (quotes (syncWithServer env w)).
Proof.
  cbn zeta. repeat split; try reflexivity.
  intros [H|[]]. discriminate H.
Qed.

Lemma undisputed_record_sample :
  let w' := syncWithServer (online [postA] 200) (page [quoteA]) in
  (forall q', In q' (quotes w') -> id q' = "1" -> core q' = core quoteA)
  /\ exists n,
       nth_error (requests w') n = Some (POST quoteA)
       /\ In (setPendingSync (negb (postOk (online [postA] 200) n)) quoteA)
             (quotes w').
Proof.
  pose proof (undisputed_record_kept
                (online [postA] 200) (page [quoteA]) [serverA]
                (snd (fetchServerQuotes (online [postA] 200) (page [quoteA])))
                "1" quoteA serverA eq_refl eq_refl eq_refl
                (or_intror eq_refl)) as H.
  cbn zeta in H. destruct H as [_ [_ [H3 [_ H5]]]].
  split; [exact H3|].
  destruct (H5 eq_refl) as [n [_ [Hn [_ [_ [Hin _]]]]]].
  exists n. split; assumption.
Defined.

(** The scenario of the tie-break rule: same text, another time on the
    server, and a quote that is not pending.  Nothing changes. *)
Example same_text_other_time_kept :
  let w' := syncWithServer (online [postA] 200)
              (page [mkQuote "1" "A" "M" 100 false]) in
  quotes w' = [mkQuote "1" "A" "M" 100 false]
  /\ pendingConflicts w' = [] /\ requests w' = [GET].
Proof. cbn zeta. repeat split; reflexivity. Qed.

(** Two local quotes under one id come out of a pass as one. *)
Lemma committed_ids_unique_sample :
  NoDup (map id (quotes (syncWithServer (online [postB] 200)
                           (page [quoteA; mkQuote "1" "A2" "M" 70 false])))).
Proof.
  exact (committed_ids_unique (online [postB] 200)
           (page [quoteA; mkQuote "1" "A2" "M" 70 false]) [serverB]
           (snd (fetchServerQuotes (online [postB] 200)
                   (page [quoteA; mkQuote "1" "A2" "M" 70 false])))
           eq_refl).
Defined.

(** A pass that records a conflict and adds a quote, followed by a pass
    over the same list: the second one changes no time. *)
Lemma second_pass_sample :
  let env := online [postB; post2] 200 in
  let w1 := syncWithServer env (page [quoteA]) in
  let w2 := syncWithServer env w1 in
  pendingConflicts w2 = pendingConflicts w1
  /\ map lastModified (quotes w2) = map lastModified (quotes w1).
Proof.
  assert (Hlm : Forall (fun s => slastModified s <> None) [serverB; server2]).
  { repeat constructor; discriminate. }
  destruct (second_pass_quiet (online [postB; post2] 200) (page [quoteA])
              [serverB; server2]
              (snd (fetchServerQuotes (online [postB; post2] 200)
                      (page [quoteA])))
              (snd (fetchServerQuotes (online [postB; post2] 200)
                      (syncWithServer (online [postB; post2] 200)
                         (page [quoteA]))))
              Hlm eq_refl eq_refl) as [_ [H2 [_ H4]]].
  split; assumption.
Defined.

(** The first of two posts fails and the second is still made: the first
    draft stays pending, the second is confirmed. *)
Lemma push_phase_sample :
  let w' := syncWithServer flaky (page [draft1; draft2]) in
  requests w' = [GET; POST draft1; POST draft2]
  /\ In draft1 (quotes w')
  /\ In (setPendingSync false draft2) (quotes w').
Proof.
  destruct (push_phase_flags flaky (page [draft1; draft2])
              [mkServerQuote "d1" "first" "M" (Some 10%Z);
               mkServerQuote "d2" "second" "M" (Some 20%Z)]
              (snd (fetchServerQuotes flaky (page [draft1; draft2])))
              eq_refl) as [H1 [_ [H2 _]]].
  cbn zeta. split; [exact H1|]. split.
  - exact (proj1 (proj2 (H2 0 draft1 eq_refl))).
  - exact (proj1 (proj2 (H2 1 draft2 eq_refl))).
Defined.

(** C6 as stated fails when the push to the HTTP server fails: the
    request that posts [draft1], request 1, gets no answer from the HTTP
    server, and yet the pass stores the quote as not pending, because the
    simulated server took it; the next pass makes its fetch and does not
    post it again. *)
Lemma failed_remote_push_clears_flag :
  let w1 := syncWithServer unreachable (page [draft1]) in
  let w2 := syncWithServer unreachable w1 in
  requests w1 = [GET; POST draft1]
  /\ httpPost unreachable 1 = false
  /\ quotes w1 = [setPendingSync false draft1]
  /\ ~ In draft1 (quotes w1)
  /\ requests w2 = [GET; POST draft1; GET].
Proof.
  cbn zeta. repeat split; try reflexivity.
  intros [H|[]]. discriminate H.
Qed.

(** A quote left pending by a failure of both servers is not retried by
    a pass that gets another text under its id: the post of [mine] fails
    and leaves it pending, and the next pass overwrites it and posts
    nothing. *)
Example retry_lost_to_conflict :
  let w1 := syncWithServer recovering (page [mine]) in
  let w2 := syncWithServer recovering w1 in
  requests w1 = [GET; POST mine]
  /\ postOk recovering 1 = false
  /\ quotes w1 = [mine] /\ pendingSync mine = true
  /\ requests w2 = [GET; POST mine; GET]
  /\ quotes w2 = [mkQuote "1" "theirs" "Import" 1000 false].
Proof. cbn zeta. repeat split; reflexivity. Qed.

(** The scenario of C7: nothing local, two records on the server. *)
Lemma server_only_sample :
  let w' := syncWithServer (online [postA; post2] 200) (page []) in
  (exists q, In q (quotes w') /\ id q = "2" /\ text q = "T"
             /\ pendingSync q = false /\ lastModified q = 200%Z)
  /\ notices w' = [(NewQuotesSynced 2, false)].
Proof.
  destruct (server_only_added (online [postA; post2] 200) (page [])
              [serverA; server2]
              (snd (fetchServerQuotes (online [postA; post2] 200) (page [])))
              "2" server2 eq_refl eq_refl eq_refl) as [H1 [_ [_ [H3 _]]]].
  cbn zeta. split.
  - destruct H1 as [q [Hin [_ [Hid [Ht [_ [Hp Hlm]]]]]]].
    exists q. repeat split; auto.
  - exact (H3 eq_refl).
Defined.

(** C7 as stated fails on a pass that also finds a conflict: the record
    with id 2 is added, and all the pass announces is the conflict; no
    count of additions is given. *)
Lemma added_count_hidden_by_conflict :
  let env := online [postB; post2] 200 in
  let w := page [quoteA] in
  let w' := syncWithServer env w in
  fst (fetchServerQuotes env w) = Resolved [serverB; server2]
  /\ JsMap.get (localMapOf (quotes w)) "2" = None
  /\ In (mkQuote "2" "T" "Import" 200 false) (quotes w')
  /\ notices w' = [(ConflictsDetected 1, true)].
Proof.
  cbn zeta. repeat split; try reflexivity. right. now left.
Qed.

Example two_records_added :
  quotes (syncWithServer (online [postA; post2] 200) (page []))
  = [mkQuote "1" "A" "User-7" 200 false; mkQuote "2" "T" "Import" 200 false].
Proof. reflexivity. Qed.

(** C8 as stated fails on a quiet pass: the entry recorded by the first
    pass is still in the registry after a second pass that compared the
    same pair and found nothing to report. *)
Lemma stale_entry_survives_quiet_pass :
  let env := online [postB] 200 in
  let w1 := syncWithServer env (page [quoteA]) in
  let w2 := syncWithServer env w1 in
  pendingConflicts w1 = [conflictAB]
  /\ fst (fetchServerQuotes env w1) = Resolved [serverB]
  /\ conflicts (mergePhase env [serverB] (snd (fetchServerQuotes env w1))) = []
  /\ pendingConflicts w2 = [conflictAB].
Proof. cbn zeta. repeat split; reflexivity. Qed.

Lemma registry_lifecycle_sample :
  let env := online [postB] 200 in
  let w1 := syncWithServer env (page [quoteA]) in
  pendingConflicts (keepServer conflictAB w1) = []
  /\ pendingConflicts (keepLocal env conflictAB w1) = []
  /\ pendingConflicts (syncWithServer env w1) = [conflictAB].
Proof.
  destruct (registry_lifecycle (online [postB] 200)
              (syncWithServer (online [postB] 200) (page [quoteA]))
              [serverB]
              (snd (fetchServerQuotes (online [postB] 200)
                      (syncWithServer (online [postB] 200) (page [quoteA]))))
              conflictAB eq_refl) as [H1 [H2 [_ [_ [_ H6]]]]].
  cbn zeta. split; [|split].
  - rewrite H1. reflexivity.
  - rewrite H2. reflexivity.
  - rewrite H6. reflexivity.
Defined.

(** The value [{"not": "an array"}] is refused. *)
Lemma non_array_import_sample :
  let w := page [quoteA] in
  let w' := importOnLoad (offline (fun _ => false))
              (Some (VObject [("not", JString "an array")])) w in
  display w' = ImportInvalidFormat /\ quotes w' = quotes w.
Proof.
  destruct (non_array_import_rejected (offline (fun _ => false))
              (VObject [("not", JString "an array")]) (page [quoteA])
              eq_refl) as [H1 [H2 _]].
  split; assumption.
Defined.

(** C10 as stated fails when the server's record diverges: [quoteA] is
    pending and the server lists its id, with another text and another
    time; the pass makes its fetch and no post, and stores the server's
    record. *)
Lemma pending_record_lost_to_conflict :
  let env := online [postB] 200 in
  let w := page [quoteA] in
  let w' := syncWithServer env w in
  In quoteA (quotes w) /\ pendingSync quoteA = true
  /\ fst (fetchServerQuotes env w) = Resolved [serverB]
  /\ JsMap.has (serverMapOf [serverB]) (id quoteA) = true
  /\ requests w' = [GET]
  /\ ~ In (POST quoteA) (requests w')
  /\ quotes w' = [mkQuote "1" "B" "User-7" 200 false].
Proof.
  cbn zeta. repeat split; try reflexivity.
  - now left.
  - intros [H|[]]. discriminate H.
Qed.

(** [quoteA] is pending and the server lists its id with the same text: it
    is posted. *)
Lemma pending_posted_sample :
  In (POST quoteA)
     (requests (syncWithServer (online [postA] 200) (page [quoteA]))).
Proof.
  destruct (pending_records_posted (online [postA] 200) (page [quoteA])
              [serverA]
              (snd (fetchServerQuotes (online [postA] 200) (page [quoteA])))
              eq_refl) as [_ [_ [_ [H _]]]].
  apply (H "1" quoteA eq_refl).
  - apply undisputed_same with serverA; [reflexivity | now right].
  - now right.
Defined.

(** * Further properties *)

(** ** Escaping *)

Lemma chars_append s1 s2 :
  list_ascii_of_string (String.append s1 s2)
  = list_ascii_of_string s1 ++ list_ascii_of_string s2.
Proof. induction s1 as [|c s1 IH]; simpl; [reflexivity | now rewrite IH]. Qed.

Lemma escapeChar_plain c :
  isMarkup c = false -> escapeChar c = String c EmptyString.
Proof.
  unfold isMarkup, escapeChar. intros H.
  repeat (apply orb_false_iff in H; destruct H as [H ?]).
  now repeat match goal with E : Ascii.eqb _ _ = false |- _ =>
    rewrite E; clear E end.
Qed.

Lemma escapeChar_markup c :
  isMarkup c = true ->
  c = "&"%char /\ escapeChar c = "&amp;"
  \/ c = "<"%char /\ escapeChar c = "&lt;"
  \/ c = ">"%char /\ escapeChar c = "&gt;"
  \/ c = "034"%char /\ escapeChar c = "&quot;"
  \/ c = "'"%char /\ escapeChar c = "&#39;".
Proof.
  unfold isMarkup, escapeChar. intros H.
  destruct (Ascii.eqb_spec c "&") as [E|_]; [subst; now left|].
  destruct (Ascii.eqb_spec c "<") as [E|_]; [subst; right; now left|].
  destruct (Ascii.eqb_spec c ">") as [E|_]; [subst; right; right; now left|].
  destruct (Ascii.eqb_spec c "034") as [E|_];
    [subst; right; right; right; now left|].
  destruct (Ascii.eqb_spec c "'") as [E|_];
    [subst; right; right; right; now right|].
  discriminate.
Qed.

(** X1. What [escapeHtml] returns holds no angle bracket, no double quote
    and no apostrophe, so that it cannot open or close a tag or an
    attribute; and a text without any of the five characters comes back as
    it is. *)
Theorem escapeHtml_no_markup s :
  (forall c, In c (list_ascii_of_string (escapeHtml s)) ->
             c <> "<"%char /\ c <> ">"%char /\ c <> "034"%char
             /\ c <> "'"%char)
  /\ ((forall c, In c (list_ascii_of_string s) -> isMarkup c = false) ->
      escapeHtml s = s).
Proof.
  induction s as [|c0 s [IH1 IH2]]; simpl.
  - split; [tauto | reflexivity].
  - split.
    + intros c. rewrite chars_append, in_app_iff. intros [Hc|Hc]; auto.
      destruct (isMarkup c0) eqn:Hm.
      * destruct (escapeChar_markup c0 Hm)
          as [[_ E]|[[_ E]|[[_ E]|[[_ E]|[_ E]]]]];
          rewrite E in Hc; simpl in Hc;
          repeat (destruct Hc as [<-|Hc];
                  [repeat split; discriminate|]); destruct Hc.
      * rewrite (escapeChar_plain c0 Hm) in Hc. simpl in Hc.
        destruct Hc as [<-|[]].
        unfold isMarkup in Hm.
        repeat (apply orb_false_iff in Hm; destruct Hm as [Hm ?]).
        repeat split; intros ->; discriminate.
    + intros Hplain. rewrite escapeChar_plain by (apply Hplain; now left).
      simpl. f_equal. apply IH2. intros c Hc. apply Hplain. now right.
Qed.

Lemma escapeChar_prefix_free c1 c2 x y :
  String.append (escapeChar c1) x = String.append (escapeChar c2) y ->
  c1 = c2 /\ x = y.
Proof.
  intros E.
  destruct (isMarkup c1) eqn:H1, (isMarkup c2) eqn:H2.
  - destruct (escapeChar_markup c1 H1)
      as [[-> E1]|[[-> E1]|[[-> E1]|[[-> E1]|[-> E1]]]]];
    destruct (escapeChar_markup c2 H2)
      as [[-> E2]|[[-> E2]|[[-> E2]|[[-> E2]|[-> E2]]]]];
    rewrite ?E1, ?E2 in E; simpl in E; try discriminate;
    (split; [reflexivity | now inversion E]).
  - rewrite (escapeChar_plain c2 H2) in E.
    destruct (escapeChar_markup c1 H1)
      as [[_ E1]|[[_ E1]|[[_ E1]|[[_ E1]|[_ E1]]]]];
    rewrite E1 in E; simpl in E; inversion E; subst; discriminate.
  - rewrite (escapeChar_plain c1 H1) in E.
    destruct (escapeChar_markup c2 H2)
      as [[_ E2]|[[_ E2]|[[_ E2]|[[_ E2]|[_ E2]]]]];
    rewrite E2 in E; simpl in E; inversion E; subst; discriminate.
  - rewrite (escapeChar_plain c1 H1), (escapeChar_plain c2 H2) in E.
    simpl in E. now inversion E.
Qed.

Lemma escapeChar_not_empty c x : String.append (escapeChar c) x <> EmptyString.
Proof.
  destruct (isMarkup c) eqn:H.
  - destruct (escapeChar_markup c H)
      as [[_ E]|[[_ E]|[[_ E]|[[_ E]|[_ E]]]]]; rewrite E; discriminate.
  - rewrite (escapeChar_plain c H). discriminate.
Qed.

(** X2. Escaping loses nothing: two texts with the same escaped form are
    the same text. *)
Theorem escapeHtml_injective s1 s2 :
  escapeHtml s1 = escapeHtml s2 -> s1 = s2.
Proof.
  revert s2. induction s1 as [|c1 s1 IH]; intros [|c2 s2]; simpl; intros E.
  - reflexivity.
  - symmetry in E. now apply escapeChar_not_empty in E.
  - now apply escapeChar_not_empty in E.
  - apply escapeChar_prefix_free in E. destruct E as [-> E].
    f_equal. now apply IH.
Qed.

(** ** Categories and the quote shown *)

Lemma existsb_eqb_in x (seen : list string) :
  existsb (String.eqb x) seen = true <-> In x seen.
Proof.
  rewrite existsb_exists. split.
  - intros [y [Hy E]]. apply String.eqb_eq in E. now subst.
  - intros H. exists x. split; [assumption | apply String.eqb_refl].
Qed.

Lemma newSet_fold_in xs seen c :
  In c (fold_left (fun seen x => if existsb (String.eqb x) seen then seen
                                 else seen ++ [x]) xs seen)
  <-> In c seen \/ In c xs.
Proof.
  revert seen. induction xs as [|x xs IH]; simpl; intros seen; [tauto|].
  rewrite IH. destruct (existsb (String.eqb x) seen) eqn:E.
  - apply existsb_eqb_in in E. intuition congruence.
  - rewrite in_app_iff. simpl. intuition congruence.
Qed.

Lemma newSet_fold_nodup xs seen :
  NoDup seen ->
  NoDup (fold_left (fun seen x => if existsb (String.eqb x) seen then seen
                                  else seen ++ [x]) xs seen).
Proof.
  revert seen. induction xs as [|x xs IH]; simpl; intros seen Hnd; auto.
  apply IH. destruct (existsb (String.eqb x) seen) eqn:E; auto.
  apply NoDup_app; auto.
  - repeat constructor. simpl. tauto.
  - intros y Hy [<-|[]]. apply existsb_eqb_in in Hy. congruence.
Qed.

(** X3. The categories offered hold every category of the list exactly
    once; a quote added at the end leaves them as they are when its
    category is known and appends its category otherwise. *)
Theorem unique_categories qs :
  NoDup (getUniqueCategories qs)
  /\ (forall c, In c (getUniqueCategories qs)
                <-> exists q, In q qs /\ category q = c)
  /\ (forall q, In (category q) (map category qs) ->
                getUniqueCategories (qs ++ [q]) = getUniqueCategories qs)
  /\ (forall q, ~ In (category q) (map category qs) ->
                getUniqueCategories (qs ++ [q])
                = getUniqueCategories qs ++ [category q]).
Proof.
  unfold getUniqueCategories, newSet.
  assert (Hin : forall c,
            In c (fold_left (fun seen x => if existsb (String.eqb x) seen
                                           then seen else seen ++ [x])
                            (map category qs) [])
            <-> In c (map category qs)).
  { intros c. rewrite newSet_fold_in. simpl. tauto. }
  split; [|split; [|split]].
  - apply newSet_fold_nodup. constructor.
  - intros c. rewrite Hin, in_map_iff. split; intros [q [H1 H2]]; eauto.
  - intros q Hq. rewrite map_app, fold_left_app. simpl.
    apply Hin, existsb_eqb_in in Hq. now rewrite Hq.
  - intros q Hq. rewrite map_app, fold_left_app. simpl.
    destruct (existsb _ _) eqn:E; auto.
    apply existsb_eqb_in, Hin in E. contradiction.
Qed.

(** X4. [filterQuotes] never fails when the draw is within the list: it
    shows the empty notice, and stores nothing, exactly when no quote fits
    the category, and otherwise shows and stores one quote of the list that
    fits it.  "All" and the empty category fit every quote. *)
Theorem filterQuotes_shows draw qs c :
  (forall n, 0 < n -> draw n < n) ->
  match filterQuotes draw qs c with
  | Some (NoQuotesFound c', None) =>
      c' = c /\ forall q, In q qs -> selects c q = false
  | Some (ShownQuote q, Some q') =>
      q' = q /\ In q qs /\ selects c q = true
  | _ => False
  end.
Proof.
  intros Hdraw. unfold filterQuotes.
  set (filtered := if String.eqb c "All" || String.eqb c "" then qs
                   else filter (fun q => String.eqb (category q) c) qs).
  assert (Hf : forall q, In q filtered <-> In q qs /\ selects c q = true).
  { intros q. unfold filtered, selects.
    destruct (String.eqb c "All" || String.eqb c ""); simpl.
    - tauto.
    - apply filter_In. }
  destruct filtered as [|q0 rest] eqn:E.
  - split; [reflexivity|]. intros q Hq.
    destruct (selects c q) eqn:Hs; auto.
    destruct (proj2 (Hf q) (conj Hq Hs)).
  - destruct (nth_error (q0 :: rest) (draw (List.length (q0 :: rest))))
      as [q|] eqn:Hn.
    + split; [reflexivity|]. apply Hf. eapply nth_error_In; eauto.
    + apply nth_error_None in Hn.
      specialize (Hdraw (List.length (q0 :: rest))). simpl in *. lia.
Qed.

(** ** Import, export and storage *)

Lemma normalize_null env items n :
  In None items -> fst (normalize env items n) = None.
Proof.
  revert n. induction items as [|[it|] items IH]; simpl; intros n Hin.
  - destruct Hin.
  - destruct Hin as [Hin|Hin]; [discriminate|].
    destruct (match iid it with Some s => (s, n) | None => uid env n end)
      as [i n1].
    destruct (orNow env (ilastModified it) n1) as [lm n2].
    specialize (IH n2 Hin).
    now destruct (normalize env items n2) as [[qs|] n3].
  - reflexivity.
Qed.

Lemma normalize_some env items n :
  ~ In None items ->
  exists qs, fst (normalize env items n) = Some qs
             /\ Forall2 normalizedFrom items qs.
Proof.
  revert n. induction items as [|[it|] items IH]; simpl; intros n Hn.
  - exists []. split; [reflexivity | constructor].
  - destruct (IH (snd (orNow env (ilastModified it)
                         (snd (match iid it with
                               | Some s => (s, n)
                               | None => uid env n
                               end)))))
      as [qs [E F]]; [tauto|].
    destruct (iid it) as [s|] eqn:Ei; simpl in *;
      destruct (ilastModified it) as [t|] eqn:Et; simpl in *;
      match type of E with fst (normalize env items ?k) = _ =>
        destruct (normalize env items k) as [[qs'|] n3] end;
      simpl in E; try discriminate; injection E as ->;
      eexists; (split; [reflexivity|]);
      constructor; auto; unfold normalizedFrom; rewrite Ei, Et; simpl;
      repeat split; auto; intros; congruence.
  - tauto.
Qed.

(** The import has read the clock once for each missing [id] and each
    missing [lastModified] it met, whether or not it came to an end. *)
Lemma normalize_readings env items n :
  snd (normalize env items n) = n + readingsFor items.
Proof.
  revert n. induction items as [|[it|] items IH]; simpl; intros n.
  - lia.
  - destruct (iid it) as [s|]; destruct (ilastModified it) as [t|]; simpl;
      match goal with |- context [normalize env items ?k] =>
        specialize (IH k); destruct (normalize env items k) as [[qs|] n3]
      end; simpl in *; lia.
  - lia.
Qed.

(** X5. An imported array with a [null] element is refused as a whole,
    with the read error: the list, its saved copy and everything else stay
    as they were, except that the clock has been read for the elements
    before the [null].  An array without one replaces the list: one quote
    for each element, in order, with the fields the element gives and the
    defaults for the others, none of them pending; the list is saved.  In
    both cases the clock is read once for each missing [id] and each
    missing [lastModified], no request is made and the registry of
    conflicts is not touched. *)
Theorem import_array env items w :
  let w' := importOnLoad env (Some (QuoteArray items)) w in
  ticks w' = ticks w + readingsFor items
  /\ pendingConflicts w' = pendingConflicts w
  /\ requests w' = requests w /\ store w' = store w
  /\ notices w' = notices w
  /\ (In None items ->
      w' = withDisplay ImportReadError
             (withTicks (ticks w + readingsFor items) w))
  /\ (~ In None items ->
      Forall2 normalizedFrom items (quotes w')
      /\ display w' = ImportSucceeded (List.length items)
      /\ saved w' = quotes w').
Proof.
  cbn zeta. unfold importOnLoad.
  pose proof (normalize_readings env items (ticks w)) as Hr.
  pose proof (normalize_null env items (ticks w)) as Hnull.
  pose proof (normalize_some env items (ticks w)) as Hsome.
  destruct (normalize env items (ticks w)) as [[qs|] n]; simpl in *; subst n.
  - split; [reflexivity|]. do 4 (split; [reflexivity|]). split.
    + intros Hin. specialize (Hnull Hin). discriminate.
    + intros Hn. destruct (Hsome Hn) as [qs' [[= <-] F]].
      split; [exact F|]. split; [now rewrite (Forall2_length F)|reflexivity].
  - split; [reflexivity|]. do 4 (split; [reflexivity|]). split.
    + intros _. reflexivity.
    + intros Hn. destruct (Hsome Hn) as [qs' [E _]]. discriminate.
Qed.

Lemma truthy_some s : s <> "" -> truthy s = Some s.
Proof.
  intros H. unfold truthy. now destruct (String.eqb_spec s "").
Qed.

Lemma truthy_default s : match truthy s with Some x => x | None => "" end = s.
Proof. unfold truthy. now destruct (String.eqb_spec s "") as [->|]. Qed.

Lemma normalize_exported env qs n :
  (forall q, In q qs -> id q <> "" /\ category q <> "") ->
  normalize env (map (fun q => Some (exported q)) qs) n
  = (Some (map (setPendingSync false) qs), n).
Proof.
  induction qs as [|q qs IH]; simpl; intros H; [reflexivity|].
  destruct (H q (or_introl eq_refl)) as [Hi Hc].
  rewrite (truthy_some _ Hi), (truthy_some _ Hc), truthy_default.
  rewrite IH by (intros q' Hq'; apply H; now right).
  reflexivity.
Qed.

(** X6. Importing the file that the export wrote gives the exported list
    back, every quote marked as not pending, when no quote has an empty id
    or category; no id is drawn and no clock is read for it. *)
Theorem export_import_round_trip env qs w :
  (forall q, In q qs -> id q <> "" /\ category q <> "") ->
  let w' := importOnLoad env (Some (exportQuotes qs)) w in
  quotes w' = map (setPendingSync false) qs
  /\ saved w' = quotes w' /\ ticks w' = ticks w.
Proof.
  intros H. unfold exportQuotes. simpl.
  rewrite (normalize_exported env qs (ticks w) H). simpl. auto.
Qed.

Lemma restore_stored env qs n :
  (forall q, In q qs -> id q <> "" /\ category q <> "") ->
  match storedOf qs with
  | StoredArray items => restore env items n = (Some qs, n)
  | _ => False
  end.
Proof.
  unfold storedOf. induction qs as [|q qs IH]; simpl; intros H;
    [reflexivity|].
  destruct (H q (or_introl eq_refl)) as [Hi Hc].
  rewrite (truthy_some _ Hi), (truthy_some _ Hc), truthy_default.
  simpl in IH. rewrite IH by (intros q' Hq'; apply H; now right).
  now destruct q.
Qed.

(** X7. Loading what was saved restores the list as it was, pending flags
    included, when no quote has an empty id or category: a page that is
    closed and opened again starts from the quotes it saved. *)
Theorem save_load_round_trip env w0 w :
  (forall q, In q (quotes w0) -> id q <> "" /\ category q <> "") ->
  loadQuotesFromLocalStorage env
    (storedOf (saved (saveQuotesToLocalStorage w0))) w
  = withQuotes (quotes w0) w.
Proof.
  intros H. simpl.
  pose proof (restore_stored env (quotes w0) (ticks w) H) as E.
  unfold storedOf in *. unfold loadQuotesFromLocalStorage. rewrite E.
  now destruct w.
Qed.




(** ** More about a pass *)

Lemma keys_localMapOf qs i :
  In i (JsMap.keys (localMapOf qs)) <-> In i (map id qs).
Proof.
  unfold localMapOf. rewrite keys_ofEntries, map_map. reflexivity.
Qed.

Lemma keys_serverMapOf sq i :
  In i (JsMap.keys (serverMapOf sq)) <-> In i (map sid sq).
Proof.
  unfold serverMapOf. rewrite keys_ofEntries, map_map. reflexivity.
Qed.

Lemma keys_localMapOf_nodup qs :
  NoDup (map id qs) -> JsMap.keys (localMapOf qs) = map id qs.
Proof.
  intros H. rewrite localMapOf_nodup by assumption.
  unfold JsMap.keys. now rewrite map_map.
Qed.

(** The quotes taken from the server end the stored list, as the first
    loop made them: none of them is posted. *)
Lemma syncBody_added env serverQuotes w :
  let m := mergePhase env serverQuotes w in
  skipn (List.length (JsMap.values (localMap m)))
        (quotes (syncBody env serverQuotes w))
  = newLocal m.
Proof.
  cbn zeta.
  destruct (mergePhase_newLocal env serverQuotes w) as [F _].
  rewrite Forall_forall in F.
  apply nth_error_ext. intros j.
  rewrite nth_error_skipn, syncBody_quotes.
  rewrite pushLoop_other.
  - rewrite merged_shape. apply nth_error_after.
  - rewrite in_positions. intros [x [Hx Hp]].
    rewrite merged_shape, nth_error_after in Hx.
    apply nth_error_In in Hx. destruct (F x Hx) as [H1 [_ H3]].
    unfold toPost in Hp. rewrite H3 in Hp. simpl in Hp.
    apply negb_true_iff in Hp. unfold JsMap.has in Hp.
    destruct (JsMap.get (serverMapOf serverQuotes) (id x)) eqn:Hg;
      [discriminate|].
    apply get_none_keys in Hg. contradiction.
Qed.

(** X9. A pass deletes no quote and invents none: the ids stored after it
    are the ids of the local list together with the ids the server lists.
    When the local ids are all different, the stored list is the local
    quotes in their places (their ids unchanged) followed by the quotes
    taken from the server: one for each id the local list did not know,
    none of them pending. *)
Theorem ids_after_pass env w serverQuotes w1 :
  fetchServerQuotes env w = (Resolved serverQuotes, w1) ->
  let w' := syncWithServer env w in
  (forall i, In i (map id (quotes w'))
             <-> In i (map id (quotes w)) \/ In i (map sid serverQuotes))
  /\ (NoDup (map id (quotes w)) ->
      exists kept added,
        quotes w' = kept ++ added
        /\ map id kept = map id (quotes w)
        /\ NoDup (map id added)
        /\ (forall q, In q added ->
              In (id q) (map sid serverQuotes)
              /\ ~ In (id q) (map id (quotes w)) /\ pendingSync q = false)
        /\ (forall i, In i (map sid serverQuotes) ->
              ~ In i (map id (quotes w)) -> In i (map id added))).
Proof.
  intros Hf.
  destruct (sync_resolved env w serverQuotes w1 Hf) as [-> [Hq _]].
  cbn zeta. rewrite <- Hq.
  destruct (mergePhase_newLocal env serverQuotes w1) as [F _].
  rewrite Forall_forall in F.
  assert (E : map id (quotes (syncBody env serverQuotes w1))
              = JsMap.keys (localMapOf (quotes w1))
                ++ map id (newLocal (mergePhase env serverQuotes w1))).
  { now rewrite syncBody_ids, merged_ids, mergePhase_keys. }
  assert (Hall : forall i,
            In i (map id (quotes (syncBody env serverQuotes w1)))
            <-> In i (map id (quotes w1)) \/ In i (map sid serverQuotes)).
  { intros i. rewrite E, in_app_iff, keys_localMapOf. split.
    + intros [H|H]; [now left|]. apply in_map_iff in H.
      destruct H as [q [<- Hin]]. right. apply keys_serverMapOf.
      now apply F.
    + intros [H|H]; [now left|].
      destruct (in_dec string_dec i (map id (quotes w1))) as [|Hn];
        [now left|]. right.
      assert (Hl : JsMap.get (localMapOf (quotes w1)) i = None).
      { apply get_none_keys. now rewrite keys_localMapOf. }
      destruct (JsMap.get (serverMapOf serverQuotes) i) as [s|] eqn:Hs.
      * destruct (mergePhase_absent env serverQuotes w1 i s Hs Hl)
          as [lm [Hin _]].
        apply in_map_iff. eexists. split; [|exact Hin]. reflexivity.
      * apply get_none_keys in Hs. rewrite keys_serverMapOf in Hs.
        contradiction. }
  split; [exact Hall|].
  intros Hnd.
  exists (firstn (List.length
                    (JsMap.values
                       (localMap (mergePhase env serverQuotes w1))))
                 (quotes (syncBody env serverQuotes w1))),
         (newLocal (mergePhase env serverQuotes w1)).
  assert (Hsplit : quotes (syncBody env serverQuotes w1)
                   = firstn (List.length
                               (JsMap.values
                                  (localMap (mergePhase env serverQuotes w1))))
                            (quotes (syncBody env serverQuotes w1))
                     ++ newLocal (mergePhase env serverQuotes w1)).
  { pose proof (syncBody_added env serverQuotes w1) as Ha.
    cbn zeta in Ha. rewrite <- Ha. symmetry. apply firstn_skipn. }
  split; [exact Hsplit|]. split; [|split; [|split]].
  - rewrite Hsplit, map_app, keys_localMapOf_nodup in E by assumption.
    now apply app_inv_tail in E.
  - apply mergePhase_newLocal_nodup.
  - intros q Hin. destruct (F q Hin) as [H1 [H2 H3]].
    rewrite mergePhase_keys, keys_localMapOf in H2.
    rewrite keys_serverMapOf in H1. auto.
  - intros i Hi Hn.
    assert (Hin : In i (map id (quotes (syncBody env serverQuotes w1)))).
    { apply Hall. now right. }
    rewrite E, in_app_iff, keys_localMapOf in Hin. tauto.
Qed.

Lemma syncBody_pending_failed env serverQuotes w q :
  In q (quotes (syncBody env serverQuotes w)) -> pendingSync q = true ->
  exists k q0,
    postOk env (List.length (requests w) + k) = false
    /\ core q0 = core q
    /\ In (POST q0) (requests (syncBody env serverQuotes w))
    /\ nth_error (requests (syncBody env serverQuotes w))
                 (List.length (requests w) + k)
       = Some (POST q0).
Proof.
  intros Hin Hp. apply In_nth_error in Hin. destruct Hin as [p Hq].
  set (merged := mergedOf (mergePhase env serverQuotes w)).
  set (targets := positions (toPost (serverMapOf serverQuotes)) merged).
  pose proof Hq as Hq'. rewrite syncBody_quotes in Hq'.
  fold merged targets in Hq'.
  destruct (in_dec Nat.eq_dec p targets) as [Hin|Hnin].
  - pose proof Hin as Hin'. apply in_positions in Hin'.
    destruct Hin' as [q0 [Hq0 Hpost]].
    apply In_nth_error in Hin. destruct Hin as [k Hk].
    assert (Hrange : forall j, In j targets -> j < List.length merged).
    { intros j Hj. apply in_positions in Hj. destruct Hj as [x [Hx _]].
      apply nth_error_Some. congruence. }
    rewrite (pushLoop_at env targets merged _ k p q0
               (nodup_positions _ _ _) Hrange Hk Hq0) in Hq'.
    injection Hq' as Hq'. subst q. simpl in Hp.
    apply negb_true_iff in Hp. exists k, q0.
    assert (Hnth : nth_error (requests (syncBody env serverQuotes w))
                             (List.length (requests w) + k)
                   = Some (POST q0)).
    { rewrite syncBody_requests, nth_error_after, nth_error_map.
      rewrite <- objectsAt_positions. fold merged targets.
      assert (Ho : forall ps j i x,
                (forall j', In j' ps -> j' < List.length merged) ->
                nth_error ps j = Some i -> nth_error merged i = Some x ->
                nth_error (objectsAt merged ps) j = Some x).
      { unfold objectsAt. induction ps as [|a ps IH]; intros j i x Hr Hj Hx.
        - destruct j; discriminate.
        - simpl. assert (Ha : a < List.length merged) by (apply Hr; now left).
          destruct (nth_error merged a) as [y|] eqn:Ey;
            [|apply nth_error_None in Ey; lia].
          destruct j as [|j]; simpl in *.
          + congruence.
          + apply (IH j i x); auto. }
      now rewrite (Ho targets k p q0 Hrange Hk Hq0). }
    split; [exact Hp|]. split; [reflexivity|]. split; [|exact Hnth].
    eapply nth_error_In; eauto.
  - rewrite pushLoop_other in Hq' by assumption.
    exfalso. assert (Hpost : toPost (serverMapOf serverQuotes) q = false).
    { destruct (toPost (serverMapOf serverQuotes) q) eqn:E; auto.
      exfalso. apply Hnin. apply in_positions. now exists q. }
    unfold toPost in Hpost. rewrite Hp in Hpost. discriminate.
Qed.

(** X10. A quote is pending after a pass only if the pass posted it and
    that very request failed, on the HTTP server and on the simulated one;
    so a pass none of whose posts failed leaves no quote pending. *)
Theorem pending_after_pass_failed_post env w serverQuotes w1 :
  fetchServerQuotes env w = (Resolved serverQuotes, w1) ->
  let w' := syncWithServer env w in
  (forall q, In q (quotes w') -> pendingSync q = true ->
     exists n q0,
       List.length (requests w) < n
       /\ nth_error (requests w') n = Some (POST q0)
       /\ core q0 = core q
       /\ (forall w0, List.length (requests w0) = n ->
                      fst (postQuoteToServer env q0 w0) = false)
       /\ httpPost env n = false /\ simFault env n = true)
  /\ ((forall n q0, List.length (requests w) < n ->
                    nth_error (requests w') n = Some (POST q0) ->
                    httpPost env n = true \/ simFault env n = false) ->
      forall q, In q (quotes w') -> pendingSync q = false).
Proof.
  intros Hf.
  destruct (sync_resolved env w serverQuotes w1 Hf) as [-> [_ [_ [Hr _]]]].
  cbn zeta.
  assert (Hmain : forall q,
            In q (quotes (syncBody env serverQuotes w1)) ->
            pendingSync q = true ->
            exists n q0,
              List.length (requests w) < n
              /\ nth_error (requests (syncBody env serverQuotes w1)) n
                 = Some (POST q0)
              /\ core q0 = core q
              /\ postOk env n = false).
  { intros q Hin Hp.
    destruct (syncBody_pending_failed env serverQuotes w1 q Hin Hp)
      as [k [q0 [Hk [Hc [_ Hn]]]]].
    exists (List.length (requests w1) + k), q0.
    split; [rewrite Hr, length_app; simpl; lia|]. auto. }
  split.
  - intros q Hin Hp. destruct (Hmain q Hin Hp) as [n [q0 [H1 [H2 [H3 H4]]]]].
    exists n, q0. split; [exact H1|]. split; [exact H2|].
    split; [exact H3|]. split.
    + intros w0 <-. now rewrite post_answer.
    + unfold postOk in H4. apply orb_false_iff in H4.
      destruct H4 as [H4 H5]. apply negb_false_iff in H5. auto.
  - intros Hall q Hin. destruct (pendingSync q) eqn:Hp; auto.
    destruct (Hmain q Hin Hp) as [n [q0 [H1 [H2 [_ H4]]]]].
    unfold postOk in H4. apply orb_false_iff in H4.
    destruct H4 as [H4 H5]. apply negb_false_iff in H5.
    destruct (Hall n q0 H1 H2); congruence.
Qed.

(** ** The simulated server *)

Lemma storePost_in st q : In (toServerQuote q) (storePost st q).
Proof.
  induction st as [|s st IH]; simpl; [now left|].
  destruct (String.eqb (sid s) (id q)); simpl; auto.
Qed.

Lemma storePost_ids st q k :
  In k (map sid (storePost st q)) <-> In k (map sid st) \/ k = id q.
Proof.
  induction st as [|s st IH]; simpl.
  - intuition congruence.
  - destruct (String.eqb_spec (sid s) (id q)) as [E|E]; simpl.
    + intuition congruence.
    + rewrite IH. tauto.
Qed.

Lemma storePost_other st q s :
  sid s <> id q -> (In s (storePost st q) <-> In s st).
Proof.
  intros Hne. induction st as [|s0 st IH]; simpl.
  - split; [intros [<-|[]]; now elim Hne | tauto].
  - destruct (String.eqb_spec (sid s0) (id q)) as [E|E]; simpl.
    + split; intros [H|H]; auto.
      * subst s. now elim Hne.
      * subst s0. congruence.
    + rewrite IH. tauto.
Qed.

Lemma storePost_nodup st q :
  NoDup (map sid st) -> NoDup (map sid (storePost st q)).
Proof.
  induction st as [|s st IH]; simpl; intros Hnd.
  - repeat constructor. simpl. tauto.
  - inversion Hnd as [|? ? Hs Hnd']; subst.
    destruct (String.eqb_spec (sid s) (id q)) as [E|E]; simpl.
    + constructor; [now rewrite <- E | assumption].
    + constructor; auto. rewrite storePost_ids. tauto.
Qed.

(** X11. The simulated server keeps one record for each id.  After
    [postQuote(q)] it lists [q] under the id of [q] and nothing else under
    that id, the records under the other ids are as they were, and posting
    the same quote again changes nothing. *)
Theorem simulated_post_lookup st q :
  NoDup (map sid st) ->
  NoDup (map sid (storePost st q))
  /\ In (toServerQuote q) (storePost st q)
  /\ (forall s, In s (storePost st q) -> sid s = id q -> s = toServerQuote q)
  /\ (forall s, sid s <> id q -> (In s (storePost st q) <-> In s st))
  /\ storePost (storePost st q) q = storePost st q.
Proof.
  intros Hnd. split; [now apply storePost_nodup|].
  split; [apply storePost_in|]. split; [|split].
  - intros s Hin Hid.
    apply (nodup_map_inj _ _ sid (storePost st q) s (toServerQuote q)
             (storePost_nodup st q Hnd) Hin (storePost_in st q)).
    exact Hid.
  - intros s. apply storePost_other.
  - clear Hnd. induction st as [|s st IH]; simpl.
    + now rewrite String.eqb_refl.
    + destruct (String.eqb_spec (sid s) (id q)) as [E|E]; simpl.
      * now rewrite String.eqb_refl.
      * destruct (String.eqb_spec (sid s) (id q)); [contradiction|].
        now rewrite IH.
Qed.

(** X12. Without the HTTP server, what one call posts the next fetch
    lists: a quote posted to the simulated server is in the list that the
    following fetch resolves with. *)
Theorem posted_then_listed env q w :
  httpPost env (List.length (requests w)) = false ->
  simFault env (List.length (requests w)) = false ->
  httpGet env (S (List.length (requests w))) = None ->
  simFault env (S (List.length (requests w))) = false ->
  let (ok, w1) := postQuoteToServer env q w in
  ok = true
  /\ exists listed,
       fst (fetchServerQuotes env w1) = Resolved listed
       /\ In (toServerQuote q) listed.
Proof.
  intros Hp Hs Hg Hs'. unfold postQuoteToServer. rewrite Hp, Hs.
  split; [reflexivity|]. unfold fetchServerQuotes. simpl.
  rewrite length_app. simpl. rewrite Nat.add_1_r, Hg, Hs'.
  unfold initFromLocal. simpl.
  pose proof (storePost_in (store w) q) as Hin.
  destruct (storePost (store w) q) as [|s st] eqn:E; [destruct Hin|].
  simpl. eexists. split; [reflexivity|]. exact Hin.
Qed.

(** ** Invariants of the passes *)

Lemma storePost_times st q :
  Forall (fun s => slastModified s <> None) st ->
  Forall (fun s => slastModified s <> None) (storePost st q).
Proof.
  induction 1 as [|s st Hs Hst IH]; simpl.
  - repeat constructor. discriminate.
  - destruct (String.eqb (sid s) (id q)); constructor; auto. discriminate.
Qed.

Lemma post_store_times env q w :
  Forall (fun s => slastModified s <> None) (store w) ->
  Forall (fun s => slastModified s <> None)
         (store (snd (postQuoteToServer env q w))).
Proof.
  intros H. unfold postQuoteToServer.
  destruct (httpPost env (List.length (requests w))); simpl; auto.
  destruct (simFault env (List.length (requests w))); simpl; auto.
  now apply storePost_times.
Qed.

Lemma pushLoop_store_times env targets merged w :
  Forall (fun s => slastModified s <> None) (store w) ->
  Forall (fun s => slastModified s <> None)
         (store (snd (pushLoop env targets merged w))).
Proof.
  revert merged w. induction targets as [|j rest IH]; simpl; intros merged w H;
    auto.
  destruct (nth_error merged j) as [lq|]; auto.
  pose proof (post_store_times env lq w H) as Hp.
  destruct (postQuoteToServer env lq w) as [ok w1]. simpl in Hp.
  now apply IH.
Qed.

Lemma syncBody_store env serverQuotes w :
  store (syncBody env serverQuotes w)
  = store (snd (pushLoop env
                  (positions (toPost (serverMapOf serverQuotes))
                     (mergedOf (mergePhase env serverQuotes w)))
                  (mergedOf (mergePhase env serverQuotes w))
                  (withTicks (read (mergePhase env serverQuotes w)) w))).
Proof.
  unfold syncBody.
  destruct (pushLoop env _ _ _) as [merged' w1].
  destruct (conflicts (mergePhase env serverQuotes w));
    [destruct (newLocal (mergePhase env serverQuotes w))|]; reflexivity.
Qed.

Lemma fetch_store_times env w :
  Forall (fun s => slastModified s <> None) (store w) ->
  Forall (fun s => slastModified s <> None)
         (store (snd (fetchServerQuotes env w))).
Proof.
  intros H. unfold fetchServerQuotes.
  destruct (httpGet env (List.length (requests w))) as [data|].
  - destruct (mapPosts env data (ticks (issue GET w))). exact H.
  - assert (E : Forall (fun s => slastModified s <> None)
                  (store (initFromLocal (quotes (issue GET w))
                            (issue GET w)))).
    { unfold initFromLocal. simpl. destruct (store w) eqn:Es; simpl.
      - apply Forall_forall. intros s Hs. apply in_map_iff in Hs.
        destruct Hs as [q [<- _]]. discriminate.
      - now rewrite Es. }
    now destruct (simFault env (List.length (requests w))).
Qed.

Lemma mergeLoop_read env es m :
  Forall (fun e => slastModified (snd e) <> None) es ->
  read (fold_left (mergeStep env) es m) = read m.
Proof.
  revert m. induction es as [|[k s] es IH]; simpl; intros m H; auto.
  inversion H as [|? ? Hs H']; subst. simpl in Hs.
  rewrite IH by assumption.
  destruct (slastModified s) as [t|] eqn:Et; [|congruence].
  destruct (JsMap.get (localMap m) k) as [l|]; simpl; auto.
  destruct (diverge (lastModified l) t l s); reflexivity.
Qed.

(** X13. The records of the simulated server always carry a time, so the
    lists that the fetch resolves with do, pass after pass; and merging
    such a list takes no reading of the clock: the defaults for a missing
    [lastModified] are never used. *)
Theorem server_lists_always_timed env w :
  Forall (fun s => slastModified s <> None) (store w) ->
  Forall (fun s => slastModified s <> None) (store (syncWithServer env w))
  /\ forall serverQuotes w1,
       fetchServerQuotes env w = (Resolved serverQuotes, w1) ->
       Forall (fun s => slastModified s <> None) serverQuotes
       /\ read (mergePhase env serverQuotes w1) = ticks w1.
Proof.
  intros H. split.
  - pose proof (fetch_store_times env w H) as Hf.
    unfold syncWithServer.
    destruct (fetchServerQuotes env w) as [[sq|] w1]; simpl in Hf.
    + rewrite syncBody_store. now apply pushLoop_store_times.
    + exact Hf.
  - intros sq w1 Hf.
    pose proof (fetch_lists_times env w sq w1 H Hf) as Hsq.
    split; [exact Hsq|].
    unfold mergePhase, mergeLoop. rewrite mergeLoop_read; [reflexivity|].
    apply Forall_forall. intros [k s] Hin. simpl.
    unfold serverMapOf in Hin. apply in_ofEntries in Hin.
    apply in_map_iff in Hin. destruct Hin as [s' [[= _ ->] Hin]].
    rewrite Forall_forall in Hsq. now apply Hsq.
Qed.

(** X14. A quote whose id the server never lists is posted by every pass,
    whether or not an earlier post of it succeeded: after the first pass it
    is stored with the same id, text, category and time, and the second
    pass posts it again. *)
Theorem unlisted_quote_reposted env w sq1 w1 sq2 w2 i l :
  fetchServerQuotes env w = (Resolved sq1, w1) ->
  JsMap.get (localMapOf (quotes w)) i = Some l ->
  JsMap.has (serverMapOf sq1) i = false ->
  fetchServerQuotes env (syncWithServer env w) = (Resolved sq2, w2) ->
  JsMap.has (serverMapOf sq2) i = false ->
  let wa := syncWithServer env w in
  let wb := syncWithServer env wa in
  In (POST l) (requests wa)
  /\ exists l', core l' = core l /\ In l' (quotes wa)
                /\ exists rest, requests wb = requests wa ++ GET :: rest
                                /\ In (POST l') rest.
Proof.
  intros Hf1 Hl Hs1 Hf2 Hs2. cbn zeta.
  destruct (sync_resolved env w sq1 w1 Hf1) as [E1 [Hq1 _]].
  destruct (sync_resolved env _ sq2 w2 Hf2) as [E2 [Hq2 [_ [Hr2 _]]]].
  rewrite E2. rewrite E1 in *. rewrite <- Hq1 in Hl.
  assert (Hid : id l = i) by (eapply localMapOf_get_id; eauto).
  assert (Hu1 : undisputed env sq1 l).
  { apply undisputed_unlisted. now rewrite Hid. }
  destruct (mergePhase_kept env sq1 w1 i l Hl Hid Hu1) as [Hg1 _].
  destruct (merged_of_map env sq1 w1 i l Hg1) as [Hin1 _].
  assert (Hp1 : toPost (serverMapOf sq1) l = true).
  { unfold toPost. rewrite Hid, Hs1. apply orb_true_r. }
  destruct (syncBody_posted env sq1 w1 l Hin1 Hp1) as [Hposted [k Hk]].
  split; [exact Hposted|].
  set (l' := setPendingSync
               (negb (postOk env (List.length (requests w1) + k))) l) in *.
  assert (Hid' : id l' = i) by exact Hid.
  exists l'. split; [reflexivity|]. split; [exact Hk|].
  assert (Hg : JsMap.get (localMapOf (quotes w2)) (id l') = Some l').
  { rewrite Hq2. apply localMapOf_get_in; auto. apply syncBody_nodup. }
  assert (Hu2 : undisputed env sq2 l').
  { apply undisputed_unlisted. now rewrite Hid'. }
  destruct (mergePhase_kept env sq2 w2 (id l') l' Hg eq_refl Hu2) as [Hg2 _].
  destruct (merged_of_map env sq2 w2 (id l') l' Hg2) as [Hin2 _].
  exists (map POST (filter (toPost (serverMapOf sq2))
                           (mergedOf (mergePhase env sq2 w2)))).
  split.
  - rewrite syncBody_requests, Hr2, <- app_assoc. reflexivity.
  - apply in_map. apply filter_In. split; auto.
    unfold toPost. rewrite Hid', Hs2. apply orb_true_r.
Qed.

(** X15. The first pass of a page that cannot reach the HTTP server
    compares the quotes with the copy of them that seeds the simulated
    server: it finds no conflict, adds nothing, and leaves every quote with
    its id, text, category and time, in its place (the local ids being all
    different). *)
Theorem offline_first_pass_quiet env w :
  store w = [] ->
  httpGet env (List.length (requests w)) = None ->
  simFault env (List.length (requests w)) = false ->
  NoDup (map id (quotes w)) ->
  let w' := syncWithServer env w in
  pendingConflicts w' = pendingConflicts w
  /\ map core (quotes w') = map core (quotes w)
  /\ store w' = map toServerQuote (quotes w)
  /\ notices w' = notices w.
Proof.
  intros Hst Hg Hs Hnd. cbn zeta.
  set (sq := map toServerQuote (quotes w)).
  set (w1 := withStore sq (issue GET w)).
  assert (Hf : fetchServerQuotes env w = (Resolved sq, w1)).
  { unfold fetchServerQuotes. rewrite Hg, Hs. unfold initFromLocal. simpl.
    now rewrite Hst. }
  destruct (sync_resolved env w sq w1 Hf) as [-> _].
  assert (Hsettled : forall k s, In (k, s) (serverMapOf sq) ->
     exists l, JsMap.get (localMapOf (quotes w1)) k = Some l
               /\ forall n, diverge (lastModified l)
                              (fst (orNow env (slastModified s) n)) l s
                            = false).
  { intros k s Hin. unfold serverMapOf, sq in Hin.
    apply in_ofEntries in Hin. apply in_map_iff in Hin.
    destruct Hin as [s' [[= <- <-] Hin]].
    apply in_map_iff in Hin. destruct Hin as [q [<- Hq]].
    exists q. split.
    - now apply localMapOf_get_in.
    - intros n. unfold diverge. simpl. now rewrite Z.eqb_refl. }
  destruct (settled_pass_quiet env sq w1 Hnd Hsettled) as [Hc [Hn Hm]].
  split; [|split; [|split]].
  - now rewrite syncBody_pendingConflicts, Hc.
  - now rewrite syncBody_core, Hm.
  - rewrite syncBody_store, Hm.
    assert (Hnone : forall targets merged w0,
              (forall j q, In j targets -> nth_error merged j = Some q ->
                           In (toServerQuote q) (store w0)) ->
              NoDup (map sid (store w0)) ->
              store (snd (pushLoop env targets merged w0)) = store w0).
    { clear. induction targets as [|j rest IH]; simpl; intros merged w0 H Hnd;
        auto.
      destruct (nth_error merged j) as [lq|] eqn:Hj; [|apply IH; eauto].
      assert (Hst : store (snd (postQuoteToServer env lq w0)) = store w0).
      { unfold postQuoteToServer.
        destruct (httpPost env (List.length (requests w0))); auto.
        destruct (simFault env (List.length (requests w0))); auto. simpl.
        assert (Hin : In (toServerQuote lq) (store w0)) by eauto.
        clear -Hin Hnd. induction (store w0) as [|s st IHst]; simpl.
        - destruct Hin.
        - inversion Hnd as [|? ? Hs Hnd']; subst.
          destruct (String.eqb_spec (sid s) (id lq)) as [E|E].
          + destruct Hin as [->|Hin]; [reflexivity|].
            exfalso. apply Hs. rewrite E.
            apply in_map_iff. exists (toServerQuote lq). now split.
          + destruct Hin as [->|Hin]; [now elim E|].
            now rewrite IHst. }
      destruct (postQuoteToServer env lq w0) as [ok w2]. simpl in Hst.
      rewrite IH; auto.
      - intros j' q Hj' Hq. rewrite Hst.
        destruct (Nat.eq_dec j' j) as [->|Hne].
        + assert (Hlt : j < List.length merged)
            by (apply nth_error_Some; congruence).
          rewrite nth_error_assign_same in Hq by assumption.
          injection Hq as <-. change (In (toServerQuote lq) (store w0)).
          exact (H j lq (or_introl eq_refl) Hj).
        + rewrite nth_error_assign_other in Hq by assumption. eauto.
      - now rewrite Hst. }
    rewrite Hnone; [reflexivity| |].
    + intros j q _ Hq. simpl. unfold sq. apply in_map.
      eapply nth_error_In; eauto.
    + simpl. unfold sq. rewrite map_map. exact Hnd.
  - rewrite syncBody_notices, Hc, Hn. apply app_nil_r.
Qed.

(** ** Manual resolution *)

Lemma findFrom_some (A : Type) (p : A -> bool) xs k i x :
  findFrom p xs k = Some (i, x) ->
  k <= i /\ nth_error xs (i - k) = Some x /\ p x = true
  /\ forall j y, j < i - k -> nth_error xs j = Some y -> p y = false.
Proof.
  revert k. induction xs as [|a xs IH]; simpl; intros k H; [discriminate|].
  destruct (p a) eqn:Ea.
  - injection H as <- <-. rewrite Nat.sub_diag. repeat split; auto.
    intros j y Hj. lia.
  - apply IH in H. destruct H as [Hk [Hn [Hp Hfirst]]].
    replace (i - k) with (S (i - S k)) by lia. simpl.
    repeat split; auto; [lia|].
    intros [|j] y Hj Hy; simpl in Hy.
    + now injection Hy as <-.
    + apply (Hfirst j y); [lia | assumption].
Qed.

Lemma findFrom_none (A : Type) (p : A -> bool) xs k :
  findFrom p xs k = None -> forall x, In x xs -> p x = false.
Proof.
  revert k. induction xs as [|a xs IH]; simpl; intros k H x Hin; [tauto|].
  destruct (p a) eqn:Ea; [discriminate|].
  destruct Hin as [<-|Hin]; eauto.
Qed.

Lemma find_some (A : Type) (p : A -> bool) xs i x :
  find p xs = Some (i, x) -> nth_error xs i = Some x /\ p x = true.
Proof.
  intros H. apply findFrom_some in H. rewrite Nat.sub_0_r in H. tauto.
Qed.

Lemma find_in (A : Type) (p : A -> bool) xs x :
  In x xs -> p x = true -> exists i y, find p xs = Some (i, y).
Proof.
  intros Hin Hp. destruct (find p xs) as [[i y]|] eqn:E; eauto.
  unfold find in E. rewrite (findFrom_none _ p xs 0 E x Hin) in Hp.
  discriminate.
Qed.

Lemma assign_same (A : Type) (xs : list A) i x :
  nth_error xs i = Some x -> assign xs i x = xs.
Proof.
  revert i. induction xs as [|a xs IH]; intros [|i]; simpl; try discriminate.
  - now intros [= ->].
  - intros H. now rewrite IH.
Qed.

(** The quote the handlers look up under the id of a conflict, in a list
    without a repeated id. *)
Lemma find_by_id qs q :
  NoDup (map id qs) -> In q qs ->
  exists i, find (fun x => String.eqb (id x) (id q)) qs = Some (i, q)
            /\ nth_error qs i = Some q.
Proof.
  intros Hnd Hin.
  destruct (find_in _ (fun x => String.eqb (id x) (id q)) qs q Hin
              (String.eqb_refl _)) as [i [y E]].
  destruct (find_some _ _ _ _ _ E) as [Hn Hp].
  apply String.eqb_eq in Hp.
  assert (y = q).
  { apply (nodup_map_inj _ _ id qs y q Hnd); auto.
    eapply nth_error_In; eauto. }
  subst y. now exists i.
Qed.

(** Every entry the first loop records names a quote that the loop has
    replaced by the server's record. *)
Lemma mergeLoop_conflict_origin env es m c :
  NoDup (map fst es) ->
  Forall (fun e => slastModified (snd e) <> None) es ->
  In c (conflicts (fold_left (mergeStep env) es m)) ->
  In c (conflicts m)
  \/ (In (cid c) (map fst es)
      /\ JsMap.get (localMap (fold_left (mergeStep env) es m)) (cid c)
         = Some (mkQuote (cid c) (rtext (cserver c)) (rcategory (cserver c))
                         (rlastModified (cserver c)) false)).
Proof.
  revert m. induction es as [|[k s] es IH]; intros m Hnd Hlm Hin;
    [now left|].
  cbn [fold_left] in *. inversion Hnd as [|? ? Hk Hnd']; subst.
  inversion Hlm as [|? ? Hs Hlm']; subst. simpl in Hs.
  destruct (IH _ Hnd' Hlm' Hin) as [Hc|[Hc Hg]]; [|right; simpl; tauto].
  destruct (slastModified s) as [t|] eqn:Et; [|congruence].
  destruct (JsMap.get (localMap m) k) as [l|] eqn:Hl.
  - destruct (diverge (lastModified l) t l s) eqn:Hdiv.
    + rewrite (mergeStep_conflict env m k s l t Hl Et Hdiv) in *.
      simpl in Hc. apply in_app_iff in Hc. destruct Hc as [Hc|[<-|[]]];
        [now left|].
      right. simpl. split; [now left|].
      rewrite mergeLoop_get_other by assumption. simpl.
      apply get_set_same.
    + rewrite (mergeStep_kept env m k s l Hl) in Hc.
      * now left.
      * intros n. now rewrite Et.
  - rewrite (mergeStep_absent env m k s Hl) in Hc. now left.
Qed.

Lemma pass_conflict_stored env serverQuotes w c :
  Forall (fun s => slastModified s <> None) serverQuotes ->
  In c (conflicts (mergePhase env serverQuotes w)) ->
  In (mkQuote (cid c) (rtext (cserver c)) (rcategory (cserver c))
              (rlastModified (cserver c)) false)
     (quotes (syncBody env serverQuotes w)).
Proof.
  intros Hlm Hin. unfold mergePhase, mergeLoop in Hin.
  apply mergeLoop_conflict_origin in Hin.
  - destruct Hin as [[]|[Hk Hg]].
    fold (mergeLoop env (serverMapOf serverQuotes)) in Hg.
    change (JsMap.get (localMap (mergePhase env serverQuotes w)) (cid c)
            = Some (mkQuote (cid c) (rtext (cserver c))
                      (rcategory (cserver c)) (rlastModified (cserver c))
                      false)) in Hg.
    destruct (merged_of_map env serverQuotes w _ _ Hg) as [Hm _].
    apply syncBody_unposted; auto. unfold toPost. simpl.
    apply negb_false_iff. now apply has_true_keys.
  - apply nodup_serverMapOf.
  - apply Forall_forall. intros [k s] Hks. simpl.
    unfold serverMapOf in Hks. apply in_ofEntries in Hks.
    apply in_map_iff in Hks. destruct Hks as [s' [[= _ ->] Hs]].
    rewrite Forall_forall in Hlm. now apply Hlm.
Qed.

(** X16. Accepting the server's side of a conflict that the last pass
    recorded changes no quote: the pass has already stored the server's
    record.  Only the entry leaves the registry. *)
Theorem accept_server_after_pass env w serverQuotes w1 c :
  Forall (fun s => slastModified s <> None) serverQuotes ->
  fetchServerQuotes env w = (Resolved serverQuotes, w1) ->
  In c (conflicts (mergePhase env serverQuotes w1)) ->
  let w' := syncWithServer env w in
  quotes (keepServer c w') = quotes w'
  /\ saved (keepServer c w') = saved w'
  /\ pendingConflicts (keepServer c w')
     = dropConflict c (pendingConflicts w').
Proof.
  intros Hlm Hf Hin.
  destruct (sync_resolved env w serverQuotes w1 Hf) as [-> _]. cbn zeta.
  pose proof (pass_conflict_stored env serverQuotes w1 c Hlm Hin) as Hst.
  destruct (find_by_id _ _ (syncBody_nodup env serverQuotes w1) Hst)
    as [i [Hfind Hnth]].
  simpl in Hfind. unfold keepServer. rewrite Hfind. simpl.
  rewrite (assign_same _ _ _ _ Hnth).
  repeat split; auto. now rewrite syncBody_saved.
Qed.

(** X17. Keeping the local side of a conflict that the last pass recorded
    posts what is stored, which is the server's own text and category with
    a new time, not the local text that the entry remembers.  When the
    post fails the entry stays and nothing is saved, but the quote keeps
    its new time in memory. *)
Theorem keep_local_after_pass env w serverQuotes w1 c :
  Forall (fun s => slastModified s <> None) serverQuotes ->
  fetchServerQuotes env w = (Resolved serverQuotes, w1) ->
  In c (conflicts (mergePhase env serverQuotes w1)) ->
  let w' := syncWithServer env w in
  let w'' := keepLocal env c w' in
  let pushed := mkQuote (cid c) (rtext (cserver c)) (rcategory (cserver c))
                        (clock env (ticks w')) false in
  requests w'' = requests w' ++ [POST pushed]
  /\ In pushed (quotes w'')
  /\ (postOk env (List.length (requests w')) = true ->
      pendingConflicts w'' = dropConflict c (pendingConflicts w')
      /\ saved w'' = quotes w'')
  /\ (postOk env (List.length (requests w')) = false ->
      pendingConflicts w'' = pendingConflicts w' /\ saved w'' = saved w').
Proof.
  intros Hlm Hf Hin.
  destruct (sync_resolved env w serverQuotes w1 Hf) as [-> _]. cbn zeta.
  set (w' := syncBody env serverQuotes w1).
  pose proof (pass_conflict_stored env serverQuotes w1 c Hlm Hin) as Hst.
  destruct (find_by_id _ _ (syncBody_nodup env serverQuotes w1) Hst)
    as [i [Hfind Hnth]].
  fold w' in Hfind, Hnth. simpl in Hfind.
  unfold keepLocal. rewrite Hfind. simpl.
  assert (Hlt : i < List.length (quotes w'))
    by (apply nth_error_Some; congruence).
  match goal with |- context [postQuoteToServer env ?q ?w0] =>
    pose proof (post_answer env q w0) as Ha;
    pose proof (post_requests env q w0) as Hr;
    pose proof (post_page env q w0) as Hp;
    destruct (postQuoteToServer env q w0) as [ok w2] end.
  simpl in Ha, Hr, Hp. destruct Hp as [Hq [Hpc [Hsv _]]].
  unfold setLastModified in *. simpl in *.
  destruct ok; simpl; rewrite <- Ha.
  - split; [exact Hr|]. split.
    + apply nth_error_In with (n := i). rewrite Hq.
      rewrite nth_error_assign_same; [reflexivity|].
      now rewrite length_assign.
    + split; [|discriminate]. intros _. now rewrite Hpc.
  - split; [exact Hr|]. split.
    + apply nth_error_In with (n := i). rewrite Hq.
      now rewrite nth_error_assign_same.
    + split; [discriminate|]. intros _. now rewrite Hpc, Hsv.
Qed.

Lemma find_none (A : Type) (p : A -> bool) xs :
  find p xs = None -> forall x, In x xs -> p x = false.
Proof. apply findFrom_none. Qed.




(** X19. Accepting the server's side of an entry whose quote is no longer
    in the list changes no quote and saves nothing.  When the quote is
    there, the server's record is stored under its id and saved; the ids of
    the list and the quotes under other ids are as they were. *)
Theorem keep_server_effect conf w :
  let w' := keepServer conf w in
  ((forall q, In q (quotes w) -> id q <> cid conf) ->
   quotes w' = quotes w /\ saved w' = saved w)
  /\ ((exists q, In q (quotes w) /\ id q = cid conf) ->
      In (mkQuote (cid conf) (rtext (cserver conf)) (rcategory (cserver conf))
                  (rlastModified (cserver conf)) false) (quotes w')
      /\ saved w' = quotes w')
  /\ map id (quotes w') = map id (quotes w)
  /\ (forall q', In q' (quotes w') -> id q' <> cid conf -> In q' (quotes w)).
Proof.
  cbn zeta. unfold keepServer.
  destruct (find (fun q => String.eqb (id q) (cid conf)) (quotes w))
    as [[idx q]|] eqn:Ef.
  - destruct (find_some _ _ _ _ _ Ef) as [Hn Hp]. apply String.eqb_eq in Hp.
    assert (Hlt : idx < List.length (quotes w))
      by (apply nth_error_Some; congruence).
    simpl. split; [|split; [|split]].
    + intros Hno. exfalso. apply (Hno q); auto. eapply nth_error_In; eauto.
    + intros _. split; [|reflexivity].
      apply nth_error_In with (n := idx). rewrite Hp.
      now rewrite nth_error_assign_same.
    + now apply map_assign_same with (y := q).
    + intros q' Hin Hid. apply In_nth_error in Hin. destruct Hin as [j Hj].
      destruct (Nat.eq_dec j idx) as [->|Hne].
      * rewrite nth_error_assign_same in Hj by assumption.
        injection Hj as <-. simpl in Hid. congruence.
      * rewrite nth_error_assign_other in Hj by assumption.
        eapply nth_error_In; eauto.
  - simpl. split; [auto|]. split; [|auto].
    intros [q [Hin Hid]].
    pose proof (find_none _ _ _ Ef q Hin) as Hp. simpl in Hp.
    apply String.eqb_neq in Hp. contradiction.
Qed.

(** ** The form that adds a quote *)

Lemma assign_last (A : Type) (xs : list A) x y :
  assign (xs ++ [x]) (List.length xs) y = xs ++ [y].
Proof. induction xs as [|a xs IH]; simpl; [reflexivity | now rewrite IH]. Qed.

(** The map of a list finds, under the id of its last quote, that quote. *)
Lemma localMapOf_last qs q :
  JsMap.get (localMapOf (qs ++ [q])) (id q) = Some q.
Proof.
  unfold localMapOf, JsMap.ofEntries. rewrite map_app, fold_left_app. simpl.
  apply get_set_same.
Qed.

Lemma add_quote_shape env text_ category_ w :
  text_ <> "" -> category_ <> "" ->
  quotes (fst (addQuote env text_ category_ w))
  = quotes w
    ++ [mkQuote (token env (ticks w)) text_ category_
                (clock env (S (ticks w)))
                (negb (postOk env (List.length (requests w))))]
  /\ requests (fst (addQuote env text_ category_ w))
     = requests w
       ++ [POST (mkQuote (token env (ticks w)) text_ category_
                         (clock env (S (ticks w))) true)].
Proof.
  intros Ht Hc. unfold addQuote.
  apply String.eqb_neq in Ht. apply String.eqb_neq in Hc.
  rewrite Ht, Hc. simpl.
  match goal with |- context [postQuoteToServer env ?q ?w0] =>
    pose proof (post_answer env q w0) as Ha;
    pose proof (post_requests env q w0) as Hr;
    pose proof (post_page env q w0) as Hp;
    destruct (postQuoteToServer env q w0) as [ok w2] end.
  simpl in Ha, Hr, Hp. destruct Hp as [Hq _].
  rewrite <- Ha. destruct ok; simpl.
  - rewrite Hq, assign_last. auto.
  - rewrite Hq. auto.
Qed.

(** X20. The form adds nothing when the text or the category is empty.
    Otherwise it appends one quote, with the id that [uid()] returns and
    the time of the clock, saves the list, and posts the quote once; the
    quote ends pending exactly when that post failed, and what is saved is
    the list as it ends.  The form does not look whether the id is in the
    list already: the ids stay all different exactly when [uid()] returned
    one that the list did not hold. *)
Theorem add_quote_effect env text_ category_ w :
  let w' := fst (addQuote env text_ category_ w) in
  let newQ := mkQuote (token env (ticks w)) text_ category_
                      (clock env (S (ticks w))) true in
  let ok := postOk env (List.length (requests w)) in
  (text_ = "" \/ category_ = "" -> addQuote env text_ category_ w = (w, NotAdded))
  /\ (text_ <> "" -> category_ <> "" ->
      quotes w' = quotes w ++ [setPendingSync (negb ok) newQ]
      /\ saved w' = quotes w'
      /\ requests w' = requests w ++ [POST newQ]
      /\ snd (addQuote env text_ category_ w)
         = (if ok then AddedSynced else AddedLocalOnly)
      /\ pendingConflicts w' = pendingConflicts w
      /\ (NoDup (map id (quotes w)) ->
          (NoDup (map id (quotes w'))
           <-> ~ In (token env (ticks w)) (map id (quotes w))))).
Proof.
  cbn zeta. split.
  - unfold addQuote. intros [->| ->]; simpl; [reflexivity|].
    now rewrite andb_false_r.
  - intros Ht Hc.
    destruct (add_quote_shape env text_ category_ w Ht Hc) as [Hshape _].
    assert (Hfive :
      quotes (fst (addQuote env text_ category_ w))
      = quotes w
        ++ [setPendingSync
              (negb (postOk env (List.length (requests w))))
              (mkQuote (token env (ticks w)) text_ category_
                       (clock env (S (ticks w))) true)]
      /\ saved (fst (addQuote env text_ category_ w))
         = quotes (fst (addQuote env text_ category_ w))
      /\ requests (fst (addQuote env text_ category_ w))
         = requests w
           ++ [POST (mkQuote (token env (ticks w)) text_ category_
                             (clock env (S (ticks w))) true)]
      /\ snd (addQuote env text_ category_ w)
         = (if postOk env (List.length (requests w))
            then AddedSynced else AddedLocalOnly)
      /\ pendingConflicts (fst (addQuote env text_ category_ w))
         = pendingConflicts w).
    { clear Hshape. unfold addQuote.
      apply String.eqb_neq in Ht. apply String.eqb_neq in Hc.
      rewrite Ht, Hc. simpl.
      match goal with |- context [postQuoteToServer env ?q ?w0] =>
        pose proof (post_answer env q w0) as Ha;
        pose proof (post_requests env q w0) as Hr;
        pose proof (post_page env q w0) as Hp;
        destruct (postQuoteToServer env q w0) as [ok w2] end.
      simpl in Ha, Hr, Hp. destruct Hp as [Hq [Hpc [Hsv _]]].
      rewrite <- Ha. destruct ok; simpl.
      + rewrite Hq, assign_last. repeat split; auto.
      + rewrite Hq, Hsv. repeat split; auto. }
    destruct Hfive as [H1 [H2 [H3 [H4 H5]]]].
    do 5 (split; [assumption|]).
    intros Hnd. rewrite Hshape, map_app. simpl. split.
    + intros H. apply NoDup_remove_2 in H. now rewrite app_nil_r in H.
    + intros H. apply NoDup_app; auto.
      * repeat constructor. simpl. tauto.
      * intros a Ha [<-|[]]. contradiction.
Qed.

(** X21. A quote added through the form is posted again by the next pass
    when the server does not list its id, whether or not the post made by
    the form succeeded. *)
Theorem added_quote_posted_by_next_pass env text_ category_ w
    serverQuotes w1 :
  text_ <> "" -> category_ <> "" ->
  fetchServerQuotes env (fst (addQuote env text_ category_ w))
  = (Resolved serverQuotes, w1) ->
  JsMap.has (serverMapOf serverQuotes) (token env (ticks w)) = false ->
  let wa := fst (addQuote env text_ category_ w) in
  let added :=
    mkQuote (token env (ticks w)) text_ category_ (clock env (S (ticks w)))
            (negb (postOk env (List.length (requests w)))) in
  In added (quotes wa)
  /\ requests (syncWithServer env wa)
     = requests wa
       ++ GET :: map POST (filter (toPost (serverMapOf serverQuotes))
                                  (mergedOf (mergePhase env serverQuotes w1)))
  /\ In added (filter (toPost (serverMapOf serverQuotes))
                      (mergedOf (mergePhase env serverQuotes w1))).
Proof.
  intros Ht Hc Hf Hs. cbn zeta.
  destruct (add_quote_shape env text_ category_ w Ht Hc) as [Equotes _].
  set (wa := fst (addQuote env text_ category_ w)) in *.
  set (added := mkQuote (token env (ticks w)) text_ category_
                        (clock env (S (ticks w)))
                        (negb (postOk env (List.length (requests w))))) in *.
  destruct (sync_resolved env wa serverQuotes w1 Hf) as [-> [Hq [_ [Hr _]]]].
  assert (Hg : JsMap.get (localMapOf (quotes w1)) (id added) = Some added).
  { rewrite Hq, Equotes. apply localMapOf_last. }
  assert (Hu : undisputed env serverQuotes added).
  { now apply undisputed_unlisted. }
  destruct (mergePhase_kept env serverQuotes w1 (id added) added Hg eq_refl Hu)
    as [Hg' _].
  destruct (merged_of_map env serverQuotes w1 _ _ Hg') as [Hin _].
  split; [|split].
  - rewrite Equotes. apply in_or_app. right. now left.
  - rewrite syncBody_requests, Hr, <- app_assoc. reflexivity.
  - apply filter_In. split; auto. unfold toPost.
    simpl. simpl in Hs. rewrite Hs. apply orb_true_r.
Qed.

(** ** Passes against the simulated server *)

Lemma mergeLoop_values env es m q :
  In q (JsMap.values (localMap (fold_left (mergeStep env) es m))) ->
  In q (JsMap.values (localMap m))
  \/ (pendingSync q = false /\ In (id q) (map fst es)).
Proof.
  revert m. induction es as [|[k s] es IH]; intros m Hin; [now left|].
  cbn [fold_left] in Hin. apply IH in Hin.
  destruct Hin as [Hin|[Hp Hk]]; [|right; simpl; tauto].
  unfold mergeStep in Hin.
  destruct (JsMap.get (localMap m) k) as [l|] eqn:Hl.
  - destruct (orNow env (slastModified s) (read m)) as [lm1 n1].
    destruct (diverge (lastModified l) lm1 l s).
    + destruct (orNow env (slastModified s) n1) as [lm2 n2].
      unfold SERVER_WINS_BY_DEFAULT in Hin.
      destruct (orNow env (slastModified s) n2) as [lm3 n3].
      simpl in Hin. unfold JsMap.values in Hin. apply in_map_iff in Hin.
      destruct Hin as [[k' v] [<- Hin]]. apply in_set in Hin.
      destruct Hin as [[= -> ->]|Hin].
      * right. simpl. auto.
      * left. unfold JsMap.values. apply in_map_iff. now exists (k', v).
    + now left.
  - destruct (orNow env (slastModified s) (read m)) as [lm1 n1]. now left.
Qed.

(** Where the quotes of the merged array come from: the local list, or
    the server's list, and then they are not pending. *)
Lemma merged_origin env serverQuotes w q :
  In q (mergedOf (mergePhase env serverQuotes w)) ->
  In q (quotes w)
  \/ (pendingSync q = false
      /\ In (id q) (JsMap.keys (serverMapOf serverQuotes))).
Proof.
  rewrite merged_shape, in_app_iff. intros [Hin|Hin].
  - unfold mergePhase, mergeLoop in Hin. apply mergeLoop_values in Hin.
    destruct Hin as [Hin|Hin]; [left|now right].
    simpl in Hin. unfold JsMap.values in Hin. apply in_map_iff in Hin.
    destruct Hin as [[k v] [<- Hin]]. unfold localMapOf in Hin.
    apply in_ofEntries in Hin. apply in_map_iff in Hin.
    now destruct Hin as [q0 [[= _ ->] Hq0]].
  - destruct (mergePhase_newLocal env serverQuotes w) as [F _].
    rewrite Forall_forall in F. destruct (F q Hin) as [H1 [_ H3]]. now right.
Qed.

Lemma pushLoop_store_ids env targets merged w :
  simulatedOnly env ->
  (forall k, In k (map sid (store w)) ->
             In k (map sid (store (snd (pushLoop env targets merged w)))))
  /\ (forall j q, In j targets -> nth_error merged j = Some q ->
        In (id q) (map sid (store (snd (pushLoop env targets merged w))))).
Proof.
  intros Hsim. revert merged w.
  induction targets as [|j rest IH]; simpl; intros merged w.
  - split; [auto | intros j q []].
  - destruct (nth_error merged j) as [lq|] eqn:Hj.
    + destruct (Hsim (List.length (requests w))) as [_ [Hp Hs]].
      unfold postQuoteToServer. rewrite Hp, Hs.
      set (w1 := withStore (storePost (store (issue (POST lq) w)) lq)
                           (issue (POST lq) w)).
      set (merged1 := assign merged j (setPendingSync false lq)).
      destruct (IH merged1 w1) as [IH1 IH2].
      assert (Hgrow : forall k, In k (map sid (store w)) \/ k = id lq ->
                                In k (map sid (store w1))).
      { intros k Hk. unfold w1. simpl. now apply storePost_ids. }
      split.
      * intros k Hk. apply IH1. apply Hgrow. now left.
      * intros j' q [<-|Hj'] Hq.
        -- rewrite Hj in Hq. injection Hq as <-. apply IH1, Hgrow. now right.
        -- destruct (Nat.eq_dec j' j) as [->|Hne].
           ++ rewrite Hj in Hq. injection Hq as <-. apply IH1, Hgrow.
              now right.
           ++ apply (IH2 j' q Hj'). unfold merged1.
              now rewrite nth_error_assign_other.
    + destruct (IH merged w) as [IH1 IH2]. split; [exact IH1|].
      intros j' q [<-|Hj'] Hq; [congruence|]. now apply (IH2 j' q).
Qed.

Lemma fetch_simulated env w :
  simulatedOnly env ->
  exists listed w1,
    fetchServerQuotes env w = (Resolved listed, w1)
    /\ store w1 = listed /\ quotes w1 = quotes w
    /\ requests w1 = requests w ++ [GET]
    /\ (store w <> [] -> listed = store w)
    /\ (store w = [] -> listed = map toServerQuote (quotes w)).
Proof.
  intros Hsim. destruct (Hsim (List.length (requests w))) as [Hg [_ Hs]].
  unfold fetchServerQuotes. rewrite Hg, Hs. unfold initFromLocal. simpl.
  destruct (store w) as [|s st] eqn:E; simpl.
  - eexists. eexists. split; [reflexivity|]. simpl.
    repeat split; auto. congruence.
  - eexists. eexists. split; [reflexivity|]. simpl. rewrite E.
    repeat split; auto. discriminate.
Qed.

(** After a pass against the simulated server no quote is pending and the
    server lists every stored id. *)
Lemma simulated_pass_settles env w :
  simulatedOnly env ->
  forall q, In q (quotes (syncWithServer env w)) ->
    pendingSync q = false
    /\ In (id q) (map sid (store (syncWithServer env w))).
Proof.
  intros Hsim q Hin.
  destruct (fetch_simulated env w Hsim)
    as [sq [w1 [Hf [Hst [Hq [Hr _]]]]]].
  destruct (sync_resolved env w sq w1 Hf) as [E _]. rewrite E in *.
  split.
  - destruct (pendingSync q) eqn:Hp; auto.
    destruct (syncBody_pending_failed env sq w1 q Hin Hp) as [k [q0 [Hk _]]].
    unfold postOk in Hk.
    destruct (Hsim (List.length (requests w1) + k)) as [_ [_ Hs]].
    rewrite Hs, orb_true_r in Hk. discriminate.
  - rewrite syncBody_store.
    set (merged := mergedOf (mergePhase env sq w1)).
    set (targets := positions (toPost (serverMapOf sq)) merged).
    destruct (pushLoop_store_ids env targets merged
                (withTicks (read (mergePhase env sq w1)) w1) Hsim)
      as [Hmono Hposted].
    assert (Hid : In (id q) (map id merged)).
    { unfold merged. rewrite <- syncBody_ids. now apply in_map. }
    apply in_map_iff in Hid. destruct Hid as [q0 [Eid Hq0]]. rewrite <- Eid.
    destruct (toPost (serverMapOf sq) q0) eqn:Hpost.
    + apply In_nth_error in Hq0. destruct Hq0 as [p Hp].
      apply (Hposted p q0); auto. apply in_positions. now exists q0.
    + apply Hmono. simpl. rewrite Hst. apply keys_serverMapOf.
      apply has_true_keys. unfold toPost in Hpost.
      apply orb_false_iff in Hpost. destruct Hpost as [_ Hh].
      now apply negb_false_iff in Hh.
Qed.

(** X22. A page that reaches only the simulated server settles in one
    pass: after it no quote is pending and the server lists every stored
    id, and the pass that follows makes its fetch and posts nothing. *)
Theorem simulated_passes_converge env w :
  simulatedOnly env ->
  let w1 := syncWithServer env w in
  let w2 := syncWithServer env w1 in
  (forall q, In q (quotes w1) ->
     pendingSync q = false /\ In (id q) (map sid (store w1)))
  /\ requests w2 = requests w1 ++ [GET].
Proof.
  intros Hsim. cbn zeta.
  split; [now apply simulated_pass_settles|].
  set (wa := syncWithServer env w).
  pose proof (simulated_pass_settles env w Hsim) as Hset. fold wa in Hset.
  destruct (fetch_simulated env wa Hsim)
    as [sq [wb [Hf [Hst [Hq [Hr [Hne He]]]]]]].
  destruct (sync_resolved env wa sq wb Hf) as [-> _].
  rewrite syncBody_requests, Hr.
  assert (Hlisted : forall q, In q (quotes wa) -> In (id q) (map sid sq)).
  { intros q Hin. destruct (store wa) as [|s st] eqn:Es.
    - destruct (Hset q Hin) as [_ []].
    - rewrite Hne by discriminate. now apply Hset. }
  assert (Hnone : filter (toPost (serverMapOf sq))
                         (mergedOf (mergePhase env sq wb)) = []).
  { assert (G : forall l, (forall q, In q l ->
                             toPost (serverMapOf sq) q = false) ->
                          filter (toPost (serverMapOf sq)) l = []).
    { induction l as [|a l IHl]; simpl; intros H; auto.
      rewrite (H a (or_introl eq_refl)). apply IHl. auto. }
    apply G. intros q Hin. unfold toPost.
    destruct (merged_origin env sq wb q Hin) as [Hloc|[Hp Hk]].
    - rewrite Hq in Hloc. destruct (Hset q Hloc) as [Hp _]. rewrite Hp.
      simpl. apply negb_false_iff, has_true_keys, keys_serverMapOf.
      now apply Hlisted.
    - rewrite Hp. simpl. now apply negb_false_iff, has_true_keys. }
  rewrite Hnone. simpl. now rewrite app_nil_r.
Qed.

(** ** Repeated ids and missing quotes *)

Lemma fold_set_get_other (V : Type) (es : list (string * V)) m k :
  ~ In k (map fst es) ->
  JsMap.get (fold_left (fun a e => JsMap.set a (fst e) (snd e)) es m) k
  = JsMap.get m k.
Proof.
  revert m. induction es as [|[k' v] es IH]; simpl; intros m Hn; auto.
  rewrite IH by tauto. apply get_set_other. intros ->. tauto.
Qed.

Lemma localMapOf_get_last a q b :
  (forall q', In q' b -> id q' <> id q) ->
  JsMap.get (localMapOf (a ++ q :: b)) (id q) = Some q.
Proof.
  intros Hb. unfold localMapOf, JsMap.ofEntries.
  rewrite map_app, fold_left_app. simpl.
  rewrite fold_set_get_other.
  - apply get_set_same.
  - rewrite map_map. simpl. intros Hin. apply in_map_iff in Hin.
    destruct Hin as [q' [E Hq']]. now apply (Hb q').
Qed.

(** X23. When several local quotes share an id, a pass keeps the last of
    them and drops the others: what is stored under that id afterwards has
    the text, category and time of the last one (the server holding
    nothing that diverges from it). *)
Theorem repeated_id_last_wins env w serverQuotes w1 a q b :
  fetchServerQuotes env w = (Resolved serverQuotes, w1) ->
  quotes w = a ++ q :: b ->
  (forall q', In q' b -> id q' <> id q) ->
  undisputed env serverQuotes q ->
  let w' := syncWithServer env w in
  (exists q', In q' (quotes w') /\ core q' = core q)
  /\ (forall q', In q' (quotes w') -> id q' = id q -> core q' = core q).
Proof.
  intros Hf Hw Hb Hu.
  destruct (sync_resolved env w serverQuotes w1 Hf) as [-> [Hq _]].
  cbn zeta.
  assert (Hg : JsMap.get (localMapOf (quotes w1)) (id q) = Some q).
  { rewrite Hq, Hw. now apply localMapOf_get_last. }
  destruct (mergePhase_kept env serverQuotes w1 (id q) q Hg eq_refl Hu)
    as [Hg' _].
  destruct (merged_of_map env serverQuotes w1 _ _ Hg') as [Hin _].
  destruct (syncBody_stored env serverQuotes w1 q Hin) as [q2 [Hq2 Hc2]].
  split; [now exists q2|].
  intros q' Hq' Hid.
  assert (E : q' = q2).
  { apply (nodup_map_inj _ _ id _ q' q2
             (syncBody_nodup env serverQuotes w1)); auto.
    apply (f_equal (fun c => fst (fst (fst c)))) in Hc2. simpl in Hc2.
    congruence. }
  now rewrite E.
Qed.

(** X24. Keeping the local side never changes the id, text or category
    of a quote.  For an entry whose quote is no longer in the list it does
    nothing at all: no post, no notice, and the entry stays in the
    registry. *)
Theorem keep_local_effect env conf w :
  map (fun q => (id q, text q, category q)) (quotes (keepLocal env conf w))
  = map (fun q => (id q, text q, category q)) (quotes w)
  /\ ((forall q, In q (quotes w) -> id q <> cid conf) ->
      keepLocal env conf w = w).
Proof.
  unfold keepLocal.
  destruct (find (fun q => String.eqb (id q) (cid conf)) (quotes w))
    as [[idx localQ]|] eqn:Ef.
  - destruct (find_some _ _ _ _ _ Ef) as [Hn Hp]. apply String.eqb_eq in Hp.
    split.
    + simpl.
      match goal with |- context [postQuoteToServer env ?q ?w0] =>
        pose proof (post_page env q w0) as Hpg;
        destruct (postQuoteToServer env q w0) as [ok w2] end.
      simpl in Hpg. destruct Hpg as [Hq _].
      assert (Hlt : idx < List.length (quotes w))
        by (apply nth_error_Some; congruence).
      destruct ok; simpl; rewrite Hq.
      * rewrite (map_assign_same _ _ (fun q => (id q, text q, category q))
                   (assign (quotes w) idx
                      (setLastModified (clock env (ticks w)) localQ))
                   idx
                   (setPendingSync false
                      (setLastModified (clock env (ticks w)) localQ))
                   (setLastModified (clock env (ticks w)) localQ));
          [|now rewrite nth_error_assign_same | reflexivity].
        now apply map_assign_same with (y := localQ).
      * now apply map_assign_same with (y := localQ).
    + intros Hno. exfalso. apply (Hno localQ); auto.
      eapply nth_error_In; eauto.
  - split; reflexivity.
Qed.

(** * The further properties on sample pages *)

Lemma filterQuotes_sample :
  filterQuotes lastOne [quoteA; draft1; mkQuote "z" "zen" "Z" 5 false] "M"
  = Some (ShownQuote draft1, Some draft1)
  /\ In draft1 [quoteA; draft1; mkQuote "z" "zen" "Z" 5 false]
  /\ selects "M" draft1 = true.
Proof.
  assert (Hdraw : forall n, 0 < n -> lastOne n < n)
    by (intros n Hn; unfold lastOne; lia).
  pose proof (filterQuotes_shows lastOne
                [quoteA; draft1; mkQuote "z" "zen" "Z" 5 false] "M" Hdraw)
    as H.
  simpl in H. split; [reflexivity|]. apply H.
Defined.

Lemma sample_ids_not_empty :
  forall q, In q [quoteA; draft1] -> id q <> "" /\ category q <> "".
Proof.
  intros q [<-|[<-|[]]]; split; discriminate.
Defined.

Lemma export_import_sample :
  quotes (importOnLoad unreachable (Some (exportQuotes [quoteA; draft1]))
            (page []))
  = [setPendingSync false quoteA; setPendingSync false draft1].
Proof.
  exact (proj1 (export_import_round_trip unreachable [quoteA; draft1]
                  (page []) sample_ids_not_empty)).
Defined.

Lemma save_load_sample :
  loadQuotesFromLocalStorage unreachable
    (storedOf (saved (saveQuotesToLocalStorage (page [quoteA; draft1]))))
    (page [])
  = page [quoteA; draft1].
Proof.
  exact (save_load_round_trip unreachable (page [quoteA; draft1]) (page [])
           sample_ids_not_empty).
Defined.

Lemma ids_after_pass_sample :
  In "2" (map id (quotes (syncWithServer (online [postB; post2] 200)
                            (page [quoteA; draft1]))))
  /\ In "d1" (map id (quotes (syncWithServer (online [postB; post2] 200)
                                (page [quoteA; draft1])))).
Proof.
  destruct (ids_after_pass (online [postB; post2] 200)
              (page [quoteA; draft1]) [serverB; server2]
              (snd (fetchServerQuotes (online [postB; post2] 200)
                      (page [quoteA; draft1])))
              eq_refl) as [H _].
  split; apply H; [right | left]; simpl; tauto.
Defined.

Lemma pending_after_pass_sample :
  exists n q0,
    nth_error (requests (syncWithServer flaky (page [draft1; draft2]))) n
    = Some (POST q0)
    /\ core q0 = core draft1
    /\ httpPost flaky n = false /\ simFault flaky n = true.
Proof.
  destruct (pending_after_pass_failed_post flaky (page [draft1; draft2])
              [mkServerQuote "d1" "first" "M" (Some 10%Z);
               mkServerQuote "d2" "second" "M" (Some 20%Z)]
              (snd (fetchServerQuotes flaky (page [draft1; draft2])))
              eq_refl) as [H _].
  destruct (H draft1) as [n [q0 [_ [H2 [H3 [_ H5]]]]]];
    [now left | reflexivity |].
  exists n, q0. auto.
Defined.

Lemma simulated_post_sample :
  In (toServerQuote quoteA) (storePost [serverA; server2] quoteA)
  /\ NoDup (map sid (storePost [serverA; server2] quoteA)).
Proof.
  assert (Hnd : NoDup (map sid [serverA; server2])).
  { repeat constructor; simpl; intuition discriminate. }
  destruct (simulated_post_lookup [serverA; server2] quoteA Hnd)
    as [H1 [H2 _]].
  split; assumption.
Defined.

Lemma posted_then_listed_sample :
  let (ok, w1) := postQuoteToServer unreachable draft1 (page [quoteA]) in
  ok = true
  /\ exists listed,
       fst (fetchServerQuotes unreachable w1) = Resolved listed
       /\ In (toServerQuote draft1) listed.
Proof.
  exact (posted_then_listed unreachable draft1 (page [quoteA])
           eq_refl eq_refl eq_refl eq_refl).
Defined.

Lemma server_lists_timed_sample :
  Forall (fun s => slastModified s <> None)
         (store (syncWithServer unreachable (page [quoteA; draft1]))).
Proof.
  exact (proj1 (server_lists_always_timed unreachable (page [quoteA; draft1])
                  (Forall_nil _))).
Defined.

Lemma unlisted_reposted_sample :
  let wa := syncWithServer (online [postB] 200) (page [draft1]) in
  let wb := syncWithServer (online [postB] 200) wa in
  In (POST draft1) (requests wa)
  /\ exists l', core l' = core draft1 /\ In l' (quotes wa)
                /\ exists rest, requests wb = requests wa ++ GET :: rest
                                /\ In (POST l') rest.
Proof.
  exact (unlisted_quote_reposted (online [postB] 200) (page [draft1])
           [serverB]
           (snd (fetchServerQuotes (online [postB] 200) (page [draft1])))
           [serverB]
           (snd (fetchServerQuotes (online [postB] 200)
                   (syncWithServer (online [postB] 200) (page [draft1]))))
           "d1" draft1 eq_refl eq_refl eq_refl eq_refl eq_refl).
Defined.

Lemma offline_first_pass_sample :
  let w' := syncWithServer unreachable (page [quoteA; draft1]) in
  pendingConflicts w' = []
  /\ map core (quotes w') = map core [quoteA; draft1].
Proof.
  assert (Hnd : NoDup (map id (quotes (page [quoteA; draft1])))).
  { repeat constructor; simpl; intuition discriminate. }
  destruct (offline_first_pass_quiet unreachable (page [quoteA; draft1])
              eq_refl eq_refl eq_refl Hnd) as [H1 [H2 _]].
  split; assumption.
Defined.

Lemma serverB_timed : Forall (fun s => slastModified s <> None) [serverB].
Proof. repeat constructor. discriminate. Defined.

Lemma accept_server_sample :
  let w' := syncWithServer (online [postB] 200) (page [quoteA]) in
  quotes (keepServer conflictAB w') = quotes w'
  /\ pendingConflicts (keepServer conflictAB w')
     = dropConflict conflictAB (pendingConflicts w').
Proof.
  destruct (accept_server_after_pass (online [postB] 200) (page [quoteA])
              [serverB]
              (snd (fetchServerQuotes (online [postB] 200) (page [quoteA])))
              conflictAB serverB_timed eq_refl (or_introl eq_refl))
    as [H1 [_ H3]].
  split; assumption.
Defined.

Lemma keep_local_sample :
  let w' := syncWithServer (online [postB] 200) (page [quoteA]) in
  requests (keepLocal (online [postB] 200) conflictAB w')
  = requests w' ++ [POST (mkQuote "1" "B" "User-7" 200 false)].
Proof.
  exact (proj1 (keep_local_after_pass (online [postB] 200) (page [quoteA])
                  [serverB]
                  (snd (fetchServerQuotes (online [postB] 200)
                          (page [quoteA])))
                  conflictAB serverB_timed eq_refl (or_introl eq_refl))).
Defined.

Lemma added_quote_sample :
  let wa := fst (addQuote (online [postB] 200) "hello" "M" (page [quoteA])) in
  In (mkQuote "k0" "hello" "M" 200 false) (quotes wa)
  /\ In (mkQuote "k0" "hello" "M" 200 false)
        (filter (toPost (serverMapOf [serverB]))
           (mergedOf (mergePhase (online [postB] 200) [serverB]
                        (snd (fetchServerQuotes (online [postB] 200) wa))))).
Proof.
  assert (Ht : "hello" <> "") by discriminate.
  assert (Hc : "M" <> "") by discriminate.
  destruct (added_quote_posted_by_next_pass (online [postB] 200) "hello" "M"
              (page [quoteA]) [serverB]
              (snd (fetchServerQuotes (online [postB] 200)
                      (fst (addQuote (online [postB] 200) "hello" "M"
                              (page [quoteA])))))
              Ht Hc eq_refl eq_refl) as [H1 [_ H3]].
  split; assumption.
Defined.

Lemma unreachable_simulated_only : simulatedOnly unreachable.
Proof. intros n. repeat split; reflexivity. Defined.

Lemma simulated_converge_sample :
  let w1 := syncWithServer unreachable (page [quoteA; draft1]) in
  requests (syncWithServer unreachable w1) = requests w1 ++ [GET].
Proof.
  exact (proj2 (simulated_passes_converge unreachable (page [quoteA; draft1])
                  unreachable_simulated_only)).
Defined.

Lemma repeated_id_sample :
  exists q',
    In q' (quotes (syncWithServer unreachable
                     (page [mkQuote "1" "old" "M" 50 false; quoteA])))
    /\ core q' = core quoteA.
Proof.
  assert (Hu : undisputed unreachable
                 [toServerQuote (mkQuote "1" "old" "M" 50 false);
                  toServerQuote quoteA] quoteA).
  { apply undisputed_same with (toServerQuote quoteA);
      [reflexivity | now left]. }
  exact (proj1 (repeated_id_last_wins unreachable
                  (page [mkQuote "1" "old" "M" 50 false; quoteA])
                  [toServerQuote (mkQuote "1" "old" "M" 50 false);
                   toServerQuote quoteA]
                  (snd (fetchServerQuotes unreachable
                          (page [mkQuote "1" "old" "M" 50 false; quoteA])))
                  [mkQuote "1" "old" "M" 50 false] quoteA []
                  eq_refl eq_refl (fun q' (H : In q' []) => False_ind _ H)
                  Hu)).
Defined.

Lemma escapeHtml_injective_sample :
  escapeHtml "a<b" = escapeHtml "a<b" /\ "a<b"%string = "a<b"%string.
Proof.
  split; [reflexivity|].
  exact (escapeHtml_injective "a<b" "a<b" eq_refl).
Defined.
